(** * tyssue.core.objects: the topology and indexing engine of [Epithelium]

    A shallow embedding of [src/tyssue/core/objects.py].  The four pandas
    dataframes of an epithelium are labelled tables (a list of rows, each
    carrying its index label), Python exceptions are values of [exn], and a
    method that mutates [self] is a function from the old to the new
    epithelium. *)

From Stdlib Require Import String.
From Stdlib Require Import ZArith List Bool Lia QArith Permutation.
Import ListNotations.
Local Open Scope Z_scope.

(** ** Exceptions and results

    The Python exception classes the module raises or catches, and the two
    classes that only the specification names: no class of the sources is
    called [ConfigurationError] or [TopologyError], and no code path raises
    them. *)

Inductive exn : Type :=
| ValueError
| KeyError
| IndexError
| AssertionError
| ConfigurationError
| TopologyError.

Inductive result (A : Type) : Type :=
| Ok (a : A)
| Raise (e : exn).

Arguments Ok {A} a.
Arguments Raise {A} e.

Definition bind {A B} (m : result A) (k : A -> result B) : result B :=
  match m with
  | Ok a => k a
  | Raise e => Raise e
  end.

Notation "x <- m ;; k" := (bind m (fun x => k))
  (at level 61, m at next level, right associativity).

(** ** Floating-point values

    Only the comparisons of the source are used on coordinates, and IEEE
    comparisons are exact: a finite float is a rational, every comparison
    with NaN is false. *)

Inductive float : Type :=
| NaN
| NInf
| Fin (q : Q)
| PInf.

Definition Qltb (a b : Q) : bool :=
  (Qnum a * Zpos (Qden b) <? Qnum b * Zpos (Qden a)).

Definition Qleb (a b : Q) : bool :=
  (Qnum a * Zpos (Qden b) <=? Qnum b * Zpos (Qden a)).

(** [a < b] on floats. *)
Definition flt (a b : float) : bool :=
  match a, b with
  | NaN, _ | _, NaN => false
  | PInf, _ => false
  | _, NInf => false
  | NInf, _ => true
  | _, PInf => true
  | Fin x, Fin y => Qltb x y
  end.

(** [a > b] on floats. *)
Definition fgt (a b : float) : bool := flt b a.

(** [a <= b] on floats. *)
Definition fle (a b : float) : bool :=
  match a, b with
  | NaN, _ | _, NaN => false
  | NInf, _ => true
  | _, PInf => true
  | PInf, _ => false
  | _, NInf => false
  | Fin x, Fin y => Qleb x y
  end.

(** ** Labelled tables (the pandas layer)

    A [pd.DataFrame] or [pd.Series] is the list of its rows in order, each
    with its index label.  Labels need not be unique nor sorted; they are
    integers that pass through [float64] unchanged.

    Selection by a list of labels is the reindexing that the module relies
    on: a label that no row carries gives a missing (NaN) entry, which
    [get_opposite] turns into -1.  On a plain index, a list of labels of
    which none is found is a [KeyError] ([loc_list]).  What pandas does
    when some labels are found and others are not has changed between
    releases; the statements below that say a call returns are made under
    hypotheses that exclude a missing label. *)

Section Keyed.
Context {K A : Type} (eqb : K -> K -> bool).

(** All the rows carrying label [k], in table order. *)
Definition rows_at (df : list (K * A)) (k : K) : list (K * A) :=
  filter (fun r => eqb (fst r) k) df.

(** [df.loc[keys]] with a list of labels: for each key in turn, every row
    carrying it; a key carried by no row gives one missing (NaN) entry.
    This is the behaviour [get_opposite] relies on when it replaces the
    NaN entries by -1. *)
Definition loc (df : list (K * A)) (keys : list K) : list (K * option A) :=
  flat_map (fun k =>
              match rows_at df k with
              | [] => [(k, None)]
              | l => map (fun r => (k, Some (snd r))) l
              end) keys.

(** The first row carrying label [k], if any. *)
Definition loc1 (df : list (K * A)) (k : K) : option A :=
  match rows_at df k with
  | [] => None
  | r :: _ => Some (snd r)
  end.
End Keyed.

Definition table (A : Type) : Type := list (Z * A).

Definition index {A} (df : table A) : list Z := map fst df.

Definition values {K A} (df : list (K * A)) : list A := map snd df.

Definition pair_eqb (a b : Z * Z) : bool :=
  (fst a =? fst b) && (snd a =? snd b).

(** ** Rows of the four tables *)

Record vert_row : Type := mk_vert {
  x : float;
  y : float;
  z : float;
  is_active : bool
}.

Record edge_row : Type := mk_edge {
  srce : Z;
  trgt : Z;
  face : Z;
  cell : Z;          (* read only when cells are modelled *)
  dx : float;
  dy : float;
  opposite : Z       (* read only when the column exists *)
}.

Record face_row : Type := mk_face {
  num_sides : option Z;   (* [None] is NaN *)
  is_alive : bool
}.

Record cell_row : Type := mk_cell {
  num_faces : option Z    (* [None] is NaN *)
}.

(** ** [get_opposite] *)

(** [edge_df[['srce', 'trgt']].reset_index().set_index(['srce', 'trgt'])]:
    the table keyed by the (srce, trgt) pair whose ['edge'] column holds the
    label of the half-edge. *)
Definition st_indexed (edge_df : table edge_row) : list ((Z * Z) * Z) :=
  map (fun r => ((srce (snd r), trgt (snd r)), fst r)) edge_df.

(** [index.swaplevel(0, 1)]. *)
Definition swaplevel (keys : list (Z * Z)) : list (Z * Z) :=
  map (fun k => (snd k, fst k)) keys.

Definition get_opposite (edge_df : table edge_row) : list Z :=
  let st := st_indexed edge_df in
  let flipped := swaplevel (map fst st) in
  let opposite := values (loc pair_eqb st flipped) in
  (* opposite[np.isnan(opposite)] = -1 *)
  map (fun o => match o with Some e => e | None => -1 end) opposite.

(** ** More of the pandas and numpy layer *)

Definition mem (k : Z) (l : list Z) : bool := existsb (Z.eqb k) l.

Definition count (k : Z) (l : list Z) : Z :=
  Z.of_nat (length (filter (Z.eqb k) l)).

(** [Series.unique()]: the distinct values in order of first appearance. *)
Fixpoint unique (l : list Z) : list Z :=
  match l with
  | [] => []
  | a :: l' => a :: filter (fun b => negb (b =? a)) (unique l')
  end.

Fixpoint insert (a : Z) (l : list Z) : list Z :=
  match l with
  | [] => [a]
  | b :: l' => if a <=? b then a :: l else b :: insert a l'
  end.

(** [ndarray.sort()]. *)
Fixpoint sort (l : list Z) : list Z :=
  match l with
  | [] => []
  | a :: l' => insert a (sort l')
  end.

(** [np.unique]: the distinct values in increasing order. *)
Definition np_unique (l : list Z) : list Z := sort (unique l).

(** [np.arange(n)]. *)
Definition arange (n : nat) : list Z := map Z.of_nat (seq 0 n).

(** A missing entry in the result of [loc] stands for a label that no row
    carries.  The typed tables have no place for a NaN row or a NaN key:
    where the source would go on with one, the embedding raises [KeyError]
    (as later pandas versions do in [loc] itself).  The table invariants
    exclude the case. *)
Fixpoint no_nan {K A} (l : list (K * option A)) : result (list (K * A)) :=
  match l with
  | [] => Ok []
  | (k, Some a) :: l' => r <- no_nan l' ;; Ok ((k, a) :: r)
  | (_, None) :: _ => Raise KeyError
  end.

(** [df.loc[keys]] where rows are wanted. *)
Definition loc_rows {A} (df : table A) (keys : list Z) : result (table A) :=
  no_nan (loc Z.eqb df keys).

(** [df.loc[keys]] with a list of labels, on a table with a plain index:
    when the list is not empty and no row carries any of its labels, a
    [KeyError]; otherwise the reindexing [loc]. *)
Definition loc_list {A} (df : table A) (keys : list Z)
  : result (list (Z * option A)) :=
  match keys with
  | [] => Ok []
  | _ :: _ =>
      if existsb (fun k => mem k (index df)) keys
      then Ok (loc Z.eqb df keys)
      else Raise KeyError
  end.

(** [df.loc[k]] with one label. *)
Definition loc_scalar {A} (df : table A) (k : Z) : result A :=
  match loc1 Z.eqb df k with
  | Some a => Ok a
  | None => Raise KeyError
  end.

(** [df.drop(labels)]: every row carrying one of the labels goes; a label
    that no row carries is an error. *)
Definition drop {A} (df : table A) (labels : list Z) : result (table A) :=
  if forallb (fun l => mem l (index df)) labels
  then Ok (filter (fun r => negb (mem (fst r) labels)) df)
  else Raise KeyError.

(** [df[col] = vals] with [vals] an array or a series on the index of [df]:
    positional, and a [ValueError] when the lengths differ. *)
Definition assign {A B} (set : B -> A -> A) (df : table A) (vals : list B)
  : result (table A) :=
  if Nat.eqb (length vals) (length df)
  then Ok (map (fun rv => (fst (fst rv), set (snd rv) (snd (fst rv))))
               (combine df vals))
  else Raise ValueError.

(** [pd.Series(np.arange(df.shape[0]), index=df.index)]. *)
Definition new_idx {A} (df : table A) : table Z :=
  combine (index df) (arange (length df)).

(** [df.reset_index(drop=True)]. *)
Definition reset_index_drop {A} (df : table A) : table A :=
  combine (arange (length df)) (values df).

(** [Series.value_counts()]: one row per distinct value, with its count. *)
Definition value_counts (l : list Z) : table Z :=
  map (fun k => (k, count k l)) (unique l).

(** [df.groupby(key)]: the groups in increasing key order. *)
Definition groupby {A} (key : A -> Z) (df : table A) : list (Z * table A) :=
  map (fun k => (k, filter (fun r => key (snd r) =? k) df))
      (np_unique (map key (values df))).

(** [Series.dropna()]. *)
Fixpoint dropna {K A} (l : list (K * option A)) : list (K * A) :=
  match l with
  | [] => []
  | (k, Some a) :: l' => (k, a) :: dropna l'
  | (_, None) :: l' => dropna l'
  end.

(** Python [set(a) == set(b)]. *)
Definition set_eqb (a b : list Z) : bool :=
  forallb (fun v => mem v b) a && forallb (fun v => mem v a) b.

(** ** The epithelium *)

Inductive coord : Type := cx | cy | cz.

Definition coord_eqb (a b : coord) : bool :=
  match a, b with
  | cx, cx | cy, cy | cz, cz => true
  | _, _ => false
  end.

(** [vert_df[c]] for one row. *)
Definition vert_col (c : coord) (v : vert_row) : float :=
  match c with
  | cx => x v
  | cy => y v
  | cz => z v
  end.

(** The names of the foreign-key columns of the edge table. *)
Inductive element : Type := Srce | Trgt | Face | Cell.

(** [edge_df[name]] for one row. *)
Definition edge_col (name : element) (r : edge_row) : Z :=
  match name with
  | Srce => srce r
  | Trgt => trgt r
  | Face => face r
  | Cell => cell r
  end.

Definition set_srce (v : Z) (r : edge_row) : edge_row :=
  mk_edge v (trgt r) (face r) (cell r) (dx r) (dy r) (opposite r).
Definition set_trgt (v : Z) (r : edge_row) : edge_row :=
  mk_edge (srce r) v (face r) (cell r) (dx r) (dy r) (opposite r).
Definition set_face (v : Z) (r : edge_row) : edge_row :=
  mk_edge (srce r) (trgt r) v (cell r) (dx r) (dy r) (opposite r).
Definition set_cell (v : Z) (r : edge_row) : edge_row :=
  mk_edge (srce r) (trgt r) (face r) v (dx r) (dy r) (opposite r).
Definition set_opposite (v : Z) (r : edge_row) : edge_row :=
  mk_edge (srce r) (trgt r) (face r) (cell r) (dx r) (dy r) v.
Definition set_num_sides (v : option Z) (r : face_row) : face_row :=
  mk_face v (is_alive r).
Definition set_num_faces (v : option Z) (r : cell_row) : cell_row :=
  mk_cell v.

(** The index sets of [get_extra_indices]. *)
Record extra_indices : Type := mk_extra {
  dble_edges : list Z;
  east_edges : list Z;
  west_edges : list Z;
  free_edges : list Z;
  sgle_edges : list Z;
  srtd_edges : list Z;
  wrpd_edges : list Z;
  Ni : Z;
  Nd : Z;
  No : Z;
  anti_sym : table Z
}.

(** An instance that [__init__] returned.  [self.datasets] always holds the
    vert, edge and face tables then (see [init]); the cell table is optional.
    [has_opposite] is ['opposite' in self.edge_df.columns]. *)
Record Epithelium : Type := mk_eptm {
  identifier : string;
  coords : list coord;
  vert_df : table vert_row;
  edge_df : table edge_row;
  has_opposite : bool;
  face_df : table face_row;
  cell_df : option (table cell_row);
  edge_mindex : list (list Z);
  bbox : option (list (float * float));
  extra : option extra_indices
}.

Definition with_vert_df (v : table vert_row) (e : Epithelium) : Epithelium :=
  mk_eptm (identifier e) (coords e) v (edge_df e) (has_opposite e)
          (face_df e) (cell_df e) (edge_mindex e) (bbox e) (extra e).
Definition with_edge_df (v : table edge_row) (e : Epithelium) : Epithelium :=
  mk_eptm (identifier e) (coords e) (vert_df e) v (has_opposite e)
          (face_df e) (cell_df e) (edge_mindex e) (bbox e) (extra e).
Definition with_opposite_column (e : Epithelium) : Epithelium :=
  mk_eptm (identifier e) (coords e) (vert_df e) (edge_df e) true
          (face_df e) (cell_df e) (edge_mindex e) (bbox e) (extra e).
Definition with_face_df (v : table face_row) (e : Epithelium) : Epithelium :=
  mk_eptm (identifier e) (coords e) (vert_df e) (edge_df e) (has_opposite e)
          v (cell_df e) (edge_mindex e) (bbox e) (extra e).
Definition with_cell_df (v : table cell_row) (e : Epithelium) : Epithelium :=
  mk_eptm (identifier e) (coords e) (vert_df e) (edge_df e) (has_opposite e)
          (face_df e) (Some v) (edge_mindex e) (bbox e) (extra e).
Definition with_edge_mindex (v : list (list Z)) (e : Epithelium) : Epithelium :=
  mk_eptm (identifier e) (coords e) (vert_df e) (edge_df e) (has_opposite e)
          (face_df e) (cell_df e) v (bbox e) (extra e).
Definition with_bbox (v : list (float * float)) (e : Epithelium) : Epithelium :=
  mk_eptm (identifier e) (coords e) (vert_df e) (edge_df e) (has_opposite e)
          (face_df e) (cell_df e) (edge_mindex e) (Some v) (extra e).
Definition with_extra (v : extra_indices) (e : Epithelium) : Epithelium :=
  mk_eptm (identifier e) (coords e) (vert_df e) (edge_df e) (has_opposite e)
          (face_df e) (cell_df e) (edge_mindex e) (bbox e) (Some v).

(** [self.data_names]: the keys of [self.datasets]. *)
Definition data_names (e : Epithelium) : list string :=
  match cell_df e with
  | Some _ => ["vert"; "edge"; "face"; "cell"]%string
  | None => ["vert"; "edge"; "face"]%string
  end.

(** ['cell' in self.data_names]. *)
Definition has_cell (e : Epithelium) : bool :=
  existsb (String.eqb "cell") (data_names e).

(** [['srce', 'trgt', 'face', 'cell'][:len(self.data_names)]]. *)
Definition element_names (e : Epithelium) : list element :=
  firstn (length (data_names e)) [Srce; Trgt; Face; Cell].

(** [self.element_names[-1]]; the list is never empty. *)
Definition top_level (e : Epithelium) : element :=
  last (element_names e) Srce.

(** [self.edge_idx]. *)
Definition edge_idx (e : Epithelium) : list (list Z) :=
  map (fun r => map (fun n => edge_col n (snd r)) (element_names e))
      (edge_df e).

(** ** Index algebra *)

(** [_upcast]: [df.loc[idx]], re-labelled with the index of the edge table;
    setting an index of another length is a [ValueError]. *)
Definition _upcast {A} (self : Epithelium) (idx : list Z) (df : table A)
  : result (table (option A)) :=
  upcast <- loc_list df idx ;;
  if Nat.eqb (length upcast) (length (edge_df self))
  then Ok (combine (index (edge_df self)) (values upcast))
  else Raise ValueError.

Definition upcast_srce {A} (self : Epithelium) (df : table A) :=
  _upcast self (map srce (values (edge_df self))) df.

Definition upcast_trgt {A} (self : Epithelium) (df : table A) :=
  _upcast self (map trgt (values (edge_df self))) df.

Definition upcast_face {A} (self : Epithelium) (df : table A) :=
  _upcast self (map face (values (edge_df self))) df.

Definition upcast_cell {A} (self : Epithelium) (df : table A) :=
  _upcast self (map cell (values (edge_df self))) df.

(** [self.edge_df[col] = series], for a series that [_upcast] returned. *)
Definition set_edge_column {B} (set : B -> edge_row -> edge_row)
           (self : Epithelium) (series : table (option B))
  : result Epithelium :=
  s <- no_nan series ;;
  e <- assign set (edge_df self) (values s) ;;
  Ok (with_edge_df e self).

(** ** [reset_index] *)

Definition reset_index (self : Epithelium) : result Epithelium :=
  let new_vertidx := new_idx (vert_df self) in
  s <- upcast_srce self new_vertidx ;;
  self <- set_edge_column set_srce self s ;;
  t <- upcast_trgt self new_vertidx ;;
  self <- set_edge_column set_trgt self t ;;
  let new_fidx := new_idx (face_df self) in
  f <- upcast_face self new_fidx ;;
  self <- set_edge_column set_face self f ;;
  let self := with_vert_df (reset_index_drop (vert_df self)) self in
  let self := with_face_df (reset_index_drop (face_df self)) self in
  self <- (if has_cell self
           then match cell_df self with
                | Some cells =>
                    let new_cidx := new_idx cells in
                    c <- upcast_cell self new_cidx ;;
                    self <- set_edge_column set_cell self c ;;
                    Ok (with_cell_df (reset_index_drop cells) self)
                | None => Raise KeyError
                end
           else Ok self) ;;
  Ok (with_edge_df (reset_index_drop (edge_df self)) self).

(** ** [reset_topo] *)

(** [value_counts()] has one row per distinct face, so [.loc[face_df.index]]
    has one entry per face label, its number of half-edges or NaN, under the
    labels of the face table: the assignment is positional.  When the face
    table is not empty and no half-edge names any of its faces, the
    selection is a [KeyError]. *)
Definition update_num_sides (self : Epithelium) : result Epithelium :=
  let counts := value_counts (map face (values (edge_df self))) in
  sides <- loc_list counts (index (face_df self)) ;;
  faces <- assign set_num_sides (face_df self) (values sides) ;;
  Ok (with_face_df faces self).

(** The series of [update_num_faces] has one row per cell that owns a
    half-edge; the assignment aligns it on the labels of the cell table.
    With no half-edge at all there is no group and what [apply] returns is
    not a series: the statements that say a call returns are made for edge
    tables that hold a half-edge when cells are modelled. *)
Definition update_num_faces (cells : table cell_row) (self : Epithelium)
  : Epithelium :=
  let sizes :=
    map (fun g => (fst g,
                   Z.of_nat (length (unique (map face (values (snd g)))))))
        (groupby cell (edge_df self)) in
  with_cell_df
    (map (fun r => (fst r, set_num_faces (loc1 Z.eqb sizes (fst r)) (snd r)))
         cells)
    self.

Definition update_mindex (self : Epithelium) : Epithelium :=
  with_edge_mindex (edge_idx self) self.

Definition opposite_warning : string :=
  "Opposites could not be computed, are you sure you are using a sheet-like topology?".

(** Returns the new state and the warnings emitted. *)
Definition reset_topo (self : Epithelium)
  : result (Epithelium * list string) :=
  self <- update_num_sides self ;;
  let self := update_mindex self in
  let self := match cell_df self with   (* if 'cell' in self.data_names *)
              | Some cells => update_num_faces cells self
              | None => self
              end in
  if has_opposite self && negb (has_cell self)
  then match assign set_opposite (edge_df self) (get_opposite (edge_df self)) with
       | Ok e => Ok (with_edge_df e self, [])
       | Raise ValueError => Ok (self, [opposite_warning])   (* warnings.warn *)
       | Raise e => Raise e
       end
  else Ok (self, []).

(** ** [get_extra_indices] *)

Definition is_dble (r : Z * edge_row) : bool := 0 <=? opposite (snd r).
Definition is_free (r : Z * edge_row) : bool := opposite (snd r) =? -1.

(** The first statement of [get_extra_indices]: the opposite column is
    computed when the edge table has none. *)
Definition ensure_opposite (self : Epithelium) : result Epithelium :=
  if has_opposite self then Ok self
  else e <- assign set_opposite (edge_df self) (get_opposite (edge_df self)) ;;
       Ok (with_opposite_column (with_edge_df e self)).

Section Partition.
(** The floating-point test [(theta >= 0) & (theta < np.pi)] for
    [theta = np.arctan2(dy, dx)], as a function of [dy] and [dx]. *)
Variable east_angle : float -> float -> bool.

Definition is_east (r : Z * edge_row) : bool :=
  east_angle (dy (snd r)) (dx (snd r)).

(** The index sets, before the consistency assertions. *)
Definition partition_sets (edges : table edge_row)
  : result (list Z * list Z * list Z * list Z) :=
  let dble_edges := index (filter is_dble edges) in
  dble <- loc_rows edges dble_edges ;;
  let east_edges := index (filter is_east dble) in
  east <- loc_rows edges east_edges ;;
  let west_edges := map (fun r => opposite (snd r)) east in
  let free_edges := index (filter is_free edges) in
  Ok (dble_edges, east_edges, west_edges, free_edges).

(** The three assertions. *)
Definition consistent (Ne : Z) (sets : list Z * list Z * list Z * list Z)
  : bool :=
  let '(dble_edges, east_edges, west_edges, free_edges) := sets in
  let Ni := Z.of_nat (length east_edges) in
  let Nd := Z.of_nat (length dble_edges) in
  let No := Z.of_nat (length free_edges) in
  (2 * Ni + No =? Ne) && (Z.of_nat (length west_edges) =? Ni)
  && (Nd =? 2 * Ni).

Definition get_extra_indices (self : Epithelium) : result Epithelium :=
  self <- ensure_opposite self ;;
  sets <- partition_sets (edge_df self) ;;
  let '(dble_edges, east_edges, west_edges, free_edges) := sets in
  let sgle_edges := free_edges ++ east_edges in
  let srtd_edges := sgle_edges ++ west_edges in
  let wrpd_edges := sgle_edges ++ east_edges in
  let Ne := Z.of_nat (length (edge_df self)) in
  if consistent Ne sets
  then
    (* anti_sym.loc[self.west_edges] = -1 *)
    if forallb (fun l => mem l (index (edge_df self))) west_edges
    then
      let anti_sym :=
        map (fun r => (fst r, if mem (fst r) west_edges then -1 else 1))
            (edge_df self) in
      Ok (with_extra
            (mk_extra dble_edges east_edges west_edges free_edges
                      sgle_edges srtd_edges wrpd_edges
                      (Z.of_nat (length east_edges))
                      (Z.of_nat (length dble_edges))
                      (Z.of_nat (length free_edges)) anti_sym)
            self)
    else Raise KeyError
  else Raise AssertionError.
End Partition.

(** ** Validity *)

(** [_test_invalid] on the half-edges of one face. *)
Definition _test_invalid (face_edges : table edge_row) : bool :=
  let s1 := map srce (values face_edges) in
  let s2 := map trgt (values face_edges) in
  negb (set_eqb s1 s2).

(** [_test_valid] on the half-edges of one face. *)
Definition _test_valid (face_edges : table edge_row) : bool :=
  let s1 := map srce (values face_edges) in
  let s2 := map trgt (values face_edges) in
  set_eqb s1 s2.

(** ** [remove] *)

Definition remove (self : Epithelium) (edge_out : list Z)
  : result (Epithelium * list string) :=
  let top := top_level self in
  sel <- loc_rows (edge_df self) edge_out ;;
  let fto_rm := unique (map (fun r => edge_col top (snd r)) sel) in
  if Nat.eqb (length fto_rm) 0
  then Ok (self, [])
  else
    let fto_rm := sort fto_rm in
    (* edge_df_.loc[c] lists the half-edges of element c by increasing label *)
    let to_rm :=
      sort (flat_map
              (fun c => sort (index (filter
                                       (fun r => edge_col top (snd r) =? c)
                                       (edge_df self))))
              fto_rm) in
    edges <- drop (edge_df self) to_rm ;;
    let self := with_edge_df edges self in
    let remaining_verts :=
      np_unique (flat_map (fun r => [srce (snd r); trgt (snd r)])
                          (edge_df self)) in
    verts <- loc_rows (vert_df self) remaining_verts ;;
    let self := with_vert_df verts self in
    self <- match top with
            | Face =>
                faces <- drop (face_df self) fto_rm ;;
                Ok (with_face_df faces self)
            | Cell =>
                let remaining_faces :=
                  np_unique (map face (values (edge_df self))) in
                faces <- loc_rows (face_df self) remaining_faces ;;
                let self := with_face_df faces self in
                cells <- match cell_df self with
                         | Some c => drop c fto_rm
                         | None => Raise KeyError
                         end ;;
                Ok (with_cell_df cells self)
            | _ => Ok self
            end ;;
    self <- reset_index self ;;
    reset_topo self.

(** ** [cut_out] and [set_bbox] *)

(** [outs[c] = col] on a frame whose columns are named by [coords]. *)
Definition set_column (c : coord) (col : list bool)
           (outs : list (coord * option (list bool)))
  : list (coord * option (list bool)) :=
  map (fun o => if coord_eqb (fst o) c then (fst o, Some col) else o) outs.

(** [(vert_df[c] < bounds[0]) | (vert_df[c] > bounds[1])] for one row. *)
Definition outside (c : coord) (bounds : float * float) (v : vert_row)
  : bool :=
  flt (vert_col c v) (fst bounds) || fgt (vert_col c v) (snd bounds).

(** One turn of the loop of [cut_out]. *)
Definition cut_out_step (self : Epithelium)
           (outs : list (coord * option (list bool)))
           (c : coord) (bounds : float * float)
  : result (list (coord * option (list bool))) :=
  let out_vert_ :=
    map (fun v => (fst v, outside c bounds (snd v))) (vert_df self) in
  s <- upcast_srce self out_vert_ ;;
  s <- no_nan s ;;
  t <- upcast_trgt self out_vert_ ;;
  t <- no_nan t ;;
  Ok (set_column c (map (fun st => orb (snd (fst st)) (snd (snd st)))
                        (combine s t))
                 outs).

Fixpoint cut_out_loop (self : Epithelium)
         (outs : list (coord * option (list bool)))
         (zipped : list (coord * (float * float)))
  : result (list (coord * option (list bool))) :=
  match zipped with
  | [] => Ok outs
  | (c, bounds) :: rest =>
      outs <- cut_out_step self outs c bounds ;;
      cut_out_loop self outs rest
  end.

(** [outs.sum(axis=1).astype(np.bool)] at row [i]: a column never assigned
    is all NaN and is skipped by the sum. *)
Definition row_sum (outs : list (coord * option (list bool))) (i : nat) : Z :=
  fold_right Z.add 0
    (map (fun o => match snd o with
                   | Some col => if nth i col false then 1 else 0
                   | None => 0
                   end) outs).

Definition cut_out (self : Epithelium) (bbox : list (float * float))
           (coords_arg : option (list coord)) : result (list Z) :=
  let coords := match coords_arg with
                | None => coords self      (* if coords is None *)
                | Some c => c
                end in
  let outs := map (fun c => (c, None)) coords in
  outs <- cut_out_loop self outs (combine coords bbox) ;;
  let edge_out :=
    map (fun i => negb (row_sum outs i =? 0))
        (seq 0 (length (edge_df self))) in
  Ok (index (map fst (filter snd (combine (edge_df self) edge_out)))).

(** [Series.min()] and [Series.max()]: NaN entries are skipped, and the
    result is NaN when nothing is left. *)
Definition fmin (a b : float) : float :=
  match a, b with
  | NaN, _ => b
  | _, NaN => a
  | _, _ => if flt b a then b else a
  end.

Definition fmax (a b : float) : float :=
  match a, b with
  | NaN, _ => b
  | _, NaN => a
  | _, _ => if flt a b then b else a
  end.

Definition column_min (l : list float) : float := fold_right fmin NaN l.
Definition column_max (l : list float) : float := fold_right fmax NaN l.

(** ** Polygons *)

Fixpoint map_result {A B} (f : A -> result B) (l : list A) : result (list B) :=
  match l with
  | [] => Ok []
  | a :: l' => b <- f a ;; r <- map_result f l' ;; Ok (b :: r)
  end.

(** [trgts[srces == trgt][0]]. *)
Definition next_trgt (srces trgts : list Z) (trgt : Z) : result Z :=
  match filter (fun st => fst st =? trgt) (combine srces trgts) with
  | [] => Raise IndexError
  | st :: _ => Ok (snd st)
  end.

(** The loop of [_ordered_edges] over [faces[1:]]. *)
Fixpoint chain (srces trgts : list Z) (faces : list Z) (trgt : Z)
  : result (list (Z * Z * Z)) :=
  match faces with
  | [] => Ok []
  | face_ :: rest =>
      trgt' <- next_trgt srces trgts trgt ;;
      edges <- chain srces trgts rest trgt' ;;
      Ok ((trgt, trgt', face_) :: edges)
  end.

Definition _ordered_edges (face_edges : table edge_row)
  : result (list (Z * Z * Z)) :=
  let srces := map srce (values face_edges) in
  let trgts := map trgt (values face_edges) in
  let faces := map face (values face_edges) in
  match values face_edges with
  | [] => Raise IndexError
  | e0 :: _ =>
      edges <- chain srces trgts (tl faces) (trgt e0) ;;
      Ok ((srce e0, trgt e0, face e0) :: edges)
  end.

(** [ordered_vert_idxs]; [None] is [np.nan]. *)
Definition ordered_vert_idxs (face_edges : table edge_row)
  : result (option (list Z)) :=
  match _ordered_edges face_edges with
  | Ok edges => Ok (Some (map (fun idxs => fst (fst idxs)) edges))
  | Raise IndexError => Ok None
  | Raise e => Raise e
  end.

(** [_get_verts_pos] of [face_polygons]; only [_ordered_edges] is inside
    the [try]. *)
Definition _get_verts_pos (self : Epithelium) (coords : list coord)
           (face_edges : table edge_row)
  : result (option (list (list float))) :=
  match _ordered_edges face_edges with
  | Raise IndexError => Ok None       (* log.warning('Face is not closed') *)
  | Raise e => Raise e
  | Ok edges =>
      pos <- map_result
               (fun idx =>
                  v <- loc_scalar (vert_df self) (fst (fst idx)) ;;
                  Ok (map (fun c => vert_col c v) coords))
               edges ;;
      Ok (Some pos)
  end.

Definition face_polygons (self : Epithelium) (coords : list coord)
  : result (table (list (list float))) :=
  polys <- map_result
             (fun g => p <- _get_verts_pos self coords (snd g) ;;
                       Ok (fst g, p))
             (groupby face (edge_df self)) ;;
  Ok (dropna polys).

(** ** Construction *)

Inductive DataFrame : Type :=
| VertDF (rows : table vert_row)
| EdgeDF (rows : table edge_row) (opposite_column : bool)
| FaceDF (rows : table face_row)
| CellDF (rows : table cell_row).

Definition frame_types : list string :=
  ["edge"; "vert"; "face"; "cell"]%string.

(** [set(keys).issubset(s)]. *)
Definition issubset (keys s : list string) : bool :=
  forallb (fun k => existsb (String.eqb k) s) keys.

(** [datasets[name]]. *)
Definition dict_get (datasets : list (string * DataFrame)) (name : string)
  : result DataFrame :=
  match find (fun kv => String.eqb (fst kv) name) datasets with
  | Some kv => Ok (snd kv)
  | None => Raise KeyError
  end.

Section Construction.
(** [utils.set_data_columns(datasets, specs, reset)] for the specs the
    constructor was given; the module is not part of the sources read
    here, so its effect on the datasets is a parameter. *)
Variable set_data_columns :
  list (string * DataFrame) -> result (list (string * DataFrame)).

(** Floating-point addition and subtraction (rounding). *)
Variables fadd fsub : float -> float -> float.

Definition set_bbox (margin : float) (self : Epithelium) : Epithelium :=
  with_bbox
    (map (fun c =>
            let col := map (vert_col c) (values (vert_df self)) in
            (fsub (column_min col) margin, fadd (column_max col) margin))
         (coords self))
    self.

(** [Epithelium.__init__].  A table of the wrong kind under a name lacks
    the columns the constructor reads there, which is a [KeyError] like a
    missing table. *)
Definition init (identifier : string)
           (datasets : list (string * DataFrame))
           (coords : option (list coord))
  : result (Epithelium * list string) :=
  let coords := match coords with
                | None => [cx; cy; cz]
                | Some c => c
                end in
  if negb (issubset (map fst datasets) frame_types)
  then Raise ValueError
  else
    let data_names := map fst datasets in
    datasets <- set_data_columns datasets ;;
    edge <- dict_get datasets "edge" ;;
    face <- dict_get datasets "face" ;;
    vert <- dict_get datasets "vert" ;;
    cells <- (if existsb (String.eqb "cell") data_names
              then match dict_get datasets "cell" with
                   | Ok (CellDF c) => Ok (Some c)
                   | Ok _ => Raise KeyError
                   | Raise e => Raise e
                   end
              else Ok None) ;;
    match edge, face, vert with
    | EdgeDF e opp, FaceDF f, VertDF v =>
        let self := mk_eptm identifier coords v e opp f cells [] None None in
        let self := update_mindex self in
        st <- reset_topo self ;;
        Ok (set_bbox (Fin 1) (fst st), snd st)
    | _, _, _ => Raise KeyError
    end.
End Construction.

(** ** Closed cells, invalid half-edges and [sanitize] *)

(** [_is_closed_cell] on the half-edges of one cell: each of them has one
    half-edge exactly that runs from its target to its source. *)
Definition _is_closed_cell (e_df : table edge_row) : bool :=
  forallb (fun e =>
             Nat.eqb
               (length (filter (fun r =>
                                  (srce (snd r) =? trgt (snd e))
                                  && (trgt (snd r) =? srce (snd e)))
                               e_df))
               1)
          e_df.

(** [get_invalid]: the mask over the half-edges.  [1 - closed] on a boolean
    series is its negation, and [|] of the boolean mask with it is a
    boolean. *)
Definition get_invalid (self : Epithelium) : result (table bool) :=
  let is_invalid_face :=
    map (fun g => (fst g, _test_invalid (snd g)))
        (groupby face (edge_df self)) in
  f <- upcast_face self is_invalid_face ;;
  invalid_edges <- no_nan f ;;
  if has_cell self
  then
    let is_invalid_cell :=
      map (fun g => (fst g, negb (_is_closed_cell (snd g))))
          (groupby cell (edge_df self)) in
    c <- upcast_cell self is_invalid_cell ;;
    c <- no_nan c ;;
    Ok (map (fun fc => (fst (fst fc), orb (snd (fst fc)) (snd (snd fc))))
            (combine invalid_edges c))
  else Ok invalid_edges.



(** ** [copy] *)

(** [self.datasets], with [df.copy()] of each table. *)
Definition datasets_of (self : Epithelium) : list (string * DataFrame) :=
  [("vert", VertDF (vert_df self));
   ("edge", EdgeDF (edge_df self) (has_opposite self));
   ("face", FaceDF (face_df self))]%string
  ++ match cell_df self with
     | Some cells => [("cell"%string, CellDF cells)]
     | None => []
     end.

Section Copy.
Variable set_data_columns :
  list (string * DataFrame) -> result (list (string * DataFrame)).
Variables fadd fsub : float -> float -> float.

(** [copy]: a new epithelium from the copied datasets, built with
    [coords=None]. *)
Definition copy (self : Epithelium) : result (Epithelium * list string) :=
  init set_data_columns fadd fsub (identifier self ++ "_copy")%string
       (datasets_of self) None.
End Copy.

(** ** [triangular_mesh] *)

Section Mesh.
(** [face_df[c]], the position of the face centre: a column of the face
    table that the record of its rows does not list. *)
Variable face_col : coord -> face_row -> float.

(** The vertices (face centres first, then junction vertices), the
    triangles, one per half-edge, and the mask of the face centres. *)
Definition triangular_mesh (self : Epithelium) (coords : list coord)
  : list (list float) * list (list Z) * list bool :=
  let Nf := length (face_df self) in
  let Nv := length (vert_df self) in
  let vertices :=
    map (fun f => map (fun c => face_col c f) coords) (values (face_df self))
    ++ map (fun v => map (fun c => vert_col c v) coords)
           (values (vert_df self)) in
  (* triangles[:, :2] += self.Nf *)
  let triangles :=
    map (fun r => [srce r + Z.of_nat Nf; trgt r + Z.of_nat Nf; face r])
        (values (edge_df self)) in
  let face_mask := map (fun i => i <? Z.of_nat Nf) (arange (Nf + Nv)) in
  (vertices, triangles, face_mask).
End Mesh.

(** ** [sort_edges_eastwest] *)

Section EastWest.
Variable east_angle : float -> float -> bool.

(** [self.srtd_edges] is an attribute that [get_extra_indices] sets; the
    branch without it is not reached. *)
Definition sort_edges_eastwest (self : Epithelium)
  : result (Epithelium * list string) :=
  self <- get_extra_indices east_angle self ;;
  srtd <- match extra self with
          | Some ex => Ok (srtd_edges ex)
          | None => Raise KeyError
          end ;;
  edges <- loc_rows (edge_df self) srtd ;;
  let self := with_edge_df edges self in
  self <- reset_index self ;;
  st <- reset_topo self ;;
  self <- get_extra_indices east_angle (fst st) ;;
  Ok (self, snd st).
End EastWest.

(** ** The table invariants *)

Fixpoint nodupb (l : list Z) : bool :=
  match l with
  | [] => true
  | a :: l' => negb (mem a l') && nodupb l'
  end.

(** Every key is the label of a row. *)
Definition refs_ok (keys idx : list Z) : bool :=
  forallb (fun k => mem k idx) keys.

(** Labels are unique in each table and every foreign key of a half-edge
    names a row of the table it points to. *)
Definition well_formed (self : Epithelium) : bool :=
  nodupb (index (vert_df self))
  && nodupb (index (edge_df self))
  && nodupb (index (face_df self))
  && refs_ok (map srce (values (edge_df self))) (index (vert_df self))
  && refs_ok (map trgt (values (edge_df self))) (index (vert_df self))
  && refs_ok (map face (values (edge_df self))) (index (face_df self))
  && match cell_df self with
     | Some cells =>
         nodupb (index cells)
         && refs_ok (map cell (values (edge_df self))) (index cells)
     | None => true
     end.

(** ** Notions used in the statements *)

(** [r] runs from the target of [e] back to its source. *)
Definition reversed (e r : Z * edge_row) : Prop :=
  srce (snd r) = trgt (snd e) /\ trgt (snd r) = srce (snd e).

(** Stated from the spec's words: the multisets of the values of [a] and of
    [b] are equal. *)
Definition same_multiset (a b : list Z) : Prop :=
  forall v, count v a = count v b.

(** The value at label [k], with a default for a label that no row
    carries. *)
Definition lookup {A} (d : A) (df : table A) (k : Z) : A :=
  match loc1 Z.eqb df k with
  | Some a => a
  | None => d
  end.

(** A half-edge whose foreign keys are replaced by the positions of the
    rows they name. *)
Definition renumber_keys (self : Epithelium) (r : edge_row) : edge_row :=
  mk_edge (lookup 0 (new_idx (vert_df self)) (srce r))
          (lookup 0 (new_idx (vert_df self)) (trgt r))
          (lookup 0 (new_idx (face_df self)) (face r))
          (match cell_df self with
           | Some cells => lookup 0 (new_idx cells) (cell r)
           | None => cell r
           end)
          (dx r) (dy r) (opposite r).

(** Label [k] of the table [old] stands at position [k'] there, and [k']
    is the label at that position of the table [new]. *)
Definition renumbered_key {A B} (old : table A) (new : table B) (k k' : Z)
  : Prop :=
  exists n, nth_error (index old) n = Some k /\ k' = Z.of_nat n /\
            nth_error (index new) n = Some k'.

(** Key [k] of the table [old] and key [k'] of the table [new] name the
    same row, at the same position, and [k'] is that position. *)
Definition same_row {A} (old new : table A) (k k' : Z) : Prop :=
  exists n a,
    nth_error old n = Some (k, a) /\ nth_error new n = Some (k', a) /\
    k' = Z.of_nat n /\ 0 <= k' < Z.of_nat (length new).

(** The entry of a half-edge in the column that one turn of the loop of
    [cut_out] computes. *)
Definition edge_outside (self : Epithelium) (c : coord)
           (bounds : float * float) (r : edge_row) : bool :=
  let out_vert_ :=
    map (fun v => (fst v, outside c bounds (snd v))) (vert_df self) in
  lookup false out_vert_ (srce r) || lookup false out_vert_ (trgt r).

(** [c] is the top-level element (the cell when cells are modelled, else
    the face) of a half-edge whose label is in [edge_out]. *)
Definition selected_owner (self : Epithelium) (edge_out : list Z) (c : Z)
  : Prop :=
  exists l r, In l edge_out /\ In (l, r) (edge_df self) /\
              edge_col (top_level self) r = c.

(** Every half-edge that has an opposite is the opposite of the half-edge
    its opposite column names. *)
Definition opposite_paired (edges : table edge_row) : bool :=
  forallb (fun r =>
             if is_dble r
             then match loc1 Z.eqb edges (opposite (snd r)) with
                  | Some r' => (opposite r' =? fst r) && (0 <=? opposite r')
                  | None => false
                  end
             else true) edges.

(** Of a half-edge and its opposite, one at least passes the east test. *)
Definition one_is_east (east_angle : float -> float -> bool)
           (edges : table edge_row) : bool :=
  forallb (fun r =>
             if is_dble r
             then match loc1 Z.eqb edges (opposite (snd r)) with
                  | Some r' =>
                      is_east east_angle r
                      || is_east east_angle (opposite (snd r), r')
                  | None => true
                  end
             else true) edges.

(** The east test on exact angles: [arctan2(dy, dx)] lies in [0, pi) when
    [dy > 0], or [dy = 0] and [dx >= 0]; NaN fails every comparison, and
    the angle of [(dy, -inf)] is pi.  The rounding of angles close to pi and
    the sign of zero are not modelled; the statements on
    [get_extra_indices] hold for every east test. *)
Definition east_angle_exact (dy dx : float) : bool :=
  match dy, dx with
  | NaN, _ | _, NaN => false
  | Fin _, NInf => false
  | _, _ => flt (Fin 0) dy || (negb (flt dy (Fin 0)) && fle (Fin 0) dx)
  end.

(** Sum and difference without rounding, for the examples; the statements
    on [set_bbox] hold for every addition and subtraction that meet their
    hypotheses. *)
Definition fadd_exact (a b : float) : float :=
  match a, b with
  | NaN, _ | _, NaN => NaN
  | PInf, NInf | NInf, PInf => NaN
  | PInf, _ | _, PInf => PInf
  | NInf, _ | _, NInf => NInf
  | Fin p, Fin q => Fin (p + q)
  end.

Definition fsub_exact (a b : float) : float :=
  fadd_exact a match b with
               | NaN => NaN
               | NInf => PInf
               | PInf => NInf
               | Fin q => Fin (- q)
               end.

(** The selection of [update_num_sides] finds a label: the face table is
    empty, or a half-edge names one of its faces. *)
Definition sides_found (self : Epithelium) : bool :=
  match face_df self with
  | [] => true
  | _ :: _ =>
      existsb (fun l => mem l (map face (values (edge_df self))))
              (index (face_df self))
  end.

(** Every face owns a half-edge. *)
Definition faces_owned (self : Epithelium) : bool :=
  refs_ok (index (face_df self)) (map face (values (edge_df self))).

(** The side counts that [update_num_sides] stores when it returns: for
    each face the number of half-edges that name it, NaN when there is
    none. *)
Definition counted_sides (self : Epithelium) : Epithelium :=
  let counts := value_counts (map face (values (edge_df self))) in
  with_face_df
    (map (fun r => (fst r, set_num_sides (loc1 Z.eqb counts (fst r)) (snd r)))
         (face_df self))
    self.

(** The state of [reset_topo] before its last statement, the one on the
    opposite column: side counts, composite index and face counts are
    recomputed. *)
Definition refresh_counts (self : Epithelium) : Epithelium :=
  let self := update_mindex (counted_sides self) in
  match cell_df self with
  | Some cells => update_num_faces cells self
  | None => self
  end.

(** What a half-edge is, apart from the derived opposite column. *)
Definition edge_keys (r : Z * edge_row)
  : Z * (Z * Z * Z * Z) * (float * float) :=
  (fst r, (srce (snd r), trgt (snd r), face (snd r), cell (snd r)),
   (dx (snd r), dy (snd r))).

(** The two states differ at most in what [reset_topo] derives: the
    [num_sides], [num_faces] and [opposite] columns and the composite
    index. *)
Definition same_keys (a b : Epithelium) : Prop :=
  identifier a = identifier b /\ coords a = coords b /\
  vert_df a = vert_df b /\
  map edge_keys (edge_df a) = map edge_keys (edge_df b) /\
  has_opposite a = has_opposite b /\
  map (fun r => (fst r, is_alive (snd r))) (face_df a)
  = map (fun r => (fst r, is_alive (snd r))) (face_df b) /\
  option_map index (cell_df a) = option_map index (cell_df b) /\
  bbox a = bbox b /\ extra a = extra b.

(** The box [inner] lies within the box [outer], bound by bound. *)
Definition box_within (inner outer : float * float) : bool :=
  fle (fst outer) (fst inner) && fle (snd inner) (snd outer).

(** ** Sample meshes *)

Definition sample_edge (s t f : Z) : edge_row :=
  mk_edge s t f 0 (Fin 0) (Fin 0) (-1).

Definition sample_vert (a b : Q) : vert_row :=
  mk_vert (Fin a) (Fin b) (Fin 0) true.

Definition sample_face : face_row := mk_face None true.

Definition sample_eptm (verts : table vert_row) (edges : table edge_row)
           (faces : table face_row) : Epithelium :=
  mk_eptm "sample" [cx; cy; cz] verts edges true faces None [] None None.

(** Two triangles 0-1-2 and 2-1-3 sharing the edge between 1 and 2. *)
Definition two_triangles : Epithelium :=
  sample_eptm
    [(0, sample_vert 0 0); (1, sample_vert 1 0);
     (2, sample_vert 0 1); (3, sample_vert 1 1)]
    [(0, sample_edge 0 1 0); (1, sample_edge 1 2 0); (2, sample_edge 2 0 0);
     (3, sample_edge 2 1 1); (4, sample_edge 1 3 1); (5, sample_edge 3 2 1)]
    [(0, sample_face); (1, sample_face)].

(** The two triangles in an edge table without an opposite column. *)
Definition two_triangles_plain : Epithelium :=
  mk_eptm "sample" [cx; cy; cz]
    (vert_df two_triangles) (edge_df two_triangles) false
    (face_df two_triangles) None [] None None.

(** One face with the directed edge from 0 to 1 twice, and its reverse. *)
Definition duplicated_edge_face : Epithelium :=
  sample_eptm
    [(0, sample_vert 0 0); (1, sample_vert 1 0)]
    [(0, sample_edge 0 1 0); (1, sample_edge 0 1 0); (2, sample_edge 1 0 0)]
    [(0, sample_face)].

(** One face whose half-edges are the open path 0 -> 1 -> 2 -> 3. *)
Definition open_path_face : Epithelium :=
  sample_eptm
    [(0, sample_vert 0 0); (1, sample_vert 1 0);
     (2, sample_vert 1 1); (3, sample_vert 0 1)]
    [(0, sample_edge 0 1 0); (1, sample_edge 1 2 0); (2, sample_edge 2 3 0)]
    [(0, sample_face)].

(** Labels 10, 20, 30 and 7: one triangle in tables that are not dense. *)
Definition sparse_triangle : Epithelium :=
  sample_eptm
    [(10, sample_vert 0 0); (20, sample_vert 1 0); (30, sample_vert 0 1)]
    [(5, sample_edge 10 20 7); (3, sample_edge 20 30 7);
     (9, sample_edge 30 10 7)]
    [(7, sample_face)].

Definition geom_edge (s t f : Z) (ex ey : float) (opp : Z) : edge_row :=
  mk_edge s t f 0 ex ey opp.

(** The two triangles with their edge vectors and opposite column. *)
Definition two_triangles_geom : Epithelium :=
  sample_eptm
    [(0, sample_vert 0 0); (1, sample_vert 1 0);
     (2, sample_vert 0 1); (3, sample_vert 1 1)]
    [(0, geom_edge 0 1 0 (Fin 1) (Fin 0) (-1));
     (1, geom_edge 1 2 0 (Fin (-1)) (Fin 1) 3);
     (2, geom_edge 2 0 0 (Fin 0) (Fin (-1)) (-1));
     (3, geom_edge 2 1 1 (Fin 1) (Fin (-1)) 1);
     (4, geom_edge 1 3 1 (Fin 0) (Fin 1) (-1));
     (5, geom_edge 3 2 1 (Fin (-1)) (Fin 0) (-1))]
    [(0, sample_face); (1, sample_face)].

(** One triangle in face 0; face 1 owns no half-edge. *)
Definition lonely_face : Epithelium :=
  sample_eptm
    [(0, sample_vert 0 0); (1, sample_vert 1 0); (2, sample_vert 0 1)]
    [(0, sample_edge 0 1 0); (1, sample_edge 1 2 0); (2, sample_edge 2 0 0)]
    [(0, sample_face); (1, sample_face)].

(** Two triangles back to back on the vertices 0, 1 and 2, with their
    edge vectors: every half-edge has its opposite. *)
Definition pillow_geom : Epithelium :=
  sample_eptm
    [(0, sample_vert 0 0); (1, sample_vert 1 0); (2, sample_vert 0 1)]
    [(0, geom_edge 0 1 0 (Fin 1) (Fin 0) 3);
     (1, geom_edge 1 2 0 (Fin (-1)) (Fin 1) 4);
     (2, geom_edge 2 0 0 (Fin 0) (Fin (-1)) 5);
     (3, geom_edge 1 0 1 (Fin (-1)) (Fin 0) 0);
     (4, geom_edge 2 1 1 (Fin 1) (Fin (-1)) 1);
     (5, geom_edge 0 2 1 (Fin 0) (Fin 1) 2)]
    [(0, sample_face); (1, sample_face)].

(** Two pairs of opposite half-edges.  Vertices 0 and 1 differ in [z]
    only, so both half-edges between them have [dx = dy = 0]; the position
    of vertex 3 is NaN, and so are the vectors of the half-edges between 2
    and 3. *)
Definition degenerate_pairs : Epithelium :=
  sample_eptm
    [(0, mk_vert (Fin 0) (Fin 0) (Fin 0) true);
     (1, mk_vert (Fin 0) (Fin 0) (Fin 1) true);
     (2, mk_vert (Fin 1) (Fin 0) (Fin 0) true);
     (3, mk_vert NaN NaN NaN true)]
    [(0, geom_edge 0 1 0 (Fin 0) (Fin 0) 1);
     (1, geom_edge 1 0 1 (Fin 0) (Fin 0) 0);
     (2, geom_edge 2 3 0 NaN NaN 3);
     (3, geom_edge 3 2 1 NaN NaN 2)]
    [(0, sample_face); (1, sample_face)].

(** One face whose half-edges are the square loop 0 -> 1 -> 2 -> 3 -> 0. *)
Definition square_face : table edge_row :=
  [(0, sample_edge 0 1 0); (1, sample_edge 1 2 0);
   (2, sample_edge 2 3 0); (3, sample_edge 3 0 0)].

(** Three two-sided faces in two cells: faces 0 and 1 in cell 0, face 2
    in cell 1; cell 2 owns no half-edge. *)
Definition two_cells : Epithelium :=
  mk_eptm "cells" [cx; cy; cz]
    [(0, sample_vert 0 0); (1, sample_vert 1 0); (2, sample_vert 0 1)]
    [(0, mk_edge 0 1 0 0 (Fin 0) (Fin 0) (-1));
     (1, mk_edge 1 0 0 0 (Fin 0) (Fin 0) (-1));
     (2, mk_edge 1 2 1 0 (Fin 0) (Fin 0) (-1));
     (3, mk_edge 2 1 1 0 (Fin 0) (Fin 0) (-1));
     (4, mk_edge 0 2 2 1 (Fin 0) (Fin 0) (-1));
     (5, mk_edge 2 0 2 1 (Fin 0) (Fin 0) (-1))]
    false
    [(0, sample_face); (1, sample_face); (2, sample_face)]
    (Some [(0, mk_cell None); (1, mk_cell None); (2, mk_cell None)])
    [] None None.

(** * Properties *)

(** ** Generic facts on tables *)

Lemma pair_eqb_eq a b : pair_eqb a b = true <-> a = b.
Proof.
  unfold pair_eqb. destruct a as [a1 a2], b as [b1 b2]; simpl.
  rewrite andb_true_iff, !Z.eqb_eq. split.
  - intros [-> ->]; reflexivity.
  - intros H; inversion H; auto.
Qed.

Section KeyedFacts.
Context {K A : Type} (eqb : K -> K -> bool).
Hypothesis eqb_eq : forall a b, eqb a b = true <-> a = b.

Lemma rows_at_none (df : list (K * A)) k :
  ~ In k (map fst df) -> rows_at eqb df k = [].
Proof.
  unfold rows_at. induction df as [|r df IH]; simpl; intros H; auto.
  destruct (eqb (fst r) k) eqn:E.
  - apply eqb_eq in E. tauto.
  - apply IH. tauto.
Qed.

Lemma rows_at_unique (df : list (K * A)) r :
  NoDup (map fst df) -> In r df -> rows_at eqb df (fst r) = [r].
Proof.
  unfold rows_at. induction df as [|r0 df IH]; simpl; intros ND Hin; [tauto|].
  inversion ND as [|? ? Hn ND']; subst.
  destruct Hin as [->|Hin].
  - replace (eqb (fst r) (fst r)) with true
      by (symmetry; apply eqb_eq; reflexivity).
    f_equal. apply rows_at_none; assumption.
  - destruct (eqb (fst r0) (fst r)) eqn:E.
    + apply eqb_eq in E. exfalso. apply Hn. rewrite E.
      apply in_map; assumption.
    + apply IH; assumption.
Qed.

Lemma rows_at_In (df : list (K * A)) k r :
  In r (rows_at eqb df k) <-> In r df /\ fst r = k.
Proof.
  unfold rows_at. rewrite filter_In, eqb_eq. reflexivity.
Qed.

(** With unique labels, looking up a key finds its row or nothing. *)
Lemma rows_at_cases (df : list (K * A)) k :
  NoDup (map fst df) ->
  (rows_at eqb df k = [] /\ ~ In k (map fst df)) \/
  (exists a, rows_at eqb df k = [(k, a)] /\ In (k, a) df).
Proof.
  intros ND.
  destruct (rows_at eqb df k) as [|r l] eqn:E.
  - left. split; auto. intros Hin. apply in_map_iff in Hin.
    destruct Hin as [r [Hk Hr]].
    assert (In r (rows_at eqb df k)) by (apply rows_at_In; auto).
    rewrite E in H. destruct H.
  - right. assert (Hr : In r df /\ fst r = k).
    { apply rows_at_In. rewrite E. left; reflexivity. }
    destruct Hr as [Hr Hk]. destruct r as [k' a]; simpl in Hk; subst k'.
    exists a. split; auto.
    rewrite <- E. apply (rows_at_unique df (k, a)); assumption.
Qed.

(** With unique labels [loc] is a reindexing: one entry per key. *)
Lemma loc_unique (df : list (K * A)) keys :
  NoDup (map fst df) ->
  loc eqb df keys = map (fun k => (k, loc1 eqb df k)) keys.
Proof.
  intros ND. unfold loc.
  rewrite (flat_map_ext _ (fun k => [(k, loc1 eqb df k)])).
  - induction keys as [|k keys IH]; simpl; [|rewrite IH]; reflexivity.
  - intros k. unfold loc1.
    destruct (rows_at_cases df k ND) as [[E _]|[a [E _]]];
      rewrite E; reflexivity.
Qed.
End KeyedFacts.

Lemma NoDup_map_fst_inj {K A} (l : list (K * A)) k a b :
  NoDup (map fst l) -> In (k, a) l -> In (k, b) l -> a = b.
Proof.
  induction l as [|[k0 a0] l IH]; simpl; intros ND Ha Hb; [tauto|].
  inversion ND as [|? ? Hn ND']; subst.
  destruct Ha as [Ha|Ha], Hb as [Hb|Hb].
  - congruence.
  - inversion Ha; subst. exfalso. apply Hn.
    change k with (fst (k, b)). apply in_map; assumption.
  - inversion Hb; subst. exfalso. apply Hn.
    change k with (fst (k, a)). apply in_map; assumption.
  - eauto.
Qed.

(** ** Opposite half-edges *)

(** The opposite recorded for one half-edge when no pair is duplicated. *)
Lemma get_opposite_unique (edge_df : table edge_row) :
  NoDup (map fst (st_indexed edge_df)) ->
  get_opposite edge_df =
  map (fun e => match loc1 pair_eqb (st_indexed edge_df)
                            (trgt (snd e), srce (snd e)) with
                | Some l => l
                | None => -1
                end) edge_df.
Proof.
  intros ND. unfold get_opposite, values, swaplevel.
  rewrite (loc_unique pair_eqb pair_eqb_eq _ _ ND).
  unfold st_indexed. rewrite !map_map. reflexivity.
Qed.

Lemma loc1_st_found (edge_df : table edge_row) e r :
  NoDup (map fst (st_indexed edge_df)) ->
  In r edge_df -> reversed e r ->
  loc1 pair_eqb (st_indexed edge_df) (trgt (snd e), srce (snd e))
  = Some (fst r).
Proof.
  intros ND Hr [Hs Ht]. unfold loc1.
  assert (Hin : In ((trgt (snd e), srce (snd e)), fst r) (st_indexed edge_df)).
  { unfold st_indexed. apply in_map_iff. exists r. split; auto.
    rewrite Hs, Ht. reflexivity. }
  destruct (rows_at_cases pair_eqb pair_eqb_eq (st_indexed edge_df)
              (trgt (snd e), srce (snd e)) ND) as [[_ Hno]|[a [E Ha]]].
  - exfalso. apply Hno.
    change (trgt (snd e), srce (snd e))
      with (fst ((trgt (snd e), srce (snd e)), fst r)).
    apply in_map; assumption.
  - rewrite E. simpl. f_equal.
    eapply NoDup_map_fst_inj; eassumption.
Qed.

Lemma loc1_st_inv (edge_df : table edge_row) e l :
  loc1 pair_eqb (st_indexed edge_df) (trgt (snd e), srce (snd e)) = Some l ->
  exists r, In r edge_df /\ fst r = l /\ reversed e r.
Proof.
  unfold loc1. intros H.
  destruct (rows_at pair_eqb (st_indexed edge_df)
              (trgt (snd e), srce (snd e))) as [|p rest] eqn:E;
    [discriminate|].
  inversion H; subst; clear H.
  assert (Hp : In p (rows_at pair_eqb (st_indexed edge_df)
                       (trgt (snd e), srce (snd e))))
    by (rewrite E; left; reflexivity).
  apply (rows_at_In pair_eqb pair_eqb_eq) in Hp. destruct Hp as [Hp Hk].
  unfold st_indexed in Hp. apply in_map_iff in Hp.
  destruct Hp as [r [Hr Hin]]. subst p. simpl in *.
  exists r. repeat split; auto; inversion Hk; reflexivity.
Qed.

(** C4.  In an edge table where no two half-edges share their (source,
    target) pair (and labels are unique), the opposite computed for a
    half-edge [e] is the label of the half-edge running from the target of
    [e] to its source, and -1 when there is none; and when the opposite [o]
    of [e] is not -1, the half-edge labelled [o] has [e] as its opposite. *)
Theorem get_opposite_symmetric (edge_df : table edge_row) :
  NoDup (map fst (st_indexed edge_df)) ->
  NoDup (index edge_df) ->
  forall i e, nth_error edge_df i = Some e ->
  exists o,
    nth_error (get_opposite edge_df) i = Some o /\
    (forall r, In r edge_df -> reversed e r -> o = fst r) /\
    ((forall r, In r edge_df -> ~ reversed e r) -> o = -1) /\
    (o <> -1 ->
     (exists r, In r edge_df /\ fst r = o /\ reversed e r) /\
     forall j r, nth_error edge_df j = Some r -> fst r = o ->
                 nth_error (get_opposite edge_df) j = Some (fst e)).
Proof.
  intros ND NDl i e Hi.
  rewrite (get_opposite_unique edge_df ND).
  rewrite nth_error_map, Hi. simpl.
  eexists. split; [reflexivity|].
  assert (Hin : In e edge_df) by (eapply nth_error_In; eassumption).
  split; [|split].
  - intros r Hr Hrev. rewrite (loc1_st_found edge_df e r ND Hr Hrev).
    reflexivity.
  - intros Hnone.
    destruct (loc1 pair_eqb (st_indexed edge_df)
                (trgt (snd e), srce (snd e))) as [l|] eqn:E; auto.
    destruct (loc1_st_inv edge_df e l E) as [r [Hr [_ Hrev]]].
    exfalso. exact (Hnone r Hr Hrev).
  - intros Hne.
    destruct (loc1 pair_eqb (st_indexed edge_df)
                (trgt (snd e), srce (snd e))) as [l|] eqn:E;
      [|exfalso; apply Hne; reflexivity].
    destruct (loc1_st_inv edge_df e l E) as [r [Hr [Hl Hrev]]].
    split; [exists r; auto|].
    intros j r' Hj Hl'.
    assert (Hr' : In r' edge_df) by (eapply nth_error_In; eassumption).
    assert (r' = r).
    { destruct r as [lr rr], r' as [lr' rr']. simpl in *. subst.
      f_equal. eapply (NoDup_map_fst_inj edge_df); eauto. }
    subst r'. rewrite nth_error_map, Hj. simpl.
    rewrite (loc1_st_found edge_df r e ND Hin); [reflexivity|].
    destruct Hrev as [Hs Ht]. split; auto.
Qed.

Lemma get_opposite_symmetric_witness :
  nth_error (get_opposite (edge_df two_triangles)) 1 = Some 3 /\
  nth_error (get_opposite (edge_df two_triangles)) 3 = Some 1.
Proof.
  assert (ND : NoDup (map fst (st_indexed (edge_df two_triangles)))).
  { simpl. repeat constructor; simpl; intuition discriminate. }
  assert (NDl : NoDup (index (edge_df two_triangles))).
  { simpl. repeat constructor; simpl; intuition discriminate. }
  destruct (get_opposite_symmetric (edge_df two_triangles) ND NDl 1%nat
              (1, sample_edge 1 2 0) eq_refl) as [o [Ho [Hfound [_ Hsym]]]].
  assert (E : o = 3).
  { apply (Hfound (3, sample_edge 2 1 1)).
    - simpl. tauto.
    - split; reflexivity. }
  subst o. split; [exact Ho|].
  apply (proj2 (Hsym ltac:(discriminate)) 3%nat (3, sample_edge 2 1 1));
    reflexivity.
Defined.

(** ** Membership facts *)

Lemma mem_In k l : mem k l = true <-> In k l.
Proof.
  unfold mem. rewrite existsb_exists. split.
  - intros [a [Ha E]]. apply Z.eqb_eq in E. subst; assumption.
  - intros H. exists k. split; auto. apply Z.eqb_refl.
Qed.

Lemma mem_false k l : mem k l = false <-> ~ In k l.
Proof.
  rewrite <- mem_In. destruct (mem k l); split; congruence.
Qed.

Lemma set_eqb_spec a b :
  set_eqb a b = true <-> (forall v, In v a <-> In v b).
Proof.
  unfold set_eqb. rewrite andb_true_iff, !forallb_forall. split.
  - intros [Hab Hba] v. split; intros H.
    + apply mem_In, Hab, H.
    + apply mem_In, Hba, H.
  - intros H. split; intros v Hv; apply mem_In, H, Hv.
Qed.

Lemma count_pos v l : 0 < count v l <-> In v l.
Proof.
  unfold count. induction l as [|a l IH]; simpl; [split; [lia|tauto]|].
  destruct (Z.eqb_spec v a) as [->|Hne]; simpl.
  - split; [auto|lia].
  - rewrite IH. split; [auto|]. intros [H|H]; [congruence|assumption].
Qed.

(** ** Closedness of a face *)

(** C5 (as the code has it).  The weak test reports a face closed exactly
    when the set of its source vertices equals the set of its target
    vertices; [_test_invalid] is its negation; equal multisets are enough
    for the face to be reported closed, but they are not needed. *)
Theorem test_valid_sets (face_edges : table edge_row) :
  let s1 := map srce (values face_edges) in
  let s2 := map trgt (values face_edges) in
  (_test_valid face_edges = true <-> (forall v, In v s1 <-> In v s2)) /\
  _test_invalid face_edges = negb (_test_valid face_edges) /\
  (same_multiset s1 s2 -> _test_valid face_edges = true).
Proof.
  cbv zeta. unfold _test_valid, _test_invalid.
  split; [apply set_eqb_spec|]. split; [reflexivity|].
  intros Hm. apply set_eqb_spec. intros v.
  rewrite <- !count_pos, (Hm v). reflexivity.
Qed.

Lemma test_valid_sets_witness : _test_valid square_face = true.
Proof.
  apply (proj2 (proj2 (test_valid_sets square_face))).
  intros v. unfold count. simpl.
  destruct (v =? 0), (v =? 1), (v =? 2), (v =? 3); reflexivity.
Defined.

(** C5 as stated fails: the face with the directed edge from 0 to 1 twice
    and its reverse once is reported closed, though 0 is a source twice and
    a target once. *)
Lemma test_valid_not_multiset :
  let f := edge_df duplicated_edge_face in
  ~ (_test_valid f = true <->
     same_multiset (map srce (values f)) (map trgt (values f))).
Proof.
  cbv zeta. intros [H _].
  specialize (H eq_refl 0). vm_compute in H. discriminate.
Qed.

(** ** Construction *)

Lemma issubset_false keys s :
  (exists k, In k keys /\ ~ In k s) -> issubset keys s = false.
Proof.
  intros [k [Hk Hn]]. unfold issubset.
  destruct (forallb (fun k0 => existsb (String.eqb k0) s) keys) eqn:E; auto.
  rewrite forallb_forall in E. specialize (E k Hk).
  apply existsb_exists in E. destruct E as [k' [Hk' E]].
  apply String.eqb_eq in E. subst k'. contradiction.
Qed.

(** C7 (as the code has it).  When the datasets mapping has a key outside
    edge, vert, face and cell, the constructor raises a [ValueError] before
    it reads any table: no instance comes out. *)
Theorem init_unknown_table
        (set_data_columns :
           list (string * DataFrame) -> result (list (string * DataFrame)))
        (fadd fsub : float -> float -> float)
        (identifier : string) (datasets : list (string * DataFrame))
        (coords : option (list coord)) :
  (exists k, In k (map fst datasets) /\ ~ In k frame_types) ->
  init set_data_columns fadd fsub identifier datasets coords
  = Raise ValueError.
Proof.
  intros H. unfold init. rewrite (issubset_false _ _ H). reflexivity.
Qed.

Lemma init_unknown_table_witness :
  init (fun d => Ok d) (fun a _ => a) (fun a _ => a) "sheet"
       [("vert", VertDF []); ("tissue", FaceDF [])]%string None
  = Raise ValueError.
Proof.
  apply init_unknown_table. exists "tissue"%string. split.
  - simpl. auto.
  - unfold frame_types. simpl. intuition discriminate.
Defined.

(** C7 as stated fails on the class of the exception: the constructor
    raises [ValueError], not a ConfigurationError. *)
Lemma unknown_table_is_value_error :
  let made := init (fun d => Ok d) (fun a _ => a) (fun a _ => a) "sheet"
                   [("vert", VertDF []); ("cells", CellDF [])]%string None in
  made = Raise ValueError /\ made <> Raise ConfigurationError.
Proof.
  cbv zeta. split; [reflexivity|]. vm_compute. discriminate.
Qed.

(** ** Polygons of a face *)

(** C8 fails on the code: the half-edges of the only face of
    [open_path_face] are the open path 0 -> 1 -> 2 -> 3, whose last target
    3 is not the first source 0, and the walk of [_ordered_edges] never
    meets a target that is no source: the face gets the vertex list 0, 1, 2
    and a polygon, not the undefined value. *)
Theorem open_path_gets_polygon :
  let f := edge_df open_path_face in
  map trgt (values f) = [1; 2; 3] /\
  map srce (values f) = [0; 1; 2] /\
  _ordered_edges f = Ok [(0, 1, 0); (1, 2, 0); (2, 3, 0)] /\
  ordered_vert_idxs f = Ok (Some [0; 1; 2]) /\
  face_polygons open_path_face [cx; cy]
  = Ok [(0, [[Fin 0; Fin 0]; [Fin 1; Fin 0]; [Fin 1; Fin 1]])].
Proof.
  cbv zeta. repeat split; reflexivity.
Qed.

(** The walk does fail when a target met before the last step is no
    source: here 1, the target of the first half-edge. *)
Lemma dead_end_is_undefined :
  let f := [(0, sample_edge 0 1 0); (1, sample_edge 2 0 0)] in
  _ordered_edges f = Raise IndexError /\
  ordered_vert_idxs f = Ok None.
Proof.
  cbv zeta. split; reflexivity.
Qed.

(** ** Lookups in tables with unique labels *)

Lemma nodupb_NoDup l : nodupb l = true <-> NoDup l.
Proof.
  induction l as [|a l IH]; simpl.
  - split; [constructor|reflexivity].
  - rewrite andb_true_iff, negb_true_iff, mem_false, IH. split.
    + intros [H1 H2]. constructor; assumption.
    + intros H. inversion H; auto.
Qed.

Lemma refs_ok_spec keys idx :
  refs_ok keys idx = true <-> (forall k, In k keys -> In k idx).
Proof.
  unfold refs_ok. rewrite forallb_forall. split; intros H k Hk.
  - apply mem_In, H, Hk.
  - apply mem_In, H, Hk.
Qed.

Lemma loc1_In {A} (df : table A) k a :
  NoDup (index df) -> In (k, a) df -> loc1 Z.eqb df k = Some a.
Proof.
  intros ND Hin. unfold loc1.
  pose proof (rows_at_unique Z.eqb Z.eqb_eq df (k, a) ND Hin) as E.
  simpl in E. rewrite E. reflexivity.
Qed.

Lemma loc1_Some {A} (df : table A) k a :
  loc1 Z.eqb df k = Some a -> In (k, a) df.
Proof.
  unfold loc1. destruct (rows_at Z.eqb df k) as [|r l] eqn:E; [discriminate|].
  intros H. inversion H; subst; clear H.
  assert (Hr : In r (rows_at Z.eqb df k)) by (rewrite E; left; reflexivity).
  apply (rows_at_In Z.eqb Z.eqb_eq) in Hr. destruct Hr as [Hr Hk].
  destruct r; simpl in *; subst; assumption.
Qed.

Lemma loc1_present {A} (df : table A) k :
  In k (index df) -> exists a, loc1 Z.eqb df k = Some a.
Proof.
  intros Hin. unfold index in Hin. apply in_map_iff in Hin.
  destruct Hin as [r [Hk Hr]]. unfold loc1.
  destruct (rows_at Z.eqb df k) as [|r' l] eqn:E; [|eauto].
  assert (H : In r (rows_at Z.eqb df k))
    by (apply (rows_at_In Z.eqb Z.eqb_eq); auto).
  rewrite E in H. destruct H.
Qed.

Lemma lookup_In {A} (d : A) (df : table A) k a :
  NoDup (index df) -> In (k, a) df -> lookup d df k = a.
Proof.
  intros ND Hin. unfold lookup. rewrite (loc1_In df k a ND Hin). reflexivity.
Qed.

Lemma lookup_present {A} (d : A) (df : table A) k :
  In k (index df) -> loc1 Z.eqb df k = Some (lookup d df k).
Proof.
  intros Hin. unfold lookup.
  destruct (loc1_present df k Hin) as [a E]. rewrite E. reflexivity.
Qed.

Lemma no_nan_present {A B} (df : table A) (d : A) (idx : list B) keys :
  (forall k, In k keys -> In k (index df)) ->
  no_nan (combine idx (map (loc1 Z.eqb df) keys))
  = Ok (combine idx (map (lookup d df) keys)).
Proof.
  revert idx. induction keys as [|k keys IH]; intros idx Hin.
  - destruct idx; reflexivity.
  - destruct idx as [|i idx]; [reflexivity|]. simpl.
    rewrite (lookup_present d df k) by (apply Hin; left; reflexivity).
    rewrite IH by (intros k' Hk'; apply Hin; right; assumption).
    reflexivity.
Qed.

Lemma values_combine {A B} (l : list A) (l' : list B) :
  length l = length l' -> values (combine l l') = l'.
Proof.
  revert l'. induction l as [|a l IH]; intros [|b l'] H; simpl in *;
    try discriminate; auto.
  f_equal. apply IH. lia.
Qed.

Lemma index_combine {B} (l : list Z) (l' : list B) :
  length l = length l' -> index (combine l l') = l.
Proof.
  revert l'. induction l as [|a l IH]; intros [|b l'] H; simpl in *;
    try discriminate; auto.
  f_equal. apply IH. lia.
Qed.

Lemma length_index {A} (df : table A) : length (index df) = length df.
Proof. apply length_map. Qed.

Lemma length_values {K A} (df : list (K * A)) : length (values df) = length df.
Proof. apply length_map. Qed.

Lemma length_arange n : length (arange n) = n.
Proof. unfold arange. rewrite length_map, length_seq. reflexivity. Qed.

(** [loc_list] when every label is found. *)
Lemma loc_list_present {A} (df : table A) keys :
  (forall k, In k keys -> In k (index df)) ->
  loc_list df keys = Ok (loc Z.eqb df keys).
Proof.
  intros H. destruct keys as [|k keys]; [reflexivity|].
  unfold loc_list.
  replace (existsb (fun k0 => mem k0 (index df)) (k :: keys)) with true;
    [reflexivity|].
  symmetry. apply existsb_exists. exists k. split; [left; reflexivity|].
  apply mem_In, H. left. reflexivity.
Qed.

(** [_upcast] on keys that all name a row of a table with unique labels. *)
Lemma upcast_series {A} (self : Epithelium) (df : table A) keys :
  NoDup (index df) ->
  (forall k, In k keys -> In k (index df)) ->
  length keys = length (edge_df self) ->
  _upcast self keys df
  = Ok (combine (index (edge_df self)) (map (loc1 Z.eqb df) keys)).
Proof.
  intros ND Hin Hl. unfold _upcast.
  rewrite (loc_list_present df keys Hin). cbn [bind].
  rewrite (loc_unique Z.eqb Z.eqb_eq df keys ND).
  rewrite length_map, Hl, Nat.eqb_refl.
  unfold values. rewrite map_map. reflexivity.
Qed.

Lemma assign_map {A B} (set : B -> A -> A) (df : table A) (f : Z * A -> B) :
  assign set df (map f df)
  = Ok (map (fun r => (fst r, set (f r) (snd r))) df).
Proof.
  unfold assign. rewrite length_map, Nat.eqb_refl. f_equal.
  induction df as [|r df IH]; simpl; [reflexivity|]. rewrite IH. reflexivity.
Qed.

(** Storing an upcast column of keys that all name a row. *)
Lemma set_edge_column_series {B} (set : B -> edge_row -> edge_row)
      (self : Epithelium) (df : table B) (d : B) (key : edge_row -> Z) :
  (forall k, In k (map key (values (edge_df self))) -> In k (index df)) ->
  set_edge_column set self
    (combine (index (edge_df self))
             (map (loc1 Z.eqb df) (map key (values (edge_df self)))))
  = Ok (with_edge_df
          (map (fun r => (fst r, set (lookup d df (key (snd r))) (snd r)))
               (edge_df self))
          self).
Proof.
  intros Hin. unfold set_edge_column.
  rewrite (no_nan_present df d _ _ Hin). simpl.
  rewrite values_combine
    by (unfold index, values; rewrite !length_map; reflexivity).
  unfold values. rewrite !map_map.
  rewrite (assign_map set (edge_df self)
             (fun r => lookup d df (key (snd r)))).
  reflexivity.
Qed.

(** ** Renumbering *)

Lemma well_formed_spec self :
  well_formed self = true <->
  NoDup (index (vert_df self)) /\
  NoDup (index (edge_df self)) /\
  NoDup (index (face_df self)) /\
  (forall k, In k (map srce (values (edge_df self))) -> In k (index (vert_df self))) /\
  (forall k, In k (map trgt (values (edge_df self))) -> In k (index (vert_df self))) /\
  (forall k, In k (map face (values (edge_df self))) -> In k (index (face_df self))) /\
  match cell_df self with
  | Some cells =>
      NoDup (index cells) /\
      (forall k, In k (map cell (values (edge_df self))) -> In k (index cells))
  | None => True
  end.
Proof.
  unfold well_formed.
  rewrite !andb_true_iff, !nodupb_NoDup, !refs_ok_spec.
  destruct (cell_df self) as [cells|].
  - rewrite andb_true_iff, nodupb_NoDup, refs_ok_spec. tauto.
  - intuition.
Qed.

Lemma index_new_idx {A} (df : table A) : index (new_idx df) = index df.
Proof.
  unfold new_idx. apply index_combine.
  rewrite length_arange. apply length_index.
Qed.

Lemma upcast_step {A B} (self : Epithelium) (df : table B) (d : B)
      (key : edge_row -> Z) (set : B -> edge_row -> edge_row)
      (k : Epithelium -> result A) :
  NoDup (index df) ->
  (forall l, In l (map key (values (edge_df self))) -> In l (index df)) ->
  (s <- _upcast self (map key (values (edge_df self))) df ;;
   self' <- set_edge_column set self s ;; k self')
  = k (with_edge_df
         (map (fun r => (fst r, set (lookup d df (key (snd r))) (snd r)))
              (edge_df self))
         self).
Proof.
  intros ND Hin.
  rewrite upcast_series; auto.
  2:{ unfold values. rewrite !length_map. reflexivity. }
  cbn [bind].
  rewrite (set_edge_column_series set self df d key Hin). reflexivity.
Qed.


Lemma keys_after_set (key : edge_row -> Z) (f : Z * edge_row -> edge_row)
      (edges : table edge_row) :
  (forall r, key (f r) = key (snd r)) ->
  map key (values (map (fun r => (fst r, f r)) edges))
  = map key (values edges).
Proof.
  intros H. unfold values. rewrite !map_map. apply map_ext. intros r.
  simpl. apply H.
Qed.

Lemma has_cell_spec self :
  has_cell self = match cell_df self with Some _ => true | None => false end.
Proof.
  unfold has_cell, data_names. destruct (cell_df self); reflexivity.
Qed.

Lemma eptm_ext (a b : Epithelium) :
  identifier a = identifier b -> coords a = coords b ->
  vert_df a = vert_df b -> edge_df a = edge_df b ->
  has_opposite a = has_opposite b -> face_df a = face_df b ->
  cell_df a = cell_df b -> edge_mindex a = edge_mindex b ->
  bbox a = bbox b -> extra a = extra b -> a = b.
Proof.
  destruct a, b; simpl; intros; subst; reflexivity.
Qed.

Lemma reset_index_eq self :
  well_formed self = true ->
  reset_index self
  = Ok (mk_eptm (identifier self) (coords self)
                (reset_index_drop (vert_df self))
                (reset_index_drop
                   (map (fun r => (fst r, renumber_keys self (snd r)))
                        (edge_df self)))
                (has_opposite self)
                (reset_index_drop (face_df self))
                (option_map reset_index_drop (cell_df self))
                (edge_mindex self) (bbox self) (extra self)).
Proof.
  intros Hwf. apply well_formed_spec in Hwf.
  destruct Hwf as [NDv [NDe [NDf [Hs [Ht [Hf Hc]]]]]].
  unfold reset_index, upcast_srce, upcast_trgt, upcast_face, upcast_cell.
  rewrite (upcast_step self (new_idx (vert_df self)) 0 srce set_srce);
    [|rewrite index_new_idx; assumption
     |rewrite index_new_idx; assumption].
  rewrite (upcast_step _ (new_idx (vert_df self)) 0 trgt set_trgt);
    [|rewrite index_new_idx; assumption
     |cbn [edge_df with_edge_df]; rewrite keys_after_set by reflexivity;
      rewrite index_new_idx; assumption].
  match goal with |- context [_upcast ?s _ _] => set (s2 := s) end.
  change (face_df s2) with (face_df self).
  rewrite (upcast_step s2 (new_idx (face_df self)) 0 face set_face);
    [|rewrite index_new_idx; assumption
     |subst s2; cbn [edge_df with_edge_df];
      rewrite !keys_after_set by reflexivity;
      rewrite index_new_idx; assumption].
  match goal with |- context [with_vert_df _ ?s] => set (s3 := s) end.
  match goal with |- context [has_cell ?s] => set (s4 := s) end.
  change (has_cell s4) with (has_cell self).
  change (cell_df s4) with (cell_df self).
  rewrite has_cell_spec.
  assert (Hs4 : edge_df s4
                = map (fun r => (fst r,
                                 set_face (lookup 0 (new_idx (face_df self))
                                                  (face (snd r)))
                                   (set_trgt (lookup 0 (new_idx (vert_df self))
                                                     (trgt (snd r)))
                                      (set_srce (lookup 0 (new_idx (vert_df self))
                                                        (srce (snd r)))
                                                (snd r)))))
                      (edge_df self)).
  { subst s4 s3 s2. cbn [edge_df with_edge_df with_face_df with_vert_df].
    rewrite !map_map. apply map_ext. intros [l r]. reflexivity. }
  destruct (cell_df self) as [cells|] eqn:Ecell.
  - destruct Hc as [NDc Hc].
    rewrite (upcast_step s4 (new_idx cells) 0 cell set_cell);
    [|rewrite index_new_idx; assumption
     |rewrite Hs4, !keys_after_set by reflexivity;
      rewrite index_new_idx; assumption].
    cbn [bind]. f_equal.
    apply eptm_ext; try reflexivity.
    cbn [edge_df with_edge_df with_cell_df]. rewrite Hs4.
    f_equal. rewrite !map_map. apply map_ext. intros [l r].
    unfold renumber_keys. rewrite Ecell. reflexivity.
  - cbn [bind]. f_equal.
    apply eptm_ext; try reflexivity.
    + cbn [edge_df with_edge_df]. rewrite Hs4.
      f_equal. rewrite ?map_map. apply map_ext. intros [l r].
      unfold renumber_keys. rewrite Ecell. reflexivity.
    + change (cell_df self = option_map reset_index_drop None).
      rewrite Ecell. reflexivity.
Qed.

Lemma nth_error_combine_seq {A B} (f : nat -> B) (l : list (Z * A)) s n k a :
  nth_error l n = Some (k, a) ->
  nth_error (combine (map f (seq s (length l))) (map snd l)) n
  = Some (f (s + n)%nat, a).
Proof.
  revert s n. induction l as [|r l IH]; intros s n H.
  - destruct n; discriminate.
  - destruct n as [|n]; simpl in *.
    + inversion H; subst. rewrite Nat.add_0_r. reflexivity.
    + rewrite (IH (S s) n H). do 2 f_equal. f_equal. lia.
Qed.

Lemma nth_error_fst_seq {A} (df : table A) s n k a :
  nth_error df n = Some (k, a) ->
  nth_error (combine (map fst df) (map Z.of_nat (seq s (length df)))) n
  = Some (k, Z.of_nat (s + n)).
Proof.
  revert s n. induction df as [|r df IH]; intros s n H.
  - destruct n; discriminate.
  - destruct n as [|n]; simpl in *.
    + inversion H; subst. simpl. rewrite Nat.add_0_r. reflexivity.
    + rewrite (IH (S s) n H). do 3 f_equal. lia.
Qed.

Lemma nth_error_new_idx {A} (df : table A) n k a :
  nth_error df n = Some (k, a) ->
  nth_error (new_idx df) n = Some (k, Z.of_nat n).
Proof.
  intros H. unfold new_idx, index, arange.
  rewrite (nth_error_fst_seq df 0 n k a H). reflexivity.
Qed.

Lemma nth_error_reset_index_drop {A} (df : table A) n k a :
  nth_error df n = Some (k, a) ->
  nth_error (reset_index_drop df) n = Some (Z.of_nat n, a).
Proof.
  intros H. unfold reset_index_drop, arange, values.
  rewrite (nth_error_combine_seq Z.of_nat df 0 n k a H). reflexivity.
Qed.

Lemma index_reset_index_drop {A} (df : table A) :
  index (reset_index_drop df) = arange (length df).
Proof.
  unfold reset_index_drop. apply index_combine.
  rewrite length_arange, length_values. reflexivity.
Qed.

Lemma values_reset_index_drop {A} (df : table A) :
  values (reset_index_drop df) = values df.
Proof.
  unfold reset_index_drop. apply values_combine.
  rewrite length_arange, length_values. reflexivity.
Qed.

Lemma length_reset_index_drop {A} (df : table A) :
  length (reset_index_drop df) = length df.
Proof.
  rewrite <- (length_index (reset_index_drop df)), index_reset_index_drop.
  apply length_arange.
Qed.

Lemma lookup_new_idx {A} (df : table A) n k a :
  NoDup (index df) ->
  nth_error df n = Some (k, a) ->
  lookup 0 (new_idx df) k = Z.of_nat n.
Proof.
  intros ND H. apply lookup_In.
  - rewrite index_new_idx. assumption.
  - eapply nth_error_In. apply (nth_error_new_idx df n k a). assumption.
Qed.

Lemma index_nth_error {A} (df : table A) k :
  In k (index df) -> exists n a, nth_error df n = Some (k, a).
Proof.
  unfold index. intros H. apply in_map_iff in H.
  destruct H as [[k' a] [Hk Hin]]. simpl in Hk. subst k'.
  destruct (In_nth_error df (k, a) Hin) as [n Hn]. eauto.
Qed.

(** A key that names a row is renumbered to the position of that row. *)
Lemma same_row_renumbered {A} (df : table A) k :
  NoDup (index df) -> In k (index df) ->
  same_row df (reset_index_drop df) k (lookup 0 (new_idx df) k).
Proof.
  intros ND Hin. destruct (index_nth_error df k Hin) as [n [a Hn]].
  exists n, a. rewrite (lookup_new_idx df n k a ND Hn).
  split; [assumption|]. split; [apply (nth_error_reset_index_drop df n k a Hn)|].
  split; [reflexivity|].
  rewrite length_reset_index_drop.
  assert (n < length df)%nat by (apply nth_error_Some; congruence). lia.
Qed.


(** C2.  On an epithelium whose tables have unique labels and whose
    half-edges only name existing rows, [reset_index] succeeds; afterwards
    the index of every table is 0 .. count-1, every table has the rows it
    had, in the same order, and each foreign key (srce, trgt, face, and
    cell when cells are modelled) of each half-edge is the position of the
    row it named before: it lies in the range of the table and names the
    same row. *)
Theorem reset_index_dense (self : Epithelium) :
  well_formed self = true ->
  exists self',
    reset_index self = Ok self' /\
    (index (vert_df self') = arange (length (vert_df self)) /\
     values (vert_df self') = values (vert_df self)) /\
    (index (face_df self') = arange (length (face_df self)) /\
     values (face_df self') = values (face_df self)) /\
    match cell_df self, cell_df self' with
    | Some cells, Some cells' =>
        index cells' = arange (length cells) /\ values cells' = values cells
    | None, None => True
    | _, _ => False
    end /\
    index (edge_df self') = arange (length (edge_df self)) /\
    forall i l r,
      nth_error (edge_df self) i = Some (l, r) ->
      exists r',
        nth_error (edge_df self') i = Some (Z.of_nat i, r') /\
        dx r' = dx r /\ dy r' = dy r /\ opposite r' = opposite r /\
        same_row (vert_df self) (vert_df self') (srce r) (srce r') /\
        same_row (vert_df self) (vert_df self') (trgt r) (trgt r') /\
        same_row (face_df self) (face_df self') (face r) (face r') /\
        match cell_df self, cell_df self' with
        | Some cells, Some cells' => same_row cells cells' (cell r) (cell r')
        | _, _ => cell r' = cell r
        end.
Proof.
  intros Hwf. rewrite (reset_index_eq self Hwf).
  apply well_formed_spec in Hwf.
  destruct Hwf as [NDv [NDe [NDf [Hs [Ht [Hf Hc]]]]]].
  eexists. split; [reflexivity|].
  cbn [vert_df face_df cell_df edge_df].
  split; [split; [apply index_reset_index_drop|apply values_reset_index_drop]|].
  split; [split; [apply index_reset_index_drop|apply values_reset_index_drop]|].
  split.
  { destruct (cell_df self); simpl; auto.
    split; [apply index_reset_index_drop|apply values_reset_index_drop]. }
  split.
  { rewrite index_reset_index_drop, length_map. reflexivity. }
  intros i l r Hi.
  assert (Hin : In r (values (edge_df self))).
  { unfold values. apply in_map_iff. exists (l, r). split; auto.
    eapply nth_error_In; eassumption. }
  exists (renumber_keys self r). split.
  { apply (nth_error_reset_index_drop _ i l).
    rewrite nth_error_map, Hi. reflexivity. }
  do 3 (split; [reflexivity|]).
  split; [apply same_row_renumbered; auto; apply Hs, in_map, Hin|].
  split; [apply same_row_renumbered; auto; apply Ht, in_map, Hin|].
  split; [apply same_row_renumbered; auto; apply Hf, in_map, Hin|].
  unfold renumber_keys. destruct (cell_df self) as [cells|]; simpl.
  - destruct Hc as [NDc Hc].
    apply same_row_renumbered; auto. apply Hc, in_map, Hin.
  - reflexivity.
Qed.

Lemma reset_index_dense_witness :
  exists self',
    reset_index sparse_triangle = Ok self' /\
    index (vert_df self') = [0; 1; 2] /\
    index (edge_df self') = [0; 1; 2].
Proof.
  destruct (reset_index_dense sparse_triangle eq_refl)
    as [self' [H [[Hv _] [_ [_ [He _]]]]]].
  exists self'. split; [exact H|]. split; [exact Hv|exact He].
Defined.

(** ** Cropping *)

Lemma map_orb_combine (edges : table edge_row) (f g : edge_row -> bool) :
  map (fun st => orb (snd (fst st)) (snd (snd st)))
      (combine (combine (index edges) (map f (values edges)))
               (combine (index edges) (map g (values edges))))
  = map (fun r => f (snd r) || g (snd r)) edges.
Proof.
  induction edges as [|r edges IH]; simpl; [reflexivity|].
  rewrite IH. reflexivity.
Qed.

Lemma index_map_values {A B} (f : A -> B) (df : table A) :
  index (map (fun v => (fst v, f (snd v))) df) = index df.
Proof.
  unfold index. rewrite map_map. reflexivity.
Qed.

Lemma cut_out_step_eq self outs c bounds :
  well_formed self = true ->
  cut_out_step self outs c bounds
  = Ok (set_column c (map (fun r => edge_outside self c bounds (snd r))
                          (edge_df self))
                   outs).
Proof.
  intros Hwf. apply well_formed_spec in Hwf.
  destruct Hwf as [NDv [_ [_ [Hs [Ht _]]]]].
  unfold cut_out_step, upcast_srce, upcast_trgt.
  set (out_vert_ := map (fun v => (fst v, outside c bounds (snd v)))
                        (vert_df self)).
  assert (Hi : index out_vert_ = index (vert_df self))
    by apply index_map_values.
  rewrite !upcast_series;
    try (rewrite Hi; assumption);
    try (unfold values; rewrite !length_map; reflexivity).
  cbn [bind].
  rewrite (no_nan_present out_vert_ false) by (rewrite Hi; assumption).
  cbn [bind].
  rewrite (no_nan_present out_vert_ false) by (rewrite Hi; assumption).
  cbn [bind]. f_equal. f_equal.
  rewrite (map_map srce (lookup false out_vert_)),
          (map_map trgt (lookup false out_vert_)).
  apply (map_orb_combine (edge_df self)
           (fun r => lookup false out_vert_ (srce r))
           (fun r => lookup false out_vert_ (trgt r))).
Qed.

(** The frame [outs] after the loop of [cut_out]. *)
Lemma cut_out_loop_eq self zipped : forall outs,
  well_formed self = true ->
  cut_out_loop self outs zipped
  = Ok (fold_left
          (fun outs cb =>
             set_column (fst cb)
                        (map (fun r => edge_outside self (fst cb) (snd cb)
                                                    (snd r))
                             (edge_df self))
                        outs)
          zipped outs).
Proof.
  induction zipped as [|[c b] zipped IH]; intros outs Hwf; simpl.
  - reflexivity.
  - rewrite (cut_out_step_eq self outs c b Hwf). cbn [bind].
    apply IH. assumption.
Qed.

Lemma set_column_fst c col outs :
  map fst (set_column c col outs) = map fst outs.
Proof.
  unfold set_column. rewrite map_map. apply map_ext.
  intros o. destruct (coord_eqb (fst o) c); reflexivity.
Qed.

Lemma coord_eqb_eq a b : coord_eqb a b = true <-> a = b.
Proof.
  destruct a, b; simpl; split; intros H; try reflexivity; discriminate.
Qed.

Lemma set_column_In c col outs o :
  In o (set_column c col outs) <->
  (fst o = c /\ snd o = Some col /\ In c (map fst outs)) \/
  (fst o <> c /\ In o outs).
Proof.
  unfold set_column. rewrite in_map_iff. split.
  - intros [o' [E Hin]]. destruct (coord_eqb (fst o') c) eqn:Ec.
    + apply coord_eqb_eq in Ec. subst o. simpl. left.
      repeat split; auto. rewrite <- Ec. apply in_map. assumption.
    + subst o'. right. split; auto. intros Hc.
      apply coord_eqb_eq in Hc. congruence.
  - intros [[Hc [Hs Hin]]|[Hc Hin]].
    + apply in_map_iff in Hin. destruct Hin as [o' [E Hin]].
      exists o'. split; auto.
      replace (coord_eqb (fst o') c) with true
        by (symmetry; apply coord_eqb_eq; assumption).
      destruct o as [oc os]; simpl in *; subst. reflexivity.
    + exists o. split; auto.
      destruct (coord_eqb (fst o) c) eqn:Ec; auto.
      apply coord_eqb_eq in Ec. contradiction.
Qed.

Section Loop.
Variable colf : coord -> float * float -> list bool.

Let step (outs : list (coord * option (list bool)))
    (cb : coord * (float * float)) :=
  set_column (fst cb) (colf (fst cb) (snd cb)) outs.

Lemma loop_fst zipped : forall outs,
  map fst (fold_left step zipped outs) = map fst outs.
Proof.
  induction zipped as [|cb zipped IH]; intros outs; simpl; auto.
  rewrite IH. apply set_column_fst.
Qed.

(** Every column of the frame is still NaN or was computed for a pair of
    the zip. *)
Lemma loop_sound zipped : forall outs c col,
  In (c, Some col) (fold_left step zipped outs) ->
  In (c, Some col) outs \/
  exists b, In (c, b) zipped /\ col = colf c b.
Proof.
  induction zipped as [|[c0 b0] zipped IH]; intros outs c col H; simpl in *.
  - auto.
  - destruct (IH _ _ _ H) as [H1|[b [Hb E]]].
    + unfold step in H1. apply set_column_In in H1. simpl in H1.
      destruct H1 as [[Hc [Hs _]]|[_ Hin]].
      * right. exists b0. subst c0. inversion Hs. auto.
      * auto.
    + right. exists b. auto.
Qed.

Lemma loop_keeps zipped : forall outs o,
  ~ In (fst o) (map fst zipped) -> In o outs ->
  In o (fold_left step zipped outs).
Proof.
  induction zipped as [|[c0 b0] zipped IH]; intros outs o Hn Hin;
    simpl in *; auto.
  apply IH; [tauto|]. unfold step. apply set_column_In. simpl.
  right. split; auto.
Qed.

(** With distinct column names, the column of each pair of the zip is in
    the frame at the end. *)
Lemma loop_complete zipped : forall outs c b,
  NoDup (map fst zipped) -> In (c, b) zipped -> In c (map fst outs) ->
  In (c, Some (colf c b)) (fold_left step zipped outs).
Proof.
  induction zipped as [|[c0 b0] zipped IH]; intros outs c b ND Hin Hc;
    simpl in *; [tauto|].
  inversion ND as [|? ? Hn ND']; subst.
  destruct Hin as [E|Hin].
  - inversion E; subst. apply loop_keeps; [exact Hn|].
    unfold step. apply set_column_In. simpl. left. auto.
  - apply IH; auto. unfold step. rewrite set_column_fst. assumption.
Qed.
End Loop.

Lemma row_sum_nonneg outs i : 0 <= row_sum outs i.
Proof.
  unfold row_sum. induction outs as [|[c [col|]] outs IH]; simpl; try lia.
  destruct (nth i col false); lia.
Qed.

Lemma row_sum_nonzero outs i :
  (row_sum outs i =? 0) = false <->
  exists c col, In (c, Some col) outs /\ nth i col false = true.
Proof.
  rewrite Z.eqb_neq. induction outs as [|[c [col|]] outs IH].
  - simpl. split; [unfold row_sum; simpl; lia|intros [c [col [[] _]]]].
  - pose proof (row_sum_nonneg outs i) as Hpos.
    change (row_sum ((c, Some col) :: outs) i)
      with ((if nth i col false then 1 else 0) + row_sum outs i).
    destruct (nth i col false) eqn:E.
    + split; [|lia]. intros _. exists c, col. simpl. auto.
    + rewrite Z.add_0_l, IH. split.
      * intros [c' [col' [Hin Hn]]]. exists c', col'. simpl. auto.
      * intros [c' [col' [[Heq|Hin] Hn]]]; [|eauto].
        inversion Heq; subst. congruence.
  - change (row_sum ((c, None) :: outs) i) with (0 + row_sum outs i).
    rewrite Z.add_0_l, IH. split.
    + intros [c' [col' [Hin Hn]]]. exists c', col'. simpl. auto.
    + intros [c' [col' [[Heq|Hin] Hn]]]; [discriminate|eauto].
Qed.

Lemma In_filter_mask {A} (l : list A) (f : nat -> bool) x : forall s,
  In x (map fst (filter snd (combine l (map f (seq s (length l)))))) <->
  exists i, nth_error l i = Some x /\ f (s + i)%nat = true.
Proof.
  induction l as [|a l IH]; intros s; simpl.
  - split; [tauto|]. intros [[|i] [H _]]; discriminate.
  - destruct (f s) eqn:E; simpl; rewrite IH.
    + split.
      * intros [->|[i [Hi Hf]]].
        -- exists 0%nat. rewrite Nat.add_0_r. auto.
        -- exists (S i). rewrite Nat.add_succ_r. auto.
      * intros [[|i] [Hi Hf]]; simpl in Hi.
        -- left. congruence.
        -- right. exists i. rewrite Nat.add_succ_r in Hf. auto.
    + split.
      * intros [i [Hi Hf]]. exists (S i). rewrite Nat.add_succ_r. auto.
      * intros [[|i] [Hi Hf]]; simpl in Hi.
        -- rewrite Nat.add_0_r in Hf. congruence.
        -- exists i. rewrite Nat.add_succ_r in Hf. auto.
Qed.

Lemma nth_map_error {A} (h : A -> bool) (l : list A) i a :
  nth_error l i = Some a -> nth i (map h l) false = h a.
Proof.
  revert i. induction l as [|b l IH]; intros [|i] H; simpl in *;
    try discriminate.
  - congruence.
  - apply IH. assumption.
Qed.

Lemma nth_map_true {A} (h : A -> bool) (l : list A) i :
  nth i (map h l) false = true ->
  exists a, nth_error l i = Some a /\ h a = true.
Proof.
  revert i. induction l as [|b l IH]; intros [|i] H; simpl in *;
    try discriminate; eauto.
Qed.

Lemma lookup_out_vert (verts : table vert_row) c bounds k :
  NoDup (index verts) ->
  lookup false (map (fun v => (fst v, outside c bounds (snd v))) verts) k
  = true <->
  exists v, In (k, v) verts /\ outside c bounds v = true.
Proof.
  intros ND. split.
  - unfold lookup.
    destruct (loc1 Z.eqb _ k) as [b|] eqn:E; [|discriminate].
    intros ->. apply loc1_Some in E. apply in_map_iff in E.
    destruct E as [[k' v] [E Hin]]. simpl in E. inversion E; subst.
    eauto.
  - intros [v [Hin Hout]]. rewrite <- Hout. apply lookup_In.
    + rewrite index_map_values. assumption.
    + apply in_map_iff. exists (k, v). auto.
Qed.

Lemma edge_outside_spec self c bounds r :
  NoDup (index (vert_df self)) ->
  edge_outside self c bounds r = true <->
  exists v, (In (srce r, v) (vert_df self) \/ In (trgt r, v) (vert_df self))
            /\ outside c bounds v = true.
Proof.
  intros ND. unfold edge_outside.
  rewrite orb_true_iff, !lookup_out_vert by assumption. split.
  - intros [[v [H1 H2]]|[v [H1 H2]]]; exists v; auto.
  - intros [v [[H1|H1] H2]]; [left|right]; eauto.
Qed.

Lemma NoDup_fst_combine {A B} (l : list A) (l' : list B) :
  NoDup l -> NoDup (map fst (combine l l')).
Proof.
  intros ND. revert l'. induction ND as [|a l Hn ND IH]; intros [|b l'];
    simpl; try constructor; auto.
  intros Hin. apply Hn. apply in_map_iff in Hin.
  destruct Hin as [[a' b'] [E Hin]]. simpl in E. subst a'.
  eapply in_combine_l. eassumption.
Qed.

(** What [cut_out] returns. *)
Lemma cut_out_spec self bbox coords_arg :
  well_formed self = true ->
  NoDup (match coords_arg with None => coords self | Some c => c end) ->
  exists out,
    cut_out self bbox coords_arg = Ok out /\
    forall l,
      In l out <->
      exists r c bounds v,
        In (l, r) (edge_df self) /\
        In (c, bounds)
           (combine (match coords_arg with
                     | None => coords self
                     | Some c => c
                     end) bbox) /\
        (In (srce r, v) (vert_df self) \/ In (trgt r, v) (vert_df self)) /\
        outside c bounds v = true.
Proof.
  intros Hwf ND. unfold cut_out.
  set (cs := match coords_arg with None => coords self | Some c => c end)
    in *.
  rewrite (cut_out_loop_eq self (combine cs bbox) _ Hwf). cbn [bind].
  eexists. split; [reflexivity|].
  apply well_formed_spec in Hwf. destruct Hwf as [NDv _].
  set (colf := fun c b =>
                 map (fun r => edge_outside self c b (snd r)) (edge_df self)).
  set (final := fold_left _ _ _).
  intros l. unfold index. rewrite in_map_iff. split.
  - intros [[l' r] [E Hin]]. simpl in E. subst l'.
    apply In_filter_mask in Hin. destruct Hin as [i [Hi Hm]].
    rewrite negb_true_iff in Hm. apply row_sum_nonzero in Hm.
    destruct Hm as [c [col [Hc Hn]]].
    apply (loop_sound colf) in Hc. destruct Hc as [Hc|[b [Hb E]]].
    + apply in_map_iff in Hc. destruct Hc as [c' [E _]]. discriminate.
    + subst col. unfold colf in Hn.
      rewrite (nth_map_error _ _ _ _ Hi) in Hn. simpl in Hn.
      apply edge_outside_spec in Hn; [|assumption].
      destruct Hn as [v [Hv Ho]].
      exists r, c, b, v. repeat split; auto.
      eapply nth_error_In; eassumption.
  - intros [r [c [b [v [Hin [Hz [Hv Ho]]]]]]].
    exists (l, r). split; [reflexivity|].
    apply In_filter_mask. apply In_nth_error in Hin.
    destruct Hin as [i Hi]. exists i. split; [assumption|].
    rewrite negb_true_iff. apply row_sum_nonzero.
    exists c, (colf c b). split.
    + apply (loop_complete colf).
      * apply NoDup_fst_combine. assumption.
      * assumption.
      * rewrite map_map. simpl. rewrite map_id.
        eapply in_combine_l. eassumption.
    + unfold colf. rewrite (nth_map_error _ _ _ _ Hi). simpl.
      apply edge_outside_spec; [assumption|]. eauto.
Qed.

Lemma flt_irrefl a : flt a a = false.
Proof.
  destruct a; simpl; auto. unfold Qltb. apply Z.ltb_irrefl.
Qed.

Lemma fle_not_flt a b : fle a b = true -> flt b a = false.
Proof.
  destruct a, b; simpl; auto; try discriminate.
  unfold Qleb, Qltb. intros H. apply Z.leb_le in H. apply Z.ltb_ge.
  assumption.
Qed.

Lemma within_not_outside c lo hi v :
  fle lo (vert_col c v) = true -> fle (vert_col c v) hi = true ->
  outside c (lo, hi) v = false.
Proof.
  intros H1 H2. unfold outside, fgt. simpl.
  rewrite (fle_not_flt _ _ H1), (fle_not_flt _ _ H2). reflexivity.
Qed.

Lemma outside_spec c lo hi v :
  outside c (lo, hi) v = true <->
  flt (vert_col c v) lo = true \/ fgt (vert_col c v) hi = true.
Proof. unfold outside. cbn [fst snd]. apply orb_true_iff. Qed.

(** C9.  With unique labels, half-edges that name existing vertices and
    distinct coordinate names, [cut_out] returns exactly the labels of the
    half-edges with a source or target vertex whose coordinate is below the
    minimum or above the maximum of the box in one of the zipped
    coordinates; for a box that contains every vertex the result is
    empty. *)
Theorem cut_out_exact (self : Epithelium) (bbox : list (float * float))
        (coords_arg : option (list coord)) :
  well_formed self = true ->
  NoDup (match coords_arg with None => coords self | Some c => c end) ->
  exists out,
    cut_out self bbox coords_arg = Ok out /\
    (forall l,
       In l out <->
       exists r c lo hi v,
         In (l, r) (edge_df self) /\
         In (c, (lo, hi))
            (combine (match coords_arg with
                      | None => coords self
                      | Some c => c
                      end) bbox) /\
         (In (srce r, v) (vert_df self) \/ In (trgt r, v) (vert_df self)) /\
         (flt (vert_col c v) lo = true \/ fgt (vert_col c v) hi = true)) /\
    ((forall c bounds v,
         In (c, bounds)
            (combine (match coords_arg with
                      | None => coords self
                      | Some c => c
                      end) bbox) ->
         In v (values (vert_df self)) ->
         fle (fst bounds) (vert_col c v) = true /\
         fle (vert_col c v) (snd bounds) = true) ->
     out = []).
Proof.
  intros Hwf ND.
  destruct (cut_out_spec self bbox coords_arg Hwf ND) as [out [E Hout]].
  exists out. split; [exact E|]. split.
  - intros l. rewrite Hout. split.
    + intros [r [c [[lo hi] [v [H1 [H2 [H3 H4]]]]]]].
      exists r, c, lo, hi, v. apply outside_spec in H4. auto.
    + intros [r [c [lo [hi [v [H1 [H2 [H3 H4]]]]]]]].
      exists r, c, (lo, hi), v. apply outside_spec in H4. auto.
  - intros Hbox. destruct out as [|l out]; [reflexivity|]. exfalso.
    destruct (proj1 (Hout l) (or_introl eq_refl))
      as [r [c [[lo hi] [v [_ [Hz [Hv Ho]]]]]]].
    assert (Hin : In v (values (vert_df self))).
    { unfold values. destruct Hv as [Hv|Hv];
        apply (in_map snd) in Hv; exact Hv. }
    destruct (Hbox c (lo, hi) v Hz Hin) as [H1 H2]. simpl in H1, H2.
    rewrite (within_not_outside c lo hi v H1 H2) in Ho. discriminate.
Qed.

Lemma cut_out_exact_witness :
  exists out,
    cut_out two_triangles [(Fin 0, Fin (1 # 2)); (Fin 0, Fin 1)] None
    = Ok out /\
    In 0 out.
Proof.
  assert (ND : NoDup (coords two_triangles)).
  { simpl. repeat constructor; simpl; intuition discriminate. }
  destruct (cut_out_exact two_triangles
              [(Fin 0, Fin (1 # 2)); (Fin 0, Fin 1)] None eq_refl ND)
    as [out [E [Hout _]]].
  exists out. split; [exact E|]. apply Hout.
  exists (sample_edge 0 1 0), cx, (Fin 0), (Fin (1 # 2)), (sample_vert 1 0).
  split; [simpl; auto|]. split; [simpl; auto|].
  split; [right; simpl; auto|]. right. reflexivity.
Defined.

(** C10.  The outside test of [cut_out] is strict: a coordinate equal to
    the minimum is not below it and a coordinate equal to the maximum is
    not above it, so a vertex on a bound of a box (minimum at most maximum)
    is inside; and a half-edge whose two end vertices lie on or within the
    bounds in every zipped coordinate is not returned. *)
Theorem cut_out_bounds_inclusive (self : Epithelium)
        (bbox : list (float * float)) (coords_arg : option (list coord)) :
  well_formed self = true ->
  NoDup (match coords_arg with None => coords self | Some c => c end) ->
  (forall c lo hi v,
      vert_col c v = lo \/ vert_col c v = hi ->
      fle lo hi = true ->
      flt (vert_col c v) lo = false /\ fgt (vert_col c v) hi = false /\
      outside c (lo, hi) v = false) /\
  forall out l r vs vt,
    cut_out self bbox coords_arg = Ok out ->
    In (l, r) (edge_df self) ->
    In (srce r, vs) (vert_df self) ->
    In (trgt r, vt) (vert_df self) ->
    (forall c bounds,
        In (c, bounds)
           (combine (match coords_arg with
                     | None => coords self
                     | Some c => c
                     end) bbox) ->
        (fle (fst bounds) (vert_col c vs) = true /\
         fle (vert_col c vs) (snd bounds) = true) /\
        (fle (fst bounds) (vert_col c vt) = true /\
         fle (vert_col c vt) (snd bounds) = true)) ->
    ~ In l out.
Proof.
  intros Hwf ND. split.
  - intros c lo hi v Heq Hle. unfold outside, fgt. simpl.
    destruct Heq as [E|E]; rewrite E.
    + rewrite flt_irrefl, (fle_not_flt _ _ Hle). auto.
    + rewrite flt_irrefl, (fle_not_flt _ _ Hle). auto.
  - intros out l r vs vt E Hr Hvs Hvt Hbox Hin.
    destruct (cut_out_spec self bbox coords_arg Hwf ND) as [out' [E' Hout]].
    rewrite E in E'. inversion E'; subst out'; clear E'.
    apply Hout in Hin.
    destruct Hin as [r' [c [[lo hi] [v [Hr' [Hz [Hv Ho]]]]]]].
    apply well_formed_spec in Hwf. destruct Hwf as [NDv [NDe _]].
    assert (r' = r) by (eapply (NoDup_map_fst_inj (edge_df self)); eauto).
    subst r'.
    destruct (Hbox c (lo, hi) Hz) as [[Hs1 Hs2] [Ht1 Ht2]].
    simpl in Hs1, Hs2, Ht1, Ht2.
    destruct Hv as [Hv|Hv].
    + assert (v = vs) by (eapply (NoDup_map_fst_inj (vert_df self)); eauto).
      subst v. rewrite (within_not_outside c lo hi vs Hs1 Hs2) in Ho.
      discriminate.
    + assert (v = vt) by (eapply (NoDup_map_fst_inj (vert_df self)); eauto).
      subst v. rewrite (within_not_outside c lo hi vt Ht1 Ht2) in Ho.
      discriminate.
Qed.

Lemma cut_out_bounds_inclusive_witness :
  exists out,
    cut_out two_triangles [(Fin 0, Fin 1); (Fin 0, Fin 1)] None = Ok out /\
    ~ In 0 out.
Proof.
  assert (ND : NoDup (coords two_triangles)).
  { simpl. repeat constructor; simpl; intuition discriminate. }
  exists []. split; [reflexivity|].
  apply (proj2 (cut_out_bounds_inclusive two_triangles
                  [(Fin 0, Fin 1); (Fin 0, Fin 1)] None eq_refl ND)
               [] 0 (sample_edge 0 1 0) (sample_vert 0 0) (sample_vert 1 0)
               eq_refl).
  - simpl. auto.
  - simpl. auto.
  - simpl. auto.
  - intros c bounds Hz. simpl in Hz.
    destruct Hz as [Hz|[Hz|[]]]; inversion Hz; subst;
      repeat split; reflexivity.
Defined.

(** ** Removal *)

Lemma unique_In x l : In x (unique l) <-> In x l.
Proof.
  induction l as [|a l IH]; simpl; [tauto|].
  rewrite filter_In, IH, negb_true_iff, Z.eqb_neq.
  destruct (Z.eq_dec a x); intuition congruence.
Qed.

Lemma unique_NoDup l : NoDup (unique l).
Proof.
  induction l as [|a l IH]; simpl; constructor.
  - rewrite filter_In, negb_true_iff, Z.eqb_neq. tauto.
  - apply NoDup_filter. assumption.
Qed.

Lemma insert_perm a l : Permutation (insert a l) (a :: l).
Proof.
  induction l as [|b l IH]; simpl; [reflexivity|].
  destruct (a <=? b); [reflexivity|].
  rewrite IH. apply perm_swap.
Qed.

Lemma sort_perm l : Permutation (sort l) l.
Proof.
  induction l as [|a l IH]; simpl; [reflexivity|].
  rewrite insert_perm, IH. reflexivity.
Qed.

Lemma sort_In x l : In x (sort l) <-> In x l.
Proof.
  split; apply Permutation_in; [apply sort_perm|].
  symmetry. apply sort_perm.
Qed.

Lemma sort_NoDup l : NoDup l -> NoDup (sort l).
Proof.
  intros H. eapply Permutation_NoDup; [|exact H].
  symmetry. apply sort_perm.
Qed.

Lemma np_unique_In x l : In x (np_unique l) <-> In x l.
Proof. unfold np_unique. rewrite sort_In. apply unique_In. Qed.

Lemma np_unique_NoDup l : NoDup (np_unique l).
Proof. unfold np_unique. apply sort_NoDup, unique_NoDup. Qed.

(** [loc] with labels that all name a row of a table with unique labels:
    the rows named, in the order of the labels. *)
Lemma loc_rows_present {A} (df : table A) keys :
  NoDup (index df) ->
  (forall k, In k keys -> In k (index df)) ->
  exists rows,
    loc_rows df keys = Ok rows /\
    index rows = keys /\
    forall r, In r rows <-> In r df /\ In (fst r) keys.
Proof.
  intros ND. unfold loc_rows.
  rewrite (loc_unique Z.eqb Z.eqb_eq df keys ND).
  induction keys as [|k keys IH]; intros Hin.
  - exists []. simpl. repeat split; tauto.
  - destruct IH as [rows [E [Hi Hr]]];
      [intros k' Hk'; apply Hin; right; exact Hk'|].
    destruct (loc1_present df k (Hin k (or_introl eq_refl))) as [a Ea].
    exists ((k, a) :: rows). simpl. rewrite Ea, E. simpl.
    split; [reflexivity|]. split; [rewrite Hi; reflexivity|].
    intros r. rewrite Hr. apply loc1_Some in Ea. split.
    + intros [<-|[H1 H2]]; simpl; auto.
    + intros [H1 [H2|H2]]; auto.
      left. destruct r as [k' a']. simpl in H2. subst k'.
      f_equal. eapply NoDup_map_fst_inj; eassumption.
Qed.

Lemma drop_present {A} (df : table A) labels :
  (forall l, In l labels -> In l (index df)) ->
  drop df labels = Ok (filter (fun r => negb (mem (fst r) labels)) df).
Proof.
  intros H. unfold drop.
  replace (forallb (fun l => mem l (index df)) labels) with true;
    [reflexivity|].
  symmetry. apply forallb_forall. intros l Hl. apply mem_In, H, Hl.
Qed.

Lemma index_filter_NoDup {A} (p : Z * A -> bool) (df : table A) :
  NoDup (index df) -> NoDup (index (filter p df)).
Proof.
  unfold index. induction df as [|r df IH]; simpl; intros ND; [constructor|].
  inversion ND as [|? ? Hn ND']; subst.
  destruct (p r); simpl; auto. constructor; auto.
  intros Hin. apply Hn. apply in_map_iff in Hin.
  destruct Hin as [r' [E Hin]]. apply filter_In in Hin.
  rewrite <- E. apply in_map. tauto.
Qed.

Lemma top_level_spec self :
  top_level self = match cell_df self with Some _ => Cell | None => Face end.
Proof.
  unfold top_level, element_names, data_names.
  destruct (cell_df self); reflexivity.
Qed.

Lemma flat_map_ends_In (edges : table edge_row) k :
  In k (flat_map (fun r => [srce (snd r); trgt (snd r)]) edges) <->
  exists e, In e edges /\ (srce (snd e) = k \/ trgt (snd e) = k).
Proof.
  rewrite in_flat_map. split.
  - intros [e [He [H|[H|[]]]]]; exists e; auto.
  - intros [e [He [H|H]]]; exists e; simpl; auto.
Qed.

(** The tables of [remove] after the drops, before the renumbering. *)
Lemma remove_tables self edge_out :
  well_formed self = true ->
  (forall l, In l edge_out -> In l (index (edge_df self))) ->
  edge_out <> [] ->
  exists kept,
    (forall e, In e (edge_df kept) <->
               In e (edge_df self) /\
               ~ selected_owner self edge_out (edge_col (top_level self) (snd e))) /\
    (forall v, In v (vert_df kept) <->
               In v (vert_df self) /\
               exists e, In e (edge_df kept) /\
                         (srce (snd e) = fst v \/ trgt (snd e) = fst v)) /\
    match cell_df self, cell_df kept with
    | None, None =>
        forall f, In f (face_df kept) <->
                  In f (face_df self) /\ ~ selected_owner self edge_out (fst f)
    | Some cells, Some cells' =>
        (forall c, In c cells' <->
                   In c cells /\ ~ selected_owner self edge_out (fst c)) /\
        (forall f, In f (face_df kept) <->
                   In f (face_df self) /\
                   exists e, In e (edge_df kept) /\ face (snd e) = fst f)
    | _, _ => False
    end /\
    well_formed kept = true /\
    has_opposite kept = has_opposite self /\
    remove self edge_out = (self' <- reset_index kept ;; reset_topo self').
Proof.
  intros Hwf Hsel Hne.
  pose proof Hwf as Hwf'. apply well_formed_spec in Hwf'.
  destruct Hwf' as [NDv [NDe [NDf [Hs [Ht [Hf Hc]]]]]].
  unfold remove.
  destruct (loc_rows_present (edge_df self) edge_out NDe Hsel)
    as [sel [Esel [Isel Hsel']]].
  rewrite Esel. cbn [bind].
  set (top := top_level self).
  set (fto := unique (map (fun r => edge_col top (snd r)) sel)).
  assert (Hfto : forall c, In c fto <-> selected_owner self edge_out c).
  { intros c. unfold fto. rewrite unique_In, in_map_iff. split.
    - intros [[l r] [E Hin]]. apply Hsel' in Hin. simpl in *.
      exists l, r. tauto.
    - intros [l [r [Hl [Hr E]]]]. exists (l, r). split; [exact E|].
      apply Hsel'. auto. }
  assert (Hlen : Nat.eqb (length fto) 0 = false).
  { apply Nat.eqb_neq. intros H0. destruct edge_out as [|l0 rest];
      [congruence|].
    destruct (index_nth_error _ l0 (Hsel l0 (or_introl eq_refl)))
      as [n [r0 Hn]]. apply nth_error_In in Hn.
    assert (Hin : In (edge_col top r0) fto).
    { apply Hfto. exists l0, r0. simpl. auto. }
    destruct fto; [destruct Hin|discriminate]. }
  rewrite Hlen.
  set (to_rm := sort (flat_map _ (sort fto))).
  assert (Hto : forall l, In l to_rm <->
                          exists r, In (l, r) (edge_df self) /\
                                    selected_owner self edge_out (edge_col top r)).
  { intros l. unfold to_rm. rewrite sort_In, in_flat_map. split.
    - intros [c [Hc' Hl]]. rewrite sort_In in Hc', Hl.
      unfold index in Hl. apply in_map_iff in Hl.
      destruct Hl as [[l' r] [E Hin]]. simpl in E. subst l'.
      apply filter_In in Hin. destruct Hin as [Hin Hcol].
      simpl in Hcol. apply Z.eqb_eq in Hcol.
      exists r. split; auto. apply Hfto. rewrite Hcol. assumption.
    - intros [r [Hr Ho]]. exists (edge_col top r).
      rewrite !sort_In. split; [apply Hfto; assumption|].
      unfold index. apply in_map_iff. exists (l, r). split; auto.
      apply filter_In. split; auto. simpl. apply Z.eqb_refl. }
  rewrite drop_present.
  2:{ intros l Hl. apply Hto in Hl. destruct Hl as [r [Hr _]].
      unfold index. apply in_map_iff. exists (l, r). auto. }
  cbn [bind].
  set (kept_edges := filter (fun r => negb (mem (fst r) to_rm)) (edge_df self)).
  assert (Hkept : forall e, In e kept_edges <->
                            In e (edge_df self) /\
                            ~ selected_owner self edge_out (edge_col top (snd e))).
  { intros [l r]. unfold kept_edges.
    rewrite filter_In, negb_true_iff, mem_false, Hto. simpl. split.
    - intros [Hin Hn]. split; auto. intros Ho. apply Hn. eauto.
    - intros [Hin Hn]. split; auto. intros [r' [Hr' Ho]].
      assert (r' = r) by (eapply (NoDup_map_fst_inj (edge_df self)); eauto).
      subst r'. contradiction. }
  cbn [vert_df edge_df face_df cell_df with_edge_df with_vert_df with_face_df].
  set (remaining := np_unique (flat_map _ kept_edges)).
  assert (Hrem : forall k, In k remaining <->
                           exists e, In e kept_edges /\
                                     (srce (snd e) = k \/ trgt (snd e) = k)).
  { intros k. unfold remaining. rewrite np_unique_In.
    apply flat_map_ends_In. }
  assert (Hvals : forall e, In e kept_edges -> In (snd e) (values (edge_df self))).
  { intros e He. apply Hkept in He. unfold values. apply in_map. tauto. }
  destruct (loc_rows_present (vert_df self) remaining NDv)
    as [verts [Everts [Iverts Hverts]]].
  { intros k Hk. apply Hrem in Hk. destruct Hk as [e [He [E|E]]]; subst k.
    - apply Hs, in_map, Hvals, He.
    - apply Ht, in_map, Hvals, He. }
  rewrite Everts. cbn [bind].
  assert (Hverts' : forall v, In v verts <->
                              In v (vert_df self) /\
                              exists e, In e kept_edges /\
                                        (srce (snd e) = fst v \/
                                         trgt (snd e) = fst v)).
  { intros v. rewrite Hverts, Hrem. reflexivity. }
  assert (NDk : NoDup (index kept_edges))
    by (apply index_filter_NoDup; assumption).
  assert (NDverts : NoDup (index verts))
    by (rewrite Iverts; apply np_unique_NoDup).
  assert (Hks : forall k, In k (map srce (values kept_edges)) ->
                          In k (index verts)).
  { intros k Hk. rewrite Iverts. apply Hrem.
    unfold values in Hk. rewrite map_map in Hk. apply in_map_iff in Hk.
    destruct Hk as [e [E He]]. eauto. }
  assert (Hkt : forall k, In k (map trgt (values kept_edges)) ->
                          In k (index verts)).
  { intros k Hk. rewrite Iverts. apply Hrem.
    unfold values in Hk. rewrite map_map in Hk. apply in_map_iff in Hk.
    destruct Hk as [e [E He]]. eauto. }
  pose proof (top_level_spec self) as Htop. fold top in Htop.
  destruct (cell_df self) as [cells|] eqn:Ecell.
  - (* cells are modelled *)
    destruct Hc as [NDc Hc]. clearbody top. subst top.
    set (remaining_faces := np_unique (map face (values kept_edges))).
    assert (Hrf : forall k, In k remaining_faces <->
                            exists e, In e kept_edges /\ face (snd e) = k).
    { intros k. unfold remaining_faces, values.
      rewrite np_unique_In, map_map, in_map_iff.
      split; intros [e [H1 H2]]; exists e; auto. }
    destruct (loc_rows_present (face_df self) remaining_faces NDf)
      as [faces [Efaces [Ifaces Hfaces]]].
    { intros k Hk. apply Hrf in Hk. destruct Hk as [e [He E]]. subst k.
      apply Hf, in_map, Hvals, He. }
    rewrite Efaces. cbn [bind cell_df with_face_df with_vert_df with_edge_df].
    rewrite drop_present.
    2:{ intros c Hc'. rewrite sort_In in Hc'. apply Hfto in Hc'.
        destruct Hc' as [l [r [_ [Hr E]]]].
        rewrite top_level_spec, Ecell in E. simpl in E. subst c.
        apply Hc. unfold values. rewrite map_map.
        apply in_map_iff. exists (l, r). auto. }
    cbn [bind].
    eexists. split; [|split; [|split; [|split; [|split; [|reflexivity]]]]].
    + cbn [edge_df with_cell_df with_face_df with_vert_df with_edge_df].
      exact Hkept.
    + cbn [edge_df vert_df with_cell_df with_face_df with_vert_df with_edge_df].
      exact Hverts'.
    + cbn [edge_df face_df cell_df with_cell_df with_face_df with_vert_df
             with_edge_df].
      split.
      * intros c. rewrite filter_In, negb_true_iff, mem_false, sort_In, Hfto.
        reflexivity.
      * intros f. rewrite Hfaces, Hrf. reflexivity.
    + apply well_formed_spec.
      cbn [edge_df vert_df face_df cell_df with_cell_df with_face_df
             with_vert_df with_edge_df].
      split; [exact NDverts|]. split; [exact NDk|].
      split; [rewrite Ifaces; apply np_unique_NoDup|].
      split; [exact Hks|]. split; [exact Hkt|].
      split; [intros k Hk; rewrite Ifaces; unfold remaining_faces;
              apply np_unique_In; exact Hk|].
      split; [apply index_filter_NoDup; exact NDc|].
      intros k Hk. unfold values in Hk. rewrite map_map in Hk.
      apply in_map_iff in Hk. destruct Hk as [e [E He]]. subst k.
      pose proof (proj1 (Hkept e) He) as [He1 He2].
      assert (Hin : In (cell (snd e)) (index cells))
        by (apply Hc, in_map, Hvals, He).
      unfold index in Hin. apply in_map_iff in Hin.
      destruct Hin as [c [E Hcin]].
      unfold index. apply in_map_iff. exists c. split; [exact E|].
      apply filter_In. split; [exact Hcin|].
      rewrite negb_true_iff, mem_false, sort_In, Hfto, E.
      exact He2.
    + reflexivity.
  - (* faces are the top level *)
    clearbody top. subst top.
    rewrite drop_present.
    2:{ intros c Hc'. rewrite sort_In in Hc'. apply Hfto in Hc'.
        destruct Hc' as [l [r [_ [Hr E]]]].
        rewrite top_level_spec, Ecell in E. simpl in E. subst c.
        apply Hf. unfold values. rewrite map_map.
        apply in_map_iff. exists (l, r). auto. }
    cbn [bind].
    eexists. split; [|split; [|split; [|split; [|split; [|reflexivity]]]]].
    + cbn [edge_df with_face_df with_vert_df with_edge_df].
      exact Hkept.
    + cbn [edge_df vert_df with_face_df with_vert_df with_edge_df].
      exact Hverts'.
    + cbn [edge_df face_df cell_df with_face_df with_vert_df with_edge_df].
      rewrite Ecell.
      intros f. rewrite filter_In, negb_true_iff, mem_false, sort_In, Hfto.
      reflexivity.
    + apply well_formed_spec.
      cbn [edge_df vert_df face_df cell_df with_face_df with_vert_df
             with_edge_df].
      rewrite Ecell.
      split; [exact NDverts|]. split; [exact NDk|].
      split; [apply index_filter_NoDup; exact NDf|].
      split; [exact Hks|]. split; [exact Hkt|].
      split; [|exact I].
      intros k Hk. unfold values in Hk. rewrite map_map in Hk.
      apply in_map_iff in Hk. destruct Hk as [e [E He]]. subst k.
      pose proof (proj1 (Hkept e) He) as [He1 He2].
      assert (Hin : In (face (snd e)) (index (face_df self)))
        by (apply Hf, in_map, Hvals, He).
      unfold index in Hin. apply in_map_iff in Hin.
      destruct Hin as [f [E Hfin]].
      unfold index. apply in_map_iff. exists f. split; [exact E|].
      apply filter_In. split; [exact Hfin|].
      rewrite negb_true_iff, mem_false, sort_In, Hfto, E.
      exact He2.
    + reflexivity.
Qed.

(** ** The partition of the half-edges *)

Lemma filter_split_perm {A} (p : A -> bool) (l : list A) :
  Permutation l (filter p l ++ filter (fun a => negb (p a)) l).
Proof.
  induction l as [|a l IH]; simpl; [constructor|].
  destruct (p a); simpl.
  - constructor. exact IH.
  - apply Permutation_cons_app. exact IH.
Qed.

Lemma filter_filter {A} (p q : A -> bool) (l : list A) :
  filter p (filter q l) = filter (fun a => q a && p a) l.
Proof.
  induction l as [|a l IH]; simpl; [reflexivity|].
  destruct (q a); simpl; [destruct (p a)|]; rewrite IH; reflexivity.
Qed.

(** [loc] with the labels of the rows that pass a test, on unique labels,
    gives those rows. *)
Lemma loc_rows_filter {A} (p : Z * A -> bool) (df : table A) :
  NoDup (index df) ->
  loc_rows df (index (filter p df)) = Ok (filter p df).
Proof.
  intros ND. unfold loc_rows.
  rewrite (loc_unique Z.eqb Z.eqb_eq df _ ND).
  assert (G : forall sub : table A,
             (forall r, In r sub -> In r df) ->
             no_nan (map (fun k => (k, loc1 Z.eqb df k)) (index sub))
             = Ok sub).
  { induction sub as [|[k a] sub IH]; intros Hsub; simpl; [reflexivity|].
    rewrite (loc1_In df k a ND) by (apply Hsub; left; reflexivity).
    rewrite IH by (intros r Hr; apply Hsub; right; exact Hr).
    reflexivity. }
  apply G. intros r Hr. apply filter_In in Hr. tauto.
Qed.

Section PartitionFacts.
Variable east_angle : float -> float -> bool.

Lemma partition_sets_unique (edges : table edge_row) :
  NoDup (index edges) ->
  partition_sets east_angle edges
  = Ok (index (filter is_dble edges),
        index (filter (is_east east_angle) (filter is_dble edges)),
        map (fun r => opposite (snd r))
            (filter (is_east east_angle) (filter is_dble edges)),
        index (filter is_free edges)).
Proof.
  intros ND. unfold partition_sets.
  rewrite (loc_rows_filter is_dble edges ND). cbn [bind].
  rewrite filter_filter, (loc_rows_filter _ edges ND). cbn [bind].
  reflexivity.
Qed.

(** What a successful run of [get_extra_indices] went through. *)
Lemma get_extra_indices_inv self self' :
  get_extra_indices east_angle self = Ok self' ->
  exists s1 dble east west free,
    ensure_opposite self = Ok s1 /\
    partition_sets east_angle (edge_df s1) = Ok (dble, east, west, free) /\
    consistent (Z.of_nat (length (edge_df s1))) (dble, east, west, free)
    = true /\
    edge_df self' = edge_df s1 /\
    exists ex,
      extra self' = Some ex /\
      dble_edges ex = dble /\ east_edges ex = east /\
      west_edges ex = west /\ free_edges ex = free.
Proof.
  unfold get_extra_indices.
  destruct (ensure_opposite self) as [s1|] eqn:E1; [|discriminate].
  cbn [bind].
  destruct (partition_sets east_angle (edge_df s1))
    as [[[[dble east] west] free]|] eqn:E2; [|discriminate].
  cbn [bind].
  destruct (consistent _ _) eqn:E3; [|discriminate].
  destruct (forallb _ west); [|discriminate].
  intros H. inversion H; subst; clear H.
  exists s1, dble, east, west, free.
  repeat split; auto.
  eexists. split; [reflexivity|]. repeat split; reflexivity.
Qed.
End PartitionFacts.

Lemma dble_not_free r : is_dble r = true -> is_free r = false.
Proof.
  unfold is_dble, is_free. intros H. apply Z.leb_le in H.
  apply Z.eqb_neq. lia.
Qed.

Section Cover.
Variable east_angle : float -> float -> bool.

(** The counting argument: when half of the paired half-edges are east and
    each pair has an east half-edge, the opposites of the east half-edges
    are the paired half-edges that are not east. *)
Lemma west_is_perm (edges : table edge_row) :
  NoDup (index edges) ->
  opposite_paired edges = true ->
  one_is_east east_angle edges = true ->
  let D := filter is_dble edges in
  let Ea := filter (is_east east_angle) D in
  let W := filter (fun r => negb (is_east east_angle r)) D in
  length W = length Ea ->
  Permutation (index W) (map (fun r => opposite (snd r)) Ea).
Proof.
  intros ND Hp He D Ea W Hlen.
  apply NoDup_Permutation_bis.
  - unfold W, D. apply index_filter_NoDup, index_filter_NoDup, ND.
  - rewrite length_map, length_index. lia.
  - intros l Hl. unfold index in Hl. apply in_map_iff in Hl.
    destruct Hl as [[l' r] [E Hr]]. simpl in E. subst l'.
    unfold W in Hr. apply filter_In in Hr. destruct Hr as [Hr Hne].
    unfold D in Hr. apply filter_In in Hr. destruct Hr as [Hr Hd].
    unfold opposite_paired in Hp. rewrite forallb_forall in Hp.
    specialize (Hp _ Hr). rewrite Hd in Hp.
    unfold one_is_east in He. rewrite forallb_forall in He.
    specialize (He _ Hr). rewrite Hd in He.
    simpl in Hp, He.
    destruct (loc1 Z.eqb edges (opposite r)) as [r'|] eqn:El;
      [|discriminate].
    apply andb_true_iff in Hp. destruct Hp as [Hopp Hd'].
    apply Z.eqb_eq in Hopp.
    apply negb_true_iff in Hne. rewrite Hne in He. simpl in He.
    apply loc1_Some in El.
    apply in_map_iff. exists (opposite r, r'). split; [exact Hopp|].
    unfold Ea, D. apply filter_In. split; [|exact He].
    apply filter_In. split; [exact El|]. exact Hd'.
Qed.

Lemma partition_cover_perm (edges : table edge_row) :
  NoDup (index edges) ->
  opposite_paired edges = true ->
  one_is_east east_angle edges = true ->
  let D := filter is_dble edges in
  let Ea := filter (is_east east_angle) D in
  let F := filter is_free edges in
  Z.of_nat (length D) = 2 * Z.of_nat (length Ea) ->
  2 * Z.of_nat (length Ea) + Z.of_nat (length F)
  = Z.of_nat (length edges) ->
  Permutation (index F ++ index Ea ++ map (fun r => opposite (snd r)) Ea)
              (index edges).
Proof.
  intros ND Hp He D Ea F Hd Hall.
  set (W := filter (fun r => negb (is_east east_angle r)) D).
  assert (HD : Permutation D (Ea ++ W))
    by (apply filter_split_perm).
  assert (HlenD : length D = (length Ea + length W)%nat).
  { rewrite (Permutation_length HD), length_app. reflexivity. }
  set (R := filter (fun r => negb (is_free r)) edges).
  assert (HE : Permutation edges (F ++ R)) by (apply filter_split_perm).
  set (N := filter (fun r => negb (is_dble r)) R).
  assert (HDR : filter is_dble R = D).
  { unfold R, D. rewrite filter_filter. apply filter_ext. intros r.
    destruct (is_dble r) eqn:Er; [|apply andb_false_r].
    rewrite (dble_not_free r Er). reflexivity. }
  assert (HR : Permutation R (D ++ N)).
  { rewrite <- HDR. apply filter_split_perm. }
  assert (HlenE : length edges = (length F + (length D + length N))%nat).
  { rewrite (Permutation_length HE), length_app,
      (Permutation_length HR), length_app. reflexivity. }
  assert (HN : N = []).
  { destruct N; [reflexivity|]. simpl in HlenE. lia. }
  assert (HW : length W = length Ea) by lia.
  pose proof (west_is_perm edges ND Hp He HW) as HWp.
  change (Permutation (index W) (map (fun r => opposite (snd r)) Ea)) in HWp.
  rewrite <- HWp.
  unfold index. rewrite <- !map_app. apply Permutation_map.
  rewrite HE, HR, HN, app_nil_r, HD. reflexivity.
Qed.
End Cover.

(** C3 (as the code has it).  When [get_extra_indices] returns, there are
    as many west as east half-edges and the free half-edges plus twice the
    east ones make the whole edge table; when moreover labels are unique,
    the opposite column pairs the half-edges ([opposite_paired]) and no
    half-edge and its opposite both fail the east test ([one_is_east]),
    free, east and west half-edges together are the half-edges of the table,
    each once.  When the counts are wrong the method raises
    [AssertionError]. *)
Theorem partition_counts_and_cover
        (east_angle : float -> float -> bool) (self : Epithelium) :
  (forall self',
      get_extra_indices east_angle self = Ok self' ->
      exists ex,
        extra self' = Some ex /\
        length (west_edges ex) = length (east_edges ex) /\
        (length (free_edges ex) + 2 * length (east_edges ex)
         = length (edge_df self'))%nat /\
        (nodupb (index (edge_df self')) = true ->
         opposite_paired (edge_df self') = true ->
         one_is_east east_angle (edge_df self') = true ->
         Permutation (free_edges ex ++ east_edges ex ++ west_edges ex)
                     (index (edge_df self')))) /\
  (forall s1 sets,
      ensure_opposite self = Ok s1 ->
      partition_sets east_angle (edge_df s1) = Ok sets ->
      consistent (Z.of_nat (length (edge_df s1))) sets = false ->
      get_extra_indices east_angle self = Raise AssertionError).
Proof.
  split.
  - intros self' H.
    destruct (get_extra_indices_inv east_angle self self' H)
      as [s1 [dble [east [west [free
           [_ [Hsets [Hcons [Hedges [ex [Hex [Ed [Ee [Ew Ef]]]]]]]]]]]]]].
    exists ex. split; [exact Hex|].
    subst dble east west free. rewrite Hedges.
    unfold consistent in Hcons.
    apply andb_true_iff in Hcons. destruct Hcons as [Hcons H3].
    apply andb_true_iff in Hcons. destruct Hcons as [H1 H2].
    apply Z.eqb_eq in H1, H2, H3.
    split; [lia|]. split; [lia|].
    intros ND Hp He. apply nodupb_NoDup in ND.
    rewrite (partition_sets_unique east_angle _ ND) in Hsets.
    inversion Hsets as [[H4 H5 H6 H7]].
    rewrite <- H4, <- H5, <- H7 in *. rewrite <- ?H6.
    rewrite !length_index in H1, H3.
    apply (partition_cover_perm east_angle (edge_df s1) ND Hp He H3 H1).
  - intros s1 sets E1 E2 E3. unfold get_extra_indices.
    rewrite E1. cbn [bind]. rewrite E2. cbn [bind].
    destruct sets as [[[dble east] west] free]. rewrite E3. reflexivity.
Qed.

Lemma partition_counts_and_cover_witness :
  exists self' ex,
    get_extra_indices east_angle_exact two_triangles_geom = Ok self' /\
    extra self' = Some ex /\
    Permutation (free_edges ex ++ east_edges ex ++ west_edges ex)
                [0; 1; 2; 3; 4; 5].
Proof.
  pose (self' := match get_extra_indices east_angle_exact two_triangles_geom
                 with
                 | Ok s => s
                 | Raise _ => two_triangles_geom
                 end).
  assert (E : get_extra_indices east_angle_exact two_triangles_geom
              = Ok self') by reflexivity.
  destruct (proj1 (partition_counts_and_cover east_angle_exact
                     two_triangles_geom) self' E)
    as [ex [Hex [_ [_ Hcover]]]].
  exists self', ex. split; [exact E|]. split; [exact Hex|].
  apply Hcover; reflexivity.
Defined.

(** C3 as stated fails: on [degenerate_pairs] the three assertions pass,
    yet the half-edges 2 and 3 are in none of the three sets, and 0 and 1
    are both east and west. *)
Lemma degenerate_pairs_not_covered :
  exists self' ex,
    get_extra_indices east_angle_exact degenerate_pairs = Ok self' /\
    has_cell degenerate_pairs = false /\
    extra self' = Some ex /\
    free_edges ex = [] /\ east_edges ex = [0; 1] /\ west_edges ex = [1; 0] /\
    index (edge_df self') = [0; 1; 2; 3] /\
    ~ Permutation (free_edges ex ++ east_edges ex ++ west_edges ex)
                  (index (edge_df self')).
Proof.
  eexists. eexists. split; [vm_compute; reflexivity|].
  split; [reflexivity|]. split; [reflexivity|].
  split; [reflexivity|]. split; [reflexivity|]. split; [reflexivity|].
  split; [reflexivity|].
  intros HP. simpl in HP.
  assert (Hin : In 2 [0; 1; 1; 0]).
  { eapply Permutation_in; [symmetry; exact HP|]. simpl. auto. }
  simpl in Hin. intuition discriminate.
Qed.

(** * Further properties *)

(** ** The array of [get_opposite] *)

Lemma flat_map_length_ge {A B} (f : A -> list B) (l : list A) :
  (forall a, In a l -> f a <> []) ->
  (length l <= length (flat_map f l))%nat.
Proof.
  induction l as [|a l IH]; intros H; simpl; [lia|].
  rewrite length_app.
  assert (f a <> []) by (apply H; left; reflexivity).
  assert (length l <= length (flat_map f l))%nat
    by (apply IH; intros b Hb; apply H; right; exact Hb).
  destruct (f a); [congruence|simpl; lia].
Qed.

Lemma assign_index {A B} (set : B -> A -> A) (df df' : table A) vals :
  assign set df vals = Ok df' -> index df' = index df.
Proof.
  unfold assign. destruct (Nat.eqb_spec (length vals) (length df)) as [E|];
    [|discriminate].
  intros H. inversion H; subst; clear H. unfold index. rewrite map_map.
  simpl. revert vals E. induction df as [|r df IH]; intros [|v vals] E;
    simpl in *; try discriminate; auto.
  f_equal. apply IH. lia.
Qed.

(** X2.  On a table with unique, non-negative labels and no two half-edges
    on the same (source, target) pair, the array of [get_opposite] fits the
    table, and in the opposite column it makes every half-edge that has an
    opposite is the opposite of the half-edge it names. *)
Theorem computed_opposite_is_paired (edge_df : table edge_row) :
  NoDup (map fst (st_indexed edge_df)) ->
  NoDup (index edge_df) ->
  (forall l, In l (index edge_df) -> 0 <= l) ->
  exists edge_df',
    assign set_opposite edge_df (get_opposite edge_df) = Ok edge_df' /\
    opposite_paired edge_df' = true.
Proof.
  intros ND NDl Hpos.
  rewrite (get_opposite_unique edge_df ND).
  rewrite (assign_map set_opposite edge_df).
  set (opp := fun e : Z * edge_row =>
                match loc1 pair_eqb (st_indexed edge_df)
                            (trgt (snd e), srce (snd e)) with
                | Some l => l
                | None => -1
                end).
  exists (map (fun r => (fst r, set_opposite (opp r) (snd r))) edge_df).
  split; [reflexivity|].
  assert (Hopp : forall e, opp e =
                           match loc1 pair_eqb (st_indexed edge_df)
                                       (trgt (snd e), srce (snd e)) with
                           | Some l => l
                           | None => -1
                           end) by reflexivity.
  clearbody opp.
  set (new := map (fun r => (fst r, set_opposite (opp r) (snd r))) edge_df).
  assert (NDn : NoDup (index new)).
  { unfold new, index. rewrite map_map. simpl. exact NDl. }
  unfold opposite_paired. apply forallb_forall. intros r' Hr'.
  unfold new in Hr'. apply in_map_iff in Hr'. destruct Hr' as [r [E Hr]].
  subst r'. unfold is_dble. cbn [fst snd opposite set_opposite].
  destruct (0 <=? opp r) eqn:Ed; [|reflexivity].
  apply Z.leb_le in Ed. pose proof (Hopp r) as Hr0.
  destruct (loc1 pair_eqb (st_indexed edge_df)
              (trgt (snd r), srce (snd r))) as [l|] eqn:El; [|lia].
  destruct (loc1_st_inv edge_df r l El) as [p [Hp [Hl Hrev]]].
  rewrite Hr0.
  assert (Hin : In (l, set_opposite (opp p) (snd p)) new).
  { unfold new. apply in_map_iff. exists p. rewrite Hl. auto. }
  rewrite (loc1_In new l _ NDn Hin). cbn [opposite set_opposite].
  assert (Hback : opp p = fst r).
  { rewrite Hopp. rewrite (loc1_st_found edge_df p r ND Hr); [reflexivity|].
    destruct Hrev as [H1 H2]. split; auto. }
  rewrite Hback, Z.eqb_refl. simpl. apply Z.leb_le. apply Hpos.
  unfold index. apply in_map. exact Hr.
Qed.

Lemma computed_opposite_is_paired_witness :
  exists edge_df',
    assign set_opposite (edge_df two_triangles)
           (get_opposite (edge_df two_triangles)) = Ok edge_df' /\
    opposite_paired edge_df' = true.
Proof.
  apply computed_opposite_is_paired.
  - simpl. repeat constructor; simpl; intuition discriminate.
  - simpl. repeat constructor; simpl; intuition discriminate.
  - simpl. intros l H. intuition lia.
Defined.

(** ** Closed cells and closed faces *)

(** X3.  The strong test implies the weak one: when every half-edge of a
    group has exactly one reverse half-edge in the group
    ([_is_closed_cell]), the sources and the targets of the group are the
    same set ([_test_valid]). *)
Theorem closed_cell_is_valid (e_df : table edge_row) :
  _is_closed_cell e_df = true -> _test_valid e_df = true.
Proof.
  unfold _is_closed_cell, _test_valid. intros H.
  rewrite forallb_forall in H. apply set_eqb_spec.
  assert (Hrev : forall e, In e e_df ->
                           exists r, In r e_df /\
                                     srce (snd r) = trgt (snd e) /\
                                     trgt (snd r) = srce (snd e)).
  { intros e He. specialize (H e He). apply Nat.eqb_eq in H.
    destruct (filter _ e_df) as [|r rest] eqn:Ef; [discriminate|].
    assert (Hr : In r (filter
                         (fun r => (srce (snd r) =? trgt (snd e))
                                   && (trgt (snd r) =? srce (snd e)))
                         e_df)) by (rewrite Ef; left; reflexivity).
    apply filter_In in Hr. destruct Hr as [Hr Hb].
    apply andb_true_iff in Hb. destruct Hb as [H1 H2].
    apply Z.eqb_eq in H1, H2. eauto. }
  intros v. unfold values. rewrite !map_map, !in_map_iff. split.
  - intros [e [Ev He]]. destruct (Hrev e He) as [r [Hr [_ H2]]].
    exists r. split; [congruence|exact Hr].
  - intros [e [Ev He]]. destruct (Hrev e He) as [r [Hr [H1 _]]].
    exists r. split; [congruence|exact Hr].
Qed.

Lemma closed_cell_is_valid_witness :
  _test_valid [(0, sample_edge 0 1 0); (1, sample_edge 1 0 1)] = true.
Proof.
  apply closed_cell_is_valid. reflexivity.
Defined.

(** ** The walk of [_ordered_edges] *)

Lemma next_trgt_In srces trgts t t' :
  next_trgt srces trgts t = Ok t' -> In (t, t') (combine srces trgts).
Proof.
  unfold next_trgt.
  destruct (filter _ (combine srces trgts)) as [|st rest] eqn:E;
    [discriminate|].
  intros H. inversion H; subst; clear H.
  assert (Hin : In st (filter (fun st => fst st =? t) (combine srces trgts)))
    by (rewrite E; left; reflexivity).
  apply filter_In in Hin. destruct Hin as [Hin Ht].
  apply Z.eqb_eq in Ht. destruct st; simpl in *; subst. exact Hin.
Qed.

Lemma chain_shape srces trgts faces : forall t edges,
  chain srces trgts faces t = Ok edges ->
  map snd edges = faces /\
  (forall e, hd_error edges = Some e -> fst (fst e) = t) /\
  (forall i a b, nth_error edges i = Some a ->
                 nth_error edges (S i) = Some b ->
                 snd (fst a) = fst (fst b)) /\
  (forall e, In e edges -> In (fst e) (combine srces trgts)).
Proof.
  induction faces as [|f faces IH]; intros t edges H; simpl in H.
  - inversion H; subst. simpl. repeat split; auto.
    + intros e He. discriminate.
    + intros [|i] a b Ha; discriminate.
    + intros e [].
  - destruct (next_trgt srces trgts t) as [t'|] eqn:En; [|discriminate].
    cbn [bind] in H.
    destruct (chain srces trgts faces t') as [es|] eqn:Ec; [|discriminate].
    cbn [bind] in H. inversion H; subst; clear H.
    destruct (IH t' es Ec) as [Hf [Hh [Hc Hm]]].
    simpl. split; [rewrite Hf; reflexivity|].
    split; [intros e He; inversion He; reflexivity|]. split.
    + intros [|i] a b Ha Hb; simpl in Ha, Hb.
      * inversion Ha; subst. simpl. symmetry. apply Hh.
        destruct es; [discriminate|]. simpl in *. exact Hb.
      * eapply Hc; eassumption.
    + intros e [<-|He]; simpl; [|auto].
      apply next_trgt_In. exact En.
Qed.

(** X4.  When [_ordered_edges] returns, it returns one edge per half-edge
    of the face; the first is the first row; each edge starts at the vertex
    where the previous one ends; every edge is the (source, target) pair of
    a half-edge of the face; the face entries are the face column in table
    order. *)
Theorem ordered_edges_shape (face_edges : table edge_row) edges :
  _ordered_edges face_edges = Ok edges ->
  length edges = length face_edges /\
  map snd edges = map face (values face_edges) /\
  hd_error edges
  = option_map (fun r => (srce r, trgt r, face r))
               (hd_error (values face_edges)) /\
  (forall i a b, nth_error edges i = Some a ->
                 nth_error edges (S i) = Some b ->
                 snd (fst a) = fst (fst b)) /\
  (forall e, In e edges ->
             exists r, In r face_edges /\
                       fst e = (srce (snd r), trgt (snd r))).
Proof.
  unfold _ordered_edges. intros H.
  destruct (values face_edges) as [|e0 rest] eqn:Ev; [discriminate|].
  destruct (chain _ _ _ (trgt e0)) as [es|] eqn:Ec; [|discriminate].
  cbn [bind] in H. inversion H; subst; clear H.
  destruct (chain_shape _ _ _ _ _ Ec) as [Hf [Hh [Hc Hm]]].
  assert (Hpairs : forall p, In p (combine (map srce (e0 :: rest))
                                          (map trgt (e0 :: rest))) ->
                             exists r, In r face_edges /\
                                       p = (srce (snd r), trgt (snd r))).
  { rewrite <- Ev. unfold values. intros p Hp.
    clear -Hp. induction face_edges as [|r l IH]; simpl in Hp; [tauto|].
    destruct Hp as [<-|Hp].
    - exists r. split; [left|]; reflexivity.
    - destruct (IH Hp) as [r' [Hr' E]]. exists r'. split; [right|]; auto. }
  assert (Hlen : length face_edges = S (length rest)).
  { rewrite <- (length_values face_edges), Ev. reflexivity. }
  split.
  { simpl. rewrite <- (length_map snd es), Hf. simpl.
    rewrite length_map. lia. }
  split; [simpl; rewrite Hf; reflexivity|].
  split; [reflexivity|]. split.
  - intros [|i] a b Ha Hb; simpl in Ha, Hb.
    + inversion Ha; subst. simpl. symmetry. apply Hh.
      destruct es; [discriminate|]. simpl in *. exact Hb.
    + eapply Hc; eassumption.
  - intros e [<-|He].
    + simpl. apply Hpairs. simpl. left. reflexivity.
    + apply Hpairs. apply Hm. exact He.
Qed.

Lemma ordered_edges_shape_witness :
  exists edges,
    _ordered_edges square_face = Ok edges /\ length edges = 4%nat.
Proof.
  exists [(0, 1, 0); (1, 2, 0); (2, 3, 0); (3, 0, 0)].
  split; [reflexivity|].
  apply (proj1 (ordered_edges_shape square_face _ eq_refl)).
Defined.

Lemma next_trgt_unique (rows : list edge_row) r :
  NoDup (map srce rows) -> In r rows ->
  next_trgt (map srce rows) (map trgt rows) (srce r) = Ok (trgt r).
Proof.
  unfold next_trgt. induction rows as [|r0 rows IH]; simpl; intros ND Hin;
    [tauto|].
  inversion ND as [|? ? Hn ND']; subst.
  destruct Hin as [->|Hin].
  - rewrite Z.eqb_refl. reflexivity.
  - destruct (Z.eqb_spec (srce r0) (srce r)) as [E|_].
    + exfalso. apply Hn. rewrite E. apply in_map. exact Hin.
    + apply IH; assumption.
Qed.

Lemma chain_follows (rows : list edge_row) :
  NoDup (map srce rows) ->
  forall rest t,
    (forall r, In r rest -> In r rows) ->
    (forall r, hd_error rest = Some r -> srce r = t) ->
    (forall i a b, nth_error rest i = Some a ->
                   nth_error rest (S i) = Some b -> trgt a = srce b) ->
    chain (map srce rows) (map trgt rows) (map face rest) t
    = Ok (map (fun r => (srce r, trgt r, face r)) rest).
Proof.
  intros ND. induction rest as [|r rest IH]; intros t Hsub Hhd Hch; simpl.
  - reflexivity.
  - rewrite <- (Hhd r eq_refl).
    rewrite (next_trgt_unique rows r ND) by (apply Hsub; left; reflexivity).
    cbn [bind]. rewrite IH.
    + reflexivity.
    + intros r' Hr'. apply Hsub. right. exact Hr'.
    + intros r' Hr'. symmetry. apply (Hch 0%nat r r'); [reflexivity|].
      simpl. exact Hr'.
    + intros i a b Ha Hb. apply (Hch (S i) a b); assumption.
Qed.

(** X5.  On the half-edges of a face listed in walking order (each starts
    where the previous one ends) with pairwise distinct sources,
    [_ordered_edges] returns the rows as they are, whether or not the last
    one comes back to the first. *)
Theorem ordered_edges_of_chain (face_edges : table edge_row) :
  face_edges <> [] ->
  NoDup (map srce (values face_edges)) ->
  (forall i a b, nth_error (values face_edges) i = Some a ->
                 nth_error (values face_edges) (S i) = Some b ->
                 trgt a = srce b) ->
  _ordered_edges face_edges
  = Ok (map (fun r => (srce r, trgt r, face r)) (values face_edges)).
Proof.
  intros Hne ND Hch. unfold _ordered_edges.
  destruct (values face_edges) as [|e0 rest] eqn:Ev.
  { destruct face_edges; [congruence|discriminate]. }
  change (tl (map face (e0 :: rest))) with (map face rest).
  rewrite (chain_follows (e0 :: rest) ND rest (trgt e0)).
  - reflexivity.
  - intros r Hr. right. exact Hr.
  - intros r Hr. symmetry. apply (Hch 0%nat e0 r); [reflexivity|].
    simpl. exact Hr.
  - intros i a b Ha Hb. apply (Hch (S i) a b); assumption.
Qed.

Lemma ordered_edges_of_chain_witness :
  _ordered_edges square_face
  = Ok [(0, 1, 0); (1, 2, 0); (2, 3, 0); (3, 0, 0)].
Proof.
  apply (ordered_edges_of_chain square_face).
  - discriminate.
  - simpl. repeat constructor; simpl; intuition discriminate.
  - intros i a b Ha Hb.
    destruct i as [|[|[|[|i]]]]; simpl in Ha, Hb;
      try discriminate; inversion Ha; inversion Hb; subst; reflexivity.
Defined.

(** ** What [reset_topo] recomputes *)

Lemma mem_unique k l : mem k (unique l) = mem k l.
Proof.
  destruct (mem k l) eqn:E.
  - apply mem_In, unique_In, mem_In. exact E.
  - apply mem_false. intros H. apply (proj1 (unique_In k l)) in H.
    apply (proj2 (mem_In k l)) in H. congruence.
Qed.

(** [update_num_sides] raises when no face label is found, and stores the
    counts otherwise. *)
Lemma update_num_sides_eq self :
  update_num_sides self
  = if sides_found self then Ok (counted_sides self) else Raise KeyError.
Proof.
  unfold update_num_sides, sides_found, counted_sides.
  set (counts := value_counts (map face (values (edge_df self)))).
  assert (Hi : index counts = unique (map face (values (edge_df self)))).
  { subst counts. unfold value_counts, index. rewrite map_map.
    apply map_id. }
  destruct (face_df self) as [|f fs] eqn:Ef; [reflexivity|].
  rewrite <- Ef. unfold loc_list.
  assert (Hk : index (face_df self) = fst f :: index fs)
    by (rewrite Ef; reflexivity).
  rewrite Hk at 1.
  replace (existsb (fun k => mem k (index counts)) (index (face_df self)))
    with (existsb (fun l => mem l (map face (values (edge_df self))))
                  (index (face_df self))).
  2:{ clear Hk. induction (index (face_df self)) as [|k ks IH];
        [reflexivity|].
      cbn [existsb]. rewrite IH, Hi, mem_unique. reflexivity. }
  destruct (existsb _ (index (face_df self))); [|reflexivity].
  cbn [bind].
  rewrite (loc_unique Z.eqb Z.eqb_eq counts (index (face_df self)))
    by (change (NoDup (index counts)); rewrite Hi; apply unique_NoDup).
  unfold values, index. rewrite !map_map. cbn [snd fst].
  rewrite (assign_map set_num_sides (face_df self)
             (fun r => loc1 Z.eqb counts (fst r))).
  reflexivity.
Qed.

Lemma faces_owned_found self : faces_owned self = true -> sides_found self = true.
Proof.
  unfold faces_owned, sides_found, refs_ok. intros H.
  destruct (face_df self) as [|f fs]; [reflexivity|].
  simpl in *. apply andb_true_iff in H. destruct H as [H _].
  rewrite H. reflexivity.
Qed.

Lemma reset_topo_unfold self :
  reset_topo self =
  if sides_found self
  then
    if has_opposite (refresh_counts self)
       && negb (has_cell (refresh_counts self))
    then match assign set_opposite (edge_df (refresh_counts self))
                      (get_opposite (edge_df (refresh_counts self))) with
         | Ok e => Ok (with_edge_df e (refresh_counts self), [])
         | Raise ValueError => Ok (refresh_counts self, [opposite_warning])
         | Raise e => Raise e
         end
    else Ok (refresh_counts self, [])
  else Raise KeyError.
Proof.
  unfold reset_topo. rewrite update_num_sides_eq.
  destruct (sides_found self); reflexivity.
Qed.

(** [reset_topo] returns only when the selection of [update_num_sides]
    finds a label. *)
Lemma reset_topo_returns self res :
  reset_topo self = Ok res -> sides_found self = true.
Proof.
  rewrite reset_topo_unfold. destruct (sides_found self);
    [reflexivity|discriminate].
Qed.

Lemma reset_topo_found self :
  sides_found self = true ->
  reset_topo self =
  if has_opposite (refresh_counts self) && negb (has_cell (refresh_counts self))
  then match assign set_opposite (edge_df (refresh_counts self))
                    (get_opposite (edge_df (refresh_counts self))) with
       | Ok e => Ok (with_edge_df e (refresh_counts self), [])
       | Raise ValueError => Ok (refresh_counts self, [opposite_warning])
       | Raise e => Raise e
       end
  else Ok (refresh_counts self, []).
Proof. intros H. rewrite reset_topo_unfold, H. reflexivity. Qed.

Lemma refresh_counts_fields self :
  identifier (refresh_counts self) = identifier self /\
  coords (refresh_counts self) = coords self /\
  vert_df (refresh_counts self) = vert_df self /\
  edge_df (refresh_counts self) = edge_df self /\
  has_opposite (refresh_counts self) = has_opposite self /\
  face_df (refresh_counts self)
  = map (fun r =>
           (fst r,
            set_num_sides
              (loc1 Z.eqb (value_counts (map face (values (edge_df self))))
                    (fst r))
              (snd r)))
        (face_df self) /\
  cell_df (refresh_counts self)
  = option_map
      (map (fun r =>
              (fst r,
               set_num_faces
                 (loc1 Z.eqb
                       (map (fun g =>
                               (fst g,
                                Z.of_nat
                                  (length (unique (map face (values (snd g)))))))
                            (groupby cell (edge_df self)))
                       (fst r))
                 (snd r))))
      (cell_df self) /\
  edge_mindex (refresh_counts self) = edge_idx self /\
  bbox (refresh_counts self) = bbox self /\
  extra (refresh_counts self) = extra self.
Proof.
  destruct self as [i c v e o f [cells|] m b x]; repeat split; reflexivity.
Qed.

Lemma loc1_keyed {B} (v : Z -> B) (ks : list Z) (l : Z) :
  loc1 Z.eqb (map (fun k => (k, v k)) ks) l
  = if mem l ks then Some (v l) else None.
Proof.
  unfold loc1, rows_at, mem.
  induction ks as [|k ks IH]; simpl; [reflexivity|].
  rewrite (Z.eqb_sym l k).
  destruct (Z.eqb_spec k l) as [->|ne]; simpl; [reflexivity|exact IH].
Qed.

Lemma mem_ext k a b : (forall x, In x a <-> In x b) -> mem k a = mem k b.
Proof.
  intros H. destruct (mem k b) eqn:E.
  - apply mem_In. apply H. apply mem_In. exact E.
  - apply mem_false. intros Hk. apply H in Hk. apply mem_In in Hk. congruence.
Qed.

Lemma map_congr {A B C} (h : A -> B) (g : B -> C) (a b : list A) :
  map h a = map h b -> map (fun r => g (h r)) a = map (fun r => g (h r)) b.
Proof. intros H. rewrite <- !(map_map h g). rewrite H. reflexivity. Qed.

Lemma edge_cols_congr (a b : table edge_row) :
  map edge_keys a = map edge_keys b ->
  index a = index b /\
  map srce (values a) = map srce (values b) /\
  map trgt (values a) = map trgt (values b) /\
  map face (values a) = map face (values b) /\
  map cell (values a) = map cell (values b).
Proof.
  intros H. unfold index, values. rewrite !map_map.
  repeat split.
  - exact (map_congr edge_keys (fun k => fst (fst k)) a b H).
  - exact (map_congr edge_keys (fun k => fst (fst (fst (snd (fst k))))) a b H).
  - exact (map_congr edge_keys (fun k => snd (fst (fst (snd (fst k))))) a b H).
  - exact (map_congr edge_keys (fun k => snd (fst (snd (fst k)))) a b H).
  - exact (map_congr edge_keys (fun k => snd (snd (fst k))) a b H).
Qed.

Lemma get_opposite_keys (a b : table edge_row) :
  map edge_keys a = map edge_keys b -> get_opposite a = get_opposite b.
Proof.
  intros H. unfold get_opposite.
  assert (E : st_indexed a = st_indexed b).
  { unfold st_indexed.
    exact (map_congr edge_keys
             (fun k => ((fst (fst (fst (snd (fst k)))),
                         snd (fst (fst (snd (fst k))))), fst (fst k)))
             a b H). }
  rewrite E. reflexivity.
Qed.

Lemma groupby_congr (a b : table edge_row) :
  map edge_keys a = map edge_keys b ->
  map (fun g => (fst g, Z.of_nat (length (unique (map face (values (snd g)))))))
      (groupby cell a)
  = map (fun g => (fst g, Z.of_nat (length (unique (map face (values (snd g)))))))
        (groupby cell b).
Proof.
  intros H. unfold groupby. rewrite !map_map. simpl.
  destruct (edge_cols_congr a b H) as [_ [_ [_ [_ Hc]]]]. rewrite Hc.
  apply map_ext. intros k. f_equal. f_equal. f_equal. f_equal.
  clear Hc. revert b H.
  induction a as [|r a IH]; intros [|r' b] H; try discriminate;
    [reflexivity|].
  simpl in H. inversion H as [[H1 H2 H3 H4 H5 H6 H7 H8]]. simpl.
  rewrite H5. destruct (cell (snd r') =? k); simpl.
  - f_equal; [exact H4|]. apply IH. exact H8.
  - apply IH. exact H8.
Qed.

Lemma same_keys_sym a b : same_keys a b -> same_keys b a.
Proof.
  unfold same_keys. intros H.
  repeat match goal with H : _ /\ _ |- _ => destruct H end.
  repeat split; symmetry; assumption.
Qed.

Lemma has_cell_congr a b :
  option_map index (cell_df a) = option_map index (cell_df b) ->
  has_cell a = has_cell b /\ element_names a = element_names b.
Proof.
  intros H. unfold element_names. rewrite !has_cell_spec. unfold data_names.
  destruct (cell_df a), (cell_df b); try discriminate; split; reflexivity.
Qed.

Lemma well_formed_congr a b :
  index (vert_df a) = index (vert_df b) ->
  map edge_keys (edge_df a) = map edge_keys (edge_df b) ->
  index (face_df a) = index (face_df b) ->
  option_map index (cell_df a) = option_map index (cell_df b) ->
  well_formed a = well_formed b.
Proof.
  intros Hv He Hf Hc. unfold well_formed.
  destruct (edge_cols_congr _ _ He) as [Hi [Hs [Ht [Hfa Hce]]]].
  rewrite Hv, Hi, Hf, Hs, Ht, Hfa, Hce.
  destruct (cell_df a), (cell_df b); try discriminate; [|reflexivity].
  simpl in Hc. inversion Hc as [Hc']. unfold index in *. rewrite Hc'.
  reflexivity.
Qed.

Lemma refresh_counts_congr a b :
  same_keys a b ->
  refresh_counts a = with_edge_df (edge_df a) (refresh_counts b).
Proof.
  intros (Hi & Hc & Hv & He & Ho & Hf & Hce & Hb & Hx).
  destruct (refresh_counts_fields a)
    as (A1 & A2 & A3 & A4 & A5 & A6 & A7 & A8 & A9 & A10).
  destruct (refresh_counts_fields b)
    as (B1 & B2 & B3 & B4 & B5 & B6 & B7 & B8 & B9 & B10).
  destruct (edge_cols_congr _ _ He) as [Hix [Hs [Ht [Hfa Hcl]]]].
  apply eptm_ext; cbn [identifier coords vert_df edge_df has_opposite face_df
                       cell_df edge_mindex bbox extra with_edge_df];
    try congruence.
  - rewrite A6, B6, Hfa.
    exact (map_congr (fun r => (fst r, is_alive (snd r)))
             (fun k => (fst k, mk_face (loc1 Z.eqb (value_counts
                          (map face (values (edge_df b)))) (fst k)) (snd k)))
             _ _ Hf).
  - rewrite A7, B7, (groupby_congr _ _ He).
    destruct (cell_df a) as [ca|], (cell_df b) as [cb|]; try discriminate;
      [|reflexivity].
    simpl in Hce. inversion Hce as [Hce']. simpl. f_equal.
    exact (map_congr fst
             (fun k => (k, mk_cell (loc1 Z.eqb
                (map (fun g => (fst g, Z.of_nat (length (unique (map face
                   (values (snd g))))))) (groupby cell (edge_df b))) k)))
             _ _ Hce').
  - rewrite A8, B8. unfold edge_idx.
    destruct (has_cell_congr a b Hce) as [_ Hn]. rewrite Hn.
    set (n := element_names b).
    exact (map_congr edge_keys
             (fun k => map (fun e => match e with
                                     | Srce => fst (fst (fst (snd (fst k))))
                                     | Trgt => snd (fst (fst (snd (fst k))))
                                     | Face => snd (fst (snd (fst k)))
                                     | Cell => snd (snd (fst k))
                                     end) n)
             _ _ He).
Qed.

Lemma sides_found_congr a b : same_keys a b -> sides_found a = sides_found b.
Proof.
  intros (_ & _ & _ & He & _ & Hf & _).
  destruct (edge_cols_congr _ _ He) as [_ [_ [_ [Hfa _]]]].
  assert (Hi : index (face_df a) = index (face_df b)).
  { unfold index.
    exact (map_congr (fun r => (fst r, is_alive (snd r))) fst _ _ Hf). }
  unfold sides_found. rewrite Hfa, Hi.
  destruct (face_df a), (face_df b); try discriminate; reflexivity.
Qed.

Lemma assign_keys (df df' : table edge_row) vals :
  assign set_opposite df vals = Ok df' ->
  map edge_keys df' = map edge_keys df.
Proof.
  unfold assign. destruct (Nat.eqb_spec (length vals) (length df)) as [E|];
    [|discriminate].
  intros H. inversion H; subst; clear H. revert vals E.
  induction df as [|r df IH]; intros [|v vals] E; try discriminate;
    [reflexivity|].
  simpl. f_equal. apply IH. simpl in E. lia.
Qed.

Lemma assign_twice {A B} (set : B -> A -> A) (df df' : table A) vals :
  (forall v r, set v (set v r) = set v r) ->
  assign set df vals = Ok df' -> assign set df' vals = Ok df'.
Proof.
  intros Hset. unfold assign.
  destruct (Nat.eqb_spec (length vals) (length df)) as [E|]; [|discriminate].
  intros H. inversion H; subst; clear H.
  rewrite length_map, length_combine, E, Nat.min_id, Nat.eqb_refl.
  f_equal. revert vals E.
  induction df as [|r df IH]; intros [|v vals] E; try discriminate;
    [reflexivity|].
  simpl. rewrite Hset. f_equal. apply IH. simpl in E. lia.
Qed.

Lemma with_edge_df_same self : with_edge_df (edge_df self) self = self.
Proof. apply eptm_ext; reflexivity. Qed.

Lemma reset_topo_same_keys self s' w :
  reset_topo self = Ok (s', w) ->
  same_keys s' self /\ s' = with_edge_df (edge_df s') (refresh_counts self).
Proof.
  intros H0. pose proof (reset_topo_returns _ _ H0) as Hsf.
  revert H0. rewrite (reset_topo_found self Hsf).
  destruct (refresh_counts_fields self)
    as (A1 & A2 & A3 & A4 & A5 & A6 & A7 & A8 & A9 & A10).
  assert (Hf : map (fun r => (fst r, is_alive (snd r)))
                   (face_df (refresh_counts self))
               = map (fun r => (fst r, is_alive (snd r))) (face_df self)).
  { rewrite A6, map_map. reflexivity. }
  assert (Hc : option_map index (cell_df (refresh_counts self))
               = option_map index (cell_df self)).
  { rewrite A7. destruct (cell_df self); [|reflexivity]. simpl. f_equal.
    unfold index. rewrite map_map. reflexivity. }
  assert (base : same_keys (refresh_counts self) self).
  { unfold same_keys. rewrite A4. repeat split; assumption. }
  destruct (has_opposite (refresh_counts self)
            && negb (has_cell (refresh_counts self))).
  - destruct (assign set_opposite (edge_df (refresh_counts self))
                     (get_opposite (edge_df (refresh_counts self))))
      as [e|[]] eqn:E; intros H; inversion H; subst; clear H.
    + split; [|reflexivity].
      apply assign_keys in E. rewrite A4 in E.
      unfold same_keys.
      cbn [identifier coords vert_df edge_df has_opposite face_df
           cell_df edge_mindex bbox extra with_edge_df].
      repeat split; assumption.
    + split; [exact base|]. symmetry. apply with_edge_df_same.
  - intros H. inversion H; subst; clear H.
    split; [exact base|]. symmetry. apply with_edge_df_same.
Qed.

(** ** Duplicated directed edges *)

Lemma flat_map_longer {A B} (f : A -> list B) (l : list A) x :
  (forall a, In a l -> f a <> []) ->
  In x l -> (2 <= length (f x))%nat ->
  (length l < length (flat_map f l))%nat.
Proof.
  induction l as [|a l IH]; simpl; intros H Hx H2; [tauto|].
  rewrite length_app.
  assert (H1 : (1 <= length (f a))%nat).
  { pose proof (H a (or_introl eq_refl)). destruct (f a); [congruence|].
    simpl. lia. }
  destruct Hx as [->|Hx].
  - pose proof (flat_map_length_ge f l (fun a0 Ha => H a0 (or_intror Ha))).
    lia.
  - pose proof (IH (fun a0 Ha => H a0 (or_intror Ha)) Hx H2). lia.
Qed.

(** A key that occurs twice has two rows. *)
Lemma duplicated_key_rows {A} (df : list ((Z * Z) * A)) :
  ~ NoDup (map fst df) ->
  exists k, In k (map fst df) /\ (2 <= length (rows_at pair_eqb df k))%nat.
Proof.
  induction df as [|[k a] df IH]; simpl; intros H.
  - exfalso. apply H. constructor.
  - destruct (in_dec (fun p q : Z * Z =>
                        match Z.eq_dec (fst p) (fst q),
                              Z.eq_dec (snd p) (snd q) with
                        | left e1, left e2 => left (injective_projections _ _ e1 e2)
                        | right n, _ => right (fun E => n (f_equal fst E))
                        | _, right n => right (fun E => n (f_equal snd E))
                        end) k (map fst df)) as [Hin|Hn].
    + exists k. split; [left; reflexivity|].
      unfold rows_at. simpl.
      replace (pair_eqb k k) with true
        by (symmetry; apply pair_eqb_eq; reflexivity).
      simpl. apply in_map_iff in Hin. destruct Hin as [[k' a'] [E Hin]].
      simpl in E. subst k'.
      assert (Hf : In (k, a') (filter (fun r => pair_eqb (fst r) k) df)).
      { apply filter_In. split; [exact Hin|]. apply pair_eqb_eq. reflexivity. }
      destruct (filter (fun r => pair_eqb (fst r) k) df); [destruct Hf|].
      simpl. lia.
    + destruct IH as [k' [Hk' Hl]].
      { intros ND. apply H. constructor; assumption. }
      exists k'. split; [right; exact Hk'|].
      unfold rows_at in *. simpl.
      destruct (pair_eqb k k'); simpl; lia.
Qed.

(** When every half-edge has a reversed half-edge and a pair is
    duplicated, [get_opposite] returns more entries than there are
    half-edges. *)
Lemma get_opposite_longer (edges : table edge_row) :
  (forall e, In e edges -> exists r, In r edges /\ reversed e r) ->
  ~ NoDup (map fst (st_indexed edges)) ->
  (length edges < length (get_opposite edges))%nat.
Proof.
  intros Hrev Hdup. unfold get_opposite, values, loc.
  rewrite !length_map.
  destruct (duplicated_key_rows (st_indexed edges) Hdup) as [k [Hk H2]].
  assert (Hlen : length edges
                 = length (swaplevel (map fst (st_indexed edges)))).
  { unfold swaplevel, st_indexed. rewrite !length_map. reflexivity. }
  rewrite Hlen. apply (flat_map_longer _ _ k).
  - intros a _. destruct (rows_at pair_eqb (st_indexed edges) a);
      discriminate.
  - unfold st_indexed in Hk. rewrite map_map in Hk. apply in_map_iff in Hk.
    destruct Hk as [e [Ek He]]. cbn [fst] in Ek.
    destruct (Hrev e He) as [r [Hr [Hs Ht]]].
    unfold swaplevel, st_indexed. rewrite !map_map. apply in_map_iff.
    exists r. split; [|exact Hr]. cbn [fst snd]. rewrite Hs, Ht.
    rewrite <- Ek. reflexivity.
  - destruct (rows_at pair_eqb (st_indexed edges) k) as [|p rest];
      [simpl in H2; lia|].
    rewrite length_map. exact H2.
Qed.

(** C6 (as the code has it).  On an epithelium without cells that has an
    opposite column, where every face owns a half-edge and every half-edge
    has a half-edge running the other way: when two half-edges share their
    (source, target) pair, [reset_topo] raises nothing and picks no
    candidate.  [get_opposite] returns more entries than there are
    half-edges, the [ValueError] of the assignment is caught, the edge
    table is left as it was and one warning is emitted. *)
Theorem reset_topo_warns (self : Epithelium) :
  has_cell self = false ->
  has_opposite self = true ->
  faces_owned self = true ->
  (forall e, In e (edge_df self) ->
             exists r, In r (edge_df self) /\ reversed e r) ->
  ~ NoDup (map fst (st_indexed (edge_df self))) ->
  (length (edge_df self) < length (get_opposite (edge_df self)))%nat /\
  exists self',
    reset_topo self = Ok (self', [opposite_warning]) /\
    edge_df self' = edge_df self.
Proof.
  intros Hc Ho Hown Hrev Hdup.
  pose proof (get_opposite_longer (edge_df self) Hrev Hdup) as Hlen.
  split; [exact Hlen|].
  rewrite (reset_topo_found self (faces_owned_found self Hown)).
  destruct (refresh_counts_fields self)
    as (_ & _ & _ & A4 & A5 & _ & A7 & _).
  assert (Hhc : has_cell (refresh_counts self) = has_cell self).
  { rewrite !has_cell_spec, A7. destruct (cell_df self); reflexivity. }
  rewrite A5, Hhc, Ho, Hc, A4. cbn [andb negb].
  unfold assign.
  destruct (Nat.eqb_spec (length (get_opposite (edge_df self)))
                         (length (edge_df self))) as [E|_]; [lia|].
  exists (refresh_counts self). split; [reflexivity|exact A4].
Qed.

Lemma reset_topo_warns_witness :
  exists self',
    reset_topo duplicated_edge_face = Ok (self', [opposite_warning]) /\
    edge_df self' = edge_df duplicated_edge_face.
Proof.
  refine (proj2 (reset_topo_warns duplicated_edge_face eq_refl eq_refl
                   eq_refl _ _)).
  - intros e He. simpl in He.
    destruct He as [<-|[<-|[<-|[]]]].
    + exists (2, sample_edge 1 0 0). simpl. unfold reversed. simpl. auto.
    + exists (2, sample_edge 1 0 0). simpl. unfold reversed. simpl. auto.
    + exists (0, sample_edge 0 1 0). simpl. unfold reversed. simpl. auto.
  - intros ND. simpl in ND. inversion ND as [|? ? Hn _]; subst.
    apply Hn. simpl. auto.
Defined.

(** C6 as stated fails: with the directed edge from 0 to 1 twice in the
    table, [get_opposite] returns an array (of four entries for three
    half-edges) and [reset_topo] returns normally, with a warning. *)
Lemma duplicate_pair_only_warns :
  ~ NoDup (map fst (st_indexed (edge_df duplicated_edge_face))) /\
  get_opposite (edge_df duplicated_edge_face) = [2; 2; 0; 1] /\
  reset_topo duplicated_edge_face <> Raise TopologyError /\
  exists self',
    reset_topo duplicated_edge_face = Ok (self', [opposite_warning]).
Proof.
  split; [|split; [|split]].
  - intros ND. simpl in ND. inversion ND as [|? ? Hn _]; subst.
    apply Hn. simpl. auto.
  - reflexivity.
  - vm_compute. discriminate.
  - eexists. vm_compute. reflexivity.
Qed.

(** X6.  [reset_topo] touches derived data only: the vertex table, the
    labels of every table, the foreign keys and the vectors of the
    half-edges, the [is_alive] column and the settings are as before, and
    so are the table invariants. *)
Theorem reset_topo_keeps_keys self s' w :
  reset_topo self = Ok (s', w) ->
  same_keys s' self /\ well_formed s' = well_formed self.
Proof.
  intros H. apply reset_topo_same_keys in H. destruct H as [H _].
  split; [exact H|].
  destruct H as (Hi & Hc & Hv & He & Ho & Hf & Hce & Hb & Hx).
  apply well_formed_congr; try assumption.
  - rewrite Hv. reflexivity.
  - unfold index.
    exact (map_congr (fun r => (fst r, is_alive (snd r))) fst _ _ Hf).
Qed.

Lemma reset_topo_keeps_keys_witness :
  exists s' w,
    reset_topo two_triangles = Ok (s', w) /\
    vert_df s' = vert_df two_triangles /\ well_formed s' = true.
Proof.
  eexists _, _. split; [reflexivity|].
  destruct (reset_topo_keeps_keys two_triangles _ _ eq_refl)
    as [(_ & _ & Hv & _) Hw].
  split; [exact Hv|]. rewrite Hw. reflexivity.
Defined.

(** X7.  After [reset_topo], the [num_sides] of a face is the number of
    half-edges whose face column names it, and NaN for a face that no
    half-edge names. *)
Theorem reset_topo_num_sides self s' w :
  reset_topo self = Ok (s', w) ->
  forall l f,
    In (l, f) (face_df s') ->
    num_sides f
    = if mem l (map face (values (edge_df self)))
      then Some (count l (map face (values (edge_df self))))
      else None.
Proof.
  intros H l f Hin. apply reset_topo_same_keys in H. destruct H as [_ H].
  rewrite H in Hin. cbn [face_df with_edge_df] in Hin.
  destruct (refresh_counts_fields self)
    as (_ & _ & _ & _ & _ & A6 & _).
  rewrite A6 in Hin. apply in_map_iff in Hin.
  destruct Hin as [r [E _]]. inversion E; subst; clear E.
  cbn [num_sides set_num_sides]. unfold value_counts.
  rewrite (loc1_keyed (fun k => count k (map face (values (edge_df self))))).
  apply (f_equal (fun b : bool => if b then _ else _)).
  apply mem_ext. intros k. apply unique_In.
Qed.

Lemma reset_topo_num_sides_witness :
  exists s' w,
    reset_topo two_triangles = Ok (s', w) /\
    forall l f, In (l, f) (face_df s') -> num_sides f = Some 3.
Proof.
  eexists _, _. split; [reflexivity|]. intros l f H.
  rewrite (reset_topo_num_sides two_triangles _ _ eq_refl l f H).
  destruct H as [H|[H|[]]]; inversion H; reflexivity.
Defined.

(** X8.  After [reset_topo] on a mesh with cells, the [num_faces] of a
    cell is the number of distinct faces among the half-edges whose cell
    column names it, and NaN for a cell that no half-edge names. *)
Theorem reset_topo_num_faces self s' w cells' :
  reset_topo self = Ok (s', w) ->
  cell_df s' = Some cells' ->
  forall l c,
    In (l, c) cells' ->
    num_faces c
    = if mem l (map cell (values (edge_df self)))
      then Some (Z.of_nat (length (unique (map face (values
             (filter (fun r => cell (snd r) =? l) (edge_df self)))))))
      else None.
Proof.
  intros H Hc l c Hin. apply reset_topo_same_keys in H. destruct H as [_ H].
  rewrite H in Hc. cbn [cell_df with_edge_df] in Hc.
  destruct (refresh_counts_fields self)
    as (_ & _ & _ & _ & _ & _ & A7 & _).
  rewrite A7 in Hc. destruct (cell_df self) as [cells|]; [|discriminate].
  simpl in Hc. inversion Hc; subst; clear Hc.
  apply in_map_iff in Hin. destruct Hin as [r [E _]].
  inversion E; subst; clear E.
  cbn [num_faces set_num_faces]. unfold groupby. rewrite map_map.
  cbn [fst snd].
  rewrite (loc1_keyed
             (fun k => Z.of_nat (length (unique (map face (values
                (filter (fun r0 => cell (snd r0) =? k) (edge_df self)))))))).
  apply (f_equal (fun b : bool => if b then _ else _)).
  apply mem_ext. intros k. apply np_unique_In.
Qed.

Lemma reset_topo_num_faces_witness :
  exists s' w cells',
    reset_topo two_cells = Ok (s', w) /\ cell_df s' = Some cells' /\
    forall l c, In (l, c) cells' ->
                num_faces c = nth (Z.to_nat l) [Some 2; Some 1] None.
Proof.
  eexists _, _, _. split; [reflexivity|]. split; [reflexivity|].
  intros l c H.
  rewrite (reset_topo_num_faces two_cells _ _ _ eq_refl eq_refl l c H).
  destruct H as [H|[H|[H|[]]]]; inversion H; reflexivity.
Defined.

(** X9.  [reset_topo] is idempotent: a second call returns the state of
    the first, with the same warnings. *)
Theorem reset_topo_idempotent self s' w :
  reset_topo self = Ok (s', w) -> reset_topo s' = Ok (s', w).
Proof.
  intros H. pose proof (reset_topo_same_keys _ _ _ H) as [Hk Hs].
  assert (Hr : refresh_counts s' = s').
  { rewrite (refresh_counts_congr s' self Hk). symmetry. exact Hs. }
  pose proof (reset_topo_returns _ _ H) as Hsf.
  rewrite (reset_topo_found s') by (rewrite (sides_found_congr s' self Hk);
                                    exact Hsf).
  rewrite Hr. rewrite (reset_topo_found self Hsf) in H.
  destruct Hk as (_ & _ & _ & He & Ho & _ & Hce & _).
  destruct (has_cell_congr s' self Hce) as [Hhc _].
  destruct (refresh_counts_fields self)
    as (_ & _ & _ & A4 & A5 & _ & A7 & _).
  assert (Hhc' : has_cell (refresh_counts self) = has_cell self).
  { rewrite !has_cell_spec, A7. destruct (cell_df self); reflexivity. }
  rewrite A5, Hhc', A4 in H. rewrite Ho, Hhc.
  destruct (has_opposite self && negb (has_cell self)).
  - rewrite (get_opposite_keys _ _ He).
    destruct (assign set_opposite (edge_df self)
                     (get_opposite (edge_df self))) as [e|[]] eqn:E;
      inversion H; subst; clear H.
    + cbn [edge_df with_edge_df].
      rewrite (assign_twice set_opposite _ _ _ (fun v r => eq_refl) E).
      reflexivity.
    + rewrite A4, E. reflexivity.
  - inversion H; subst. reflexivity.
Qed.

Lemma reset_topo_idempotent_witness :
  exists s' w,
    reset_topo duplicated_edge_face = Ok (s', w) /\
    reset_topo s' = Ok (s', w).
Proof.
  eexists _, _. split; [reflexivity|].
  exact (reset_topo_idempotent duplicated_edge_face _ _ eq_refl).
Defined.

(** ** [reset_index] and the table invariants *)

Lemma In_arange k n : In k (arange n) <-> 0 <= k < Z.of_nat n.
Proof.
  unfold arange. rewrite in_map_iff. split.
  - intros [m [E Hm]]. apply in_seq in Hm. lia.
  - intros H. exists (Z.to_nat k). split; [lia|]. apply in_seq. lia.
Qed.

Lemma NoDup_arange n : NoDup (arange n).
Proof.
  unfold arange. generalize 0%nat as s.
  induction n as [|n IH]; intros s; simpl; constructor; [|apply IH].
  intros Hin. apply in_map_iff in Hin. destruct Hin as [m [E Hm]].
  apply in_seq in Hm. lia.
Qed.

Lemma lookup_renumbered_In {A} (df : table A) k :
  NoDup (index df) -> In k (index df) ->
  In (lookup 0 (new_idx df) k) (arange (length df)).
Proof.
  intros ND Hin.
  destruct (same_row_renumbered df k ND Hin) as [n [a [_ [_ [_ H]]]]].
  rewrite length_reset_index_drop in H. apply In_arange. exact H.
Qed.

Lemma lookup_dense {A} (df : table A) k :
  In k (arange (length df)) ->
  lookup 0 (new_idx (reset_index_drop df)) k = k.
Proof.
  intros H. apply In_arange in H.
  destruct (nth_error df (Z.to_nat k)) as [[l a]|] eqn:E.
  - rewrite (lookup_new_idx (reset_index_drop df) (Z.to_nat k) k a).
    + lia.
    + rewrite index_reset_index_drop. apply NoDup_arange.
    + rewrite (nth_error_reset_index_drop df _ l a E). f_equal. f_equal. lia.
  - apply nth_error_None in E. lia.
Qed.

Lemma reset_index_drop_idem {A} (df : table A) :
  reset_index_drop (reset_index_drop df) = reset_index_drop df.
Proof.
  unfold reset_index_drop at 1.
  rewrite length_reset_index_drop, values_reset_index_drop. reflexivity.
Qed.

Lemma reset_index_drop_values {A} (a b : table A) :
  values a = values b -> reset_index_drop a = reset_index_drop b.
Proof.
  intros H. unfold reset_index_drop. rewrite H.
  rewrite <- (length_values a), <- (length_values b), H. reflexivity.
Qed.

Lemma renumbered_wf self :
  well_formed self = true ->
  well_formed
    (mk_eptm (identifier self) (coords self)
             (reset_index_drop (vert_df self))
             (reset_index_drop
                (map (fun r => (fst r, renumber_keys self (snd r)))
                     (edge_df self)))
             (has_opposite self)
             (reset_index_drop (face_df self))
             (option_map reset_index_drop (cell_df self))
             (edge_mindex self) (bbox self) (extra self)) = true.
Proof.
  intros Hwf. apply well_formed_spec in Hwf.
  destruct Hwf as (Nv & Ne & Nf & Hs & Ht & Hf & Hc).
  apply well_formed_spec.
  cbn [vert_df edge_df face_df cell_df].
  rewrite !index_reset_index_drop, !values_reset_index_drop.
  unfold values. rewrite !map_map. cbn [snd].
  assert (P : forall (g : edge_row -> Z) k,
             In k (map (fun r : Z * edge_row => g (snd r)) (edge_df self)) ->
             In k (map g (values (edge_df self)))).
  { intros g k H. unfold values. rewrite map_map. exact H. }
  split; [apply NoDup_arange|]. split; [apply NoDup_arange|].
  split; [apply NoDup_arange|].
  split; [|split; [|split]].
  - intros k H. apply in_map_iff in H. destruct H as [r [E Hr]]. subst k.
    cbn [srce renumber_keys]. apply lookup_renumbered_In; [exact Nv|].
    apply Hs. apply P. apply in_map_iff. eauto.
  - intros k H. apply in_map_iff in H. destruct H as [r [E Hr]]. subst k.
    cbn [trgt renumber_keys]. apply lookup_renumbered_In; [exact Nv|].
    apply Ht. apply P. apply in_map_iff. eauto.
  - intros k H. apply in_map_iff in H. destruct H as [r [E Hr]]. subst k.
    cbn [face renumber_keys]. apply lookup_renumbered_In; [exact Nf|].
    apply Hf. apply P. apply in_map_iff. eauto.
  - destruct (cell_df self) as [cells|] eqn:Ec; [|exact I].
    cbn [option_map]. destruct Hc as [Nc Hc].
    rewrite index_reset_index_drop. split; [apply NoDup_arange|].
    intros k H. apply in_map_iff in H. destruct H as [r [E Hr]]. subst k.
    unfold renumber_keys. rewrite Ec. cbn [cell].
    apply lookup_renumbered_In; [exact Nc|].
    apply Hc. apply P. apply in_map_iff. eauto.
Qed.

(** X10.  On tables that meet the invariants, [reset_index] succeeds and
    its result meets them again: labels are unique and every foreign key
    names a row of the renumbered tables. *)
Theorem reset_index_keeps_invariants self :
  well_formed self = true ->
  exists self', reset_index self = Ok self' /\ well_formed self' = true.
Proof.
  intros Hwf. rewrite (reset_index_eq self Hwf). eexists.
  split; [reflexivity|]. apply renumbered_wf. exact Hwf.
Qed.

Lemma reset_index_keeps_invariants_witness :
  exists self',
    reset_index sparse_triangle = Ok self' /\ well_formed self' = true.
Proof. exact (reset_index_keeps_invariants sparse_triangle eq_refl). Defined.

(** X11.  [reset_index] is idempotent on tables that meet the invariants:
    renumbering tables that were just renumbered changes nothing. *)
Theorem reset_index_idempotent self self' :
  well_formed self = true ->
  reset_index self = Ok self' -> reset_index self' = Ok self'.
Proof.
  intros Hwf H. pose proof (renumbered_wf self Hwf) as Hwf'.
  rewrite (reset_index_eq self Hwf) in H. injection H as Hs.
  rewrite Hs in Hwf'. rewrite (reset_index_eq self' Hwf'). f_equal.
  apply well_formed_spec in Hwf.
  destruct Hwf as (Nv & Ne & Nf & Hsr & Htr & Hfa & Hce).
  assert (P : forall (g : edge_row -> Z) r,
             In r (values (edge_df self)) ->
             In (g r) (map g (values (edge_df self)))).
  { intros g r Hr. apply in_map. exact Hr. }
  assert (Hv : values (edge_df self')
               = map (renumber_keys self) (values (edge_df self))).
  { rewrite <- Hs. cbn [edge_df]. rewrite values_reset_index_drop.
    unfold values. rewrite !map_map. reflexivity. }
  apply eptm_ext; cbn [identifier coords vert_df edge_df has_opposite face_df
                       cell_df edge_mindex bbox extra]; try reflexivity.
  - rewrite <- Hs. cbn [vert_df]. apply reset_index_drop_idem.
  - transitivity (reset_index_drop (edge_df self')).
    2:{ rewrite <- Hs. cbn [edge_df]. apply reset_index_drop_idem. }
    apply reset_index_drop_values.
    transitivity (map (renumber_keys self') (values (edge_df self'))).
    { unfold values. rewrite !map_map. reflexivity. }
    rewrite Hv, map_map. apply map_ext_in. intros r Hr.
    set (r' := renumber_keys self r).
    unfold renumber_keys at 1. rewrite <- Hs.
    cbn [vert_df face_df cell_df].
    assert (E1 : lookup 0 (new_idx (reset_index_drop (vert_df self))) (srce r')
                 = srce r').
    { apply lookup_dense. subst r'. cbn [srce renumber_keys].
      apply lookup_renumbered_In; [exact Nv|]. apply Hsr. apply P. exact Hr. }
    assert (E2 : lookup 0 (new_idx (reset_index_drop (vert_df self))) (trgt r')
                 = trgt r').
    { apply lookup_dense. subst r'. cbn [trgt renumber_keys].
      apply lookup_renumbered_In; [exact Nv|]. apply Htr. apply P. exact Hr. }
    assert (E3 : lookup 0 (new_idx (reset_index_drop (face_df self))) (face r')
                 = face r').
    { apply lookup_dense. subst r'. cbn [face renumber_keys].
      apply lookup_renumbered_In; [exact Nf|]. apply Hfa. apply P. exact Hr. }
    rewrite E1, E2, E3.
    assert (E4 : match option_map reset_index_drop (cell_df self) with
                 | Some cells => lookup 0 (new_idx cells) (cell r')
                 | None => cell r'
                 end = cell r').
    { subst r'. destruct (cell_df self) as [cells|] eqn:Ec; [|reflexivity].
      cbn [option_map]. destruct Hce as [Nc Hce].
      apply lookup_dense. unfold renumber_keys. rewrite Ec. cbn [cell].
      apply lookup_renumbered_In; [exact Nc|]. apply Hce. apply P. exact Hr. }
    rewrite E4. destruct r'. reflexivity.
  - rewrite <- Hs. cbn [face_df]. apply reset_index_drop_idem.
  - rewrite <- Hs. cbn [cell_df]. destruct (cell_df self); [|reflexivity].
    cbn [option_map]. f_equal. apply reset_index_drop_idem.
Qed.

Lemma reset_index_idempotent_witness :
  exists self',
    reset_index sparse_triangle = Ok self' /\ reset_index self' = Ok self'.
Proof.
  destruct (reset_index sparse_triangle) as [s|e] eqn:E;
    [|vm_compute in E; discriminate].
  exists s. split; [reflexivity|].
  exact (reset_index_idempotent sparse_triangle s eq_refl E).
Defined.

(** ** [get_invalid] and [sanitize] on a sheet *)

Lemma groupby_loc1 {A B} (key : A -> Z) (h : table A -> B) (df : table A) k :
  loc1 Z.eqb (map (fun g => (fst g, h (snd g))) (groupby key df)) k
  = if mem k (map key (values df))
    then Some (h (filter (fun r => key (snd r) =? k) df))
    else None.
Proof.
  unfold groupby. rewrite map_map. cbn [fst snd].
  rewrite (loc1_keyed (fun k => h (filter (fun r => key (snd r) =? k) df))).
  apply (f_equal (fun b : bool => if b then _ else _)).
  apply mem_ext. intros x. apply np_unique_In.
Qed.

Lemma groupby_index {A B} (key : A -> Z) (h : table A -> B) (df : table A) :
  index (map (fun g => (fst g, h (snd g))) (groupby key df))
  = np_unique (map key (values df)).
Proof.
  unfold index, groupby. rewrite !map_map. cbn [fst]. apply map_id.
Qed.

Lemma combine_map_map {A B C} (f : A -> B) (g : A -> C) (l : list A) :
  combine (map f l) (map g l) = map (fun a => (f a, g a)) l.
Proof. induction l as [|a l IH]; simpl; [|rewrite IH]; reflexivity. Qed.


(** The mask of [get_invalid] when there is no cell table. *)
Lemma get_invalid_sheet self :
  has_cell self = false ->
  get_invalid self
  = Ok (map (fun r =>
               (fst r,
                _test_invalid
                  (filter (fun r' => face (snd r') =? face (snd r))
                          (edge_df self))))
            (edge_df self)).
Proof.
  intros Hc. unfold get_invalid, upcast_face. rewrite Hc.
  set (T := map (fun g => (fst g, _test_invalid (snd g)))
                (groupby face (edge_df self))).
  assert (NT : NoDup (index T)).
  { subst T. rewrite groupby_index. apply np_unique_NoDup. }
  assert (HT : forall k, In k (map face (values (edge_df self))) ->
                        In k (index T)).
  { intros k Hk. subst T. rewrite groupby_index. apply np_unique_In.
    exact Hk. }
  rewrite (upcast_series self T _ NT HT)
    by (unfold values; rewrite !length_map; reflexivity).
  cbn [bind].
  rewrite (no_nan_present T false) by exact HT.
  cbn [bind]. f_equal. unfold index, values. rewrite !map_map.
  rewrite combine_map_map. apply map_ext_in. intros r Hr. f_equal.
  unfold lookup. subst T. rewrite groupby_loc1.
  assert (Hm : mem (face (snd r)) (map face (values (edge_df self))) = true).
  { apply mem_In. apply in_map. apply in_map. exact Hr. }
  rewrite Hm. reflexivity.
Qed.



(** X12.  On a sheet (no cell table) [get_invalid] never raises, whatever
    the tables hold: the mask has one entry per half-edge, under the label
    of the half-edge, and the entry tells whether the half-edges of its
    face fail [_test_valid]. *)
Theorem get_invalid_mask self :
  has_cell self = false ->
  exists mask,
    get_invalid self = Ok mask /\
    index mask = index (edge_df self) /\
    forall i l r,
      nth_error (edge_df self) i = Some (l, r) ->
      nth_error mask i
      = Some (l, negb (_test_valid
                         (filter (fun r' => face (snd r') =? face r)
                                 (edge_df self)))).
Proof.
  intros Hc. rewrite (get_invalid_sheet self Hc). eexists.
  split; [reflexivity|]. split.
  - unfold index. rewrite map_map. reflexivity.
  - intros i l r H. rewrite nth_error_map, H. reflexivity.
Qed.

Lemma get_invalid_mask_witness :
  exists mask,
    get_invalid open_path_face = Ok mask /\
    nth_error mask 0 = Some (0, true).
Proof.
  destruct (get_invalid_mask open_path_face eq_refl) as [mask [E [_ H]]].
  exists mask. split; [exact E|]. exact (H 0%nat 0 _ eq_refl).
Defined.





(** ** [remove] and the table invariants *)

Lemma nth_error_arange n i :
  (i < n)%nat -> nth_error (arange n) i = Some (Z.of_nat i).
Proof.
  intros H. unfold arange. rewrite nth_error_map.
  rewrite (nth_error_nth' (seq 0 n) 0%nat) by (rewrite length_seq; exact H).
  rewrite seq_nth by exact H. reflexivity.
Qed.

Lemma edge_idx_congr a b : same_keys a b -> edge_idx a = edge_idx b.
Proof.
  intros (_ & _ & _ & He & _ & _ & Hce & _).
  unfold edge_idx.
  destruct (has_cell_congr a b Hce) as [_ Hn]. rewrite Hn.
  set (n := element_names b).
  exact (map_congr edge_keys
           (fun k => map (fun e => match e with
                                   | Srce => fst (fst (fst (snd (fst k))))
                                   | Trgt => snd (fst (fst (snd (fst k))))
                                   | Face => snd (fst (snd (fst k)))
                                   | Cell => snd (snd (fst k))
                                   end) n)
           _ _ He).
Qed.

(** When [update_num_sides] finds a label, [reset_topo] returns. *)
Lemma reset_topo_ok self :
  sides_found self = true -> exists s' w, reset_topo self = Ok (s', w).
Proof.
  intros H. rewrite (reset_topo_found self H).
  destruct (has_opposite (refresh_counts self)
            && negb (has_cell (refresh_counts self))); [|eauto].
  unfold assign.
  destruct (Nat.eqb _ _); eauto.
Qed.

(** The opposite column and the warnings after [reset_topo]. *)
Lemma reset_topo_opposite self s' w :
  reset_topo self = Ok (s', w) ->
  (w = [] /\
   map (fun e => opposite (snd e)) (edge_df s')
   = if has_opposite self && negb (has_cell self)
     then get_opposite (edge_df self)
     else map (fun e => opposite (snd e)) (edge_df self)) \/
  (w = [opposite_warning] /\ edge_df s' = edge_df self).
Proof.
  intros H. pose proof (reset_topo_returns _ _ H) as Hsf.
  rewrite (reset_topo_found self Hsf) in H.
  destruct (refresh_counts_fields self)
    as (_ & _ & _ & A4 & A5 & _ & A7 & _).
  assert (Hhc : has_cell (refresh_counts self) = has_cell self).
  { rewrite !has_cell_spec, A7. destruct (cell_df self); reflexivity. }
  rewrite A5, Hhc, A4 in H.
  destruct (has_opposite self && negb (has_cell self)).
  - destruct (assign set_opposite (edge_df self)
                     (get_opposite (edge_df self))) as [e|[]] eqn:E;
      inversion H; subst; clear H.
    + left. split; [reflexivity|]. cbn [edge_df with_edge_df].
      unfold assign in E.
      destruct (Nat.eqb_spec (length (get_opposite (edge_df self)))
                             (length (edge_df self))) as [Hl|]; [|discriminate].
      inversion E; subst; clear E. rewrite map_map. cbn [snd opposite set_opposite].
      revert Hl. generalize (get_opposite (edge_df self)).
      generalize (edge_df self).
      induction t as [|r t IH]; intros [|v vals] Hl; simpl in *;
        try discriminate; auto.
      f_equal. apply IH. lia.
    + right. split; [reflexivity|exact A4].
  - inversion H; subst; clear H. left. split; [reflexivity|].
    rewrite A4. reflexivity.
Qed.

(** Renumbering keeps every face owned. *)
Lemma renumbered_faces_owned self :
  well_formed self = true ->
  faces_owned self = true ->
  faces_owned
    (mk_eptm (identifier self) (coords self)
             (reset_index_drop (vert_df self))
             (reset_index_drop
                (map (fun r => (fst r, renumber_keys self (snd r)))
                     (edge_df self)))
             (has_opposite self)
             (reset_index_drop (face_df self))
             (option_map reset_index_drop (cell_df self))
             (edge_mindex self) (bbox self) (extra self)) = true.
Proof.
  intros Hwf Hown. apply well_formed_spec in Hwf.
  destruct Hwf as (_ & _ & Nf & _).
  unfold faces_owned in *. rewrite refs_ok_spec in *.
  cbn [face_df edge_df].
  rewrite index_reset_index_drop, values_reset_index_drop.
  intros k Hk. apply In_arange in Hk.
  destruct (nth_error (face_df self) (Z.to_nat k)) as [[l f]|] eqn:E.
  2:{ apply nth_error_None in E. lia. }
  assert (Hl : In l (index (face_df self))).
  { apply nth_error_In in E. apply (in_map fst) in E. exact E. }
  apply Hown in Hl. unfold values in Hl. rewrite map_map in Hl.
  apply in_map_iff in Hl. destruct Hl as [e [Ee He]].
  unfold values. rewrite !map_map. apply in_map_iff.
  exists e. split; [|exact He]. cbn [snd face renumber_keys].
  rewrite Ee, (lookup_new_idx (face_df self) _ l f Nf E). lia.
Qed.

(** [remove] step by step: the tables after the drops, their renumbering
    and the refresh. *)
Lemma remove_steps self edge_out :
  well_formed self = true ->
  (has_cell self = false -> faces_owned self = true) ->
  (forall l, In l edge_out -> In l (index (edge_df self))) ->
  edge_out <> [] ->
  exists kept final w,
    (forall e, In e (edge_df kept) <->
               In e (edge_df self) /\
               ~ selected_owner self edge_out (edge_col (top_level self) (snd e))) /\
    (forall v, In v (vert_df kept) <->
               In v (vert_df self) /\
               exists e, In e (edge_df kept) /\
                         (srce (snd e) = fst v \/ trgt (snd e) = fst v)) /\
    match cell_df self, cell_df kept with
    | None, None =>
        forall f, In f (face_df kept) <->
                  In f (face_df self) /\ ~ selected_owner self edge_out (fst f)
    | Some cells, Some cells' =>
        (forall c, In c cells' <->
                   In c cells /\ ~ selected_owner self edge_out (fst c)) /\
        (forall f, In f (face_df kept) <->
                   In f (face_df self) /\
                   exists e, In e (edge_df kept) /\ face (snd e) = fst f)
    | _, _ => False
    end /\
    well_formed kept = true /\
    has_opposite kept = has_opposite self /\
    faces_owned kept = true /\
    reset_topo
      (mk_eptm (identifier kept) (coords kept)
               (reset_index_drop (vert_df kept))
               (reset_index_drop
                  (map (fun r => (fst r, renumber_keys kept (snd r)))
                       (edge_df kept)))
               (has_opposite kept)
               (reset_index_drop (face_df kept))
               (option_map reset_index_drop (cell_df kept))
               (edge_mindex kept) (bbox kept) (extra kept))
    = Ok (final, w) /\
    remove self edge_out = Ok (final, w).
Proof.
  intros Hwf Hown Hsel Hne.
  destruct (remove_tables self edge_out Hwf Hsel Hne)
    as [kept [He [Hv [Hm [Hwfk [Ho E]]]]]].
  assert (Hownk : faces_owned kept = true).
  { unfold faces_owned. apply refs_ok_spec. intros k Hk.
    unfold index in Hk. apply in_map_iff in Hk.
    destruct Hk as [f [Ef Hf]]. subst k.
    destruct (cell_df self) as [cells|] eqn:Ec;
      destruct (cell_df kept) as [cells'|] eqn:Ec'; try contradiction.
    - destruct Hm as [_ Hm]. apply Hm in Hf.
      destruct Hf as [_ [e [Hek Hef]]].
      rewrite <- Hef. apply in_map. apply in_map. exact Hek.
    - apply Hm in Hf. destruct Hf as [Hf Hns].
      assert (Hc : has_cell self = false)
        by (rewrite has_cell_spec, Ec; reflexivity).
      specialize (Hown Hc). unfold faces_owned in Hown.
      rewrite refs_ok_spec in Hown.
      assert (Hin : In (fst f) (map face (values (edge_df self)))).
      { apply Hown. apply in_map. exact Hf. }
      unfold values in Hin. rewrite map_map in Hin.
      apply in_map_iff in Hin. destruct Hin as [e [Ee Hin]].
      rewrite <- Ee. apply in_map. apply in_map. apply He.
      split; [exact Hin|].
      rewrite top_level_spec, Ec. cbn [edge_col]. rewrite Ee. exact Hns. }
  pose proof (reset_index_eq kept Hwfk) as Er.
  destruct (reset_topo_ok _ (faces_owned_found _
              (renumbered_faces_owned kept Hwfk Hownk)))
    as [final [w Et]].
  exists kept, final, w.
  split; [exact He|]. split; [exact Hv|]. split; [exact Hm|].
  split; [exact Hwfk|]. split; [exact Ho|]. split; [exact Hownk|].
  split; [exact Et|].
  rewrite E, Er. cbn [bind]. exact Et.
Qed.

Lemma nth_error_map_eq {A B} (f : A -> B) (a b : list A) i y :
  map f a = map f b -> nth_error b i = Some y ->
  exists x, nth_error a i = Some x /\ f x = f y.
Proof.
  intros H Hy.
  assert (E : nth_error (map f a) i = Some (f y)).
  { rewrite H, nth_error_map, Hy. reflexivity. }
  rewrite nth_error_map in E.
  destruct (nth_error a i) as [x|]; [|discriminate].
  exists x. split; [reflexivity|]. simpl in E. congruence.
Qed.

Lemma renumbered_key_lookup {A B} (old : table A) (new : table B) k :
  NoDup (index old) -> In k (index old) ->
  index new = arange (length old) ->
  renumbered_key old new k (lookup 0 (new_idx old) k).
Proof.
  intros ND Hin Hi.
  destruct (index_nth_error old k Hin) as [n [a Hn]].
  exists n. rewrite (lookup_new_idx old n k a ND Hn).
  split; [unfold index; rewrite nth_error_map, Hn; reflexivity|].
  split; [reflexivity|].
  rewrite Hi. apply nth_error_arange.
  apply nth_error_Some. congruence.
Qed.

Lemma filter_cell_congr (a b : table edge_row) l :
  map edge_keys a = map edge_keys b ->
  map face (values (filter (fun r => cell (snd r) =? l) a))
  = map face (values (filter (fun r => cell (snd r) =? l) b)).
Proof.
  revert b. induction a as [|r a IH]; intros [|r' b] H; try discriminate;
    [reflexivity|].
  simpl in H. injection H as H1 H2 H3 H4 H5 H6 H7 H8. simpl.
  rewrite H5. destruct (cell (snd r') =? l); simpl.
  - f_equal; [exact H4|]. apply IH. exact H8.
  - apply IH. exact H8.
Qed.

(** The tables after the renumbering and the refresh, from the tables
    before them. *)
Lemma renumber_refresh kept final w :
  well_formed kept = true ->
  faces_owned kept = true ->
  reset_topo
    (mk_eptm (identifier kept) (coords kept)
             (reset_index_drop (vert_df kept))
             (reset_index_drop
                (map (fun r => (fst r, renumber_keys kept (snd r)))
                     (edge_df kept)))
             (has_opposite kept)
             (reset_index_drop (face_df kept))
             (option_map reset_index_drop (cell_df kept))
             (edge_mindex kept) (bbox kept) (extra kept))
  = Ok (final, w) ->
  (index (vert_df final) = arange (length (vert_df kept)) /\
   values (vert_df final) = values (vert_df kept)) /\
  (index (face_df final) = arange (length (face_df kept)) /\
   map is_alive (values (face_df final))
   = map is_alive (values (face_df kept))) /\
  match cell_df kept, cell_df final with
  | Some cells, Some cells' => index cells' = arange (length cells)
  | None, None => True
  | _, _ => False
  end /\
  index (edge_df final) = arange (length (edge_df kept)) /\
  (forall i l r,
      nth_error (edge_df kept) i = Some (l, r) ->
      exists r',
        nth_error (edge_df final) i = Some (Z.of_nat i, r') /\
        dx r' = dx r /\ dy r' = dy r /\
        renumbered_key (vert_df kept) (vert_df final) (srce r) (srce r') /\
        renumbered_key (vert_df kept) (vert_df final) (trgt r) (trgt r') /\
        renumbered_key (face_df kept) (face_df final) (face r) (face r') /\
        match cell_df kept, cell_df final with
        | Some cells, Some cells' =>
            renumbered_key cells cells' (cell r) (cell r')
        | _, _ => cell r' = cell r
        end) /\
  (forall l f,
      In (l, f) (face_df final) ->
      0 < count l (map face (values (edge_df final))) /\
      num_sides f = Some (count l (map face (values (edge_df final))))) /\
  edge_mindex final = edge_idx final /\
  (forall cells' l c,
      cell_df final = Some cells' -> In (l, c) cells' ->
      num_faces c
      = if mem l (map cell (values (edge_df final)))
        then Some (Z.of_nat (length (unique (map face (values
               (filter (fun r => cell (snd r) =? l) (edge_df final)))))))
        else None) /\
  ((w = [] /\
    map (fun e => opposite (snd e)) (edge_df final)
    = if has_opposite kept && negb (has_cell kept)
      then get_opposite (edge_df final)
      else map (fun e => opposite (snd e)) (edge_df kept)) \/
   (w = [opposite_warning] /\
    map (fun e => opposite (snd e)) (edge_df final)
    = map (fun e => opposite (snd e)) (edge_df kept))).
Proof.
  intros Hwf Hown.
  set (E2 := reset_index_drop
               (map (fun r => (fst r, renumber_keys kept (snd r)))
                    (edge_df kept))).
  set (renum := mk_eptm _ _ _ _ _ _ _ _ _ _).
  intros Et.
  pose proof (renumbered_faces_owned kept Hwf Hown) as Hownr.
  fold E2 in Hownr. fold renum in Hownr.
  destruct (reset_topo_same_keys _ _ _ Et)
    as [Hk Hfin].
  pose proof (edge_idx_congr _ _ Hk) as Hidx.
  pose proof (reset_topo_opposite _ _ _ Et) as Hopp.
  destruct Hk as (_ & _ & Hvv & Hee & _ & Hff & Hcc & _).
  destruct (edge_cols_congr _ _ Hee) as (Hei & _ & _ & Hefa & Hece).
  destruct (refresh_counts_fields renum)
    as (_ & _ & _ & _ & _ & A6 & A7 & A8 & _).
  assert (Ffin : face_df final = face_df (refresh_counts renum))
    by (rewrite Hfin at 1; reflexivity).
  assert (Cfin : cell_df final = cell_df (refresh_counts renum))
    by (rewrite Hfin at 1; reflexivity).
  assert (Mfin : edge_mindex final = edge_mindex (refresh_counts renum))
    by (rewrite Hfin at 1; reflexivity).
  change (vert_df renum) with (reset_index_drop (vert_df kept)) in Hvv.
  change (edge_df renum) with E2 in *.
  change (face_df renum) with (reset_index_drop (face_df kept)) in *.
  change (cell_df renum) with (option_map reset_index_drop (cell_df kept)) in *.
  apply well_formed_spec in Hwf.
  destruct Hwf as (Nv & Ne & Nf & Hs & Ht & Hf & Hc).
  assert (Ifa : index (face_df final) = arange (length (face_df kept))).
  { transitivity (index (reset_index_drop (face_df kept))).
    - unfold index.
      exact (map_congr (fun r => (fst r, is_alive (snd r))) fst _ _ Hff).
    - apply index_reset_index_drop. }
  assert (Ice : match cell_df kept, cell_df final with
                | Some cells, Some cells' => index cells' = arange (length cells)
                | None, None => True
                | _, _ => False
                end).
  { destruct (cell_df kept) as [cells|], (cell_df final) as [cells'|];
      simpl in Hcc; try discriminate; [|exact I].
    inversion Hcc as [Hcc']. rewrite Hcc'. apply index_reset_index_drop. }
  split.
  { rewrite Hvv. split; [apply index_reset_index_drop
                        |apply values_reset_index_drop]. }
  split.
  { split; [exact Ifa|].
    transitivity (map is_alive (values (reset_index_drop (face_df kept)))).
    - unfold values. rewrite !map_map.
      exact (map_congr (fun r => (fst r, is_alive (snd r))) snd _ _ Hff).
    - rewrite values_reset_index_drop. reflexivity. }
  split; [exact Ice|].
  split.
  { rewrite Hei. unfold E2. rewrite index_reset_index_drop, length_map.
    reflexivity. }
  split.
  { intros i l r Hi.
    assert (Hin : In r (values (edge_df kept))).
    { unfold values. apply in_map_iff. exists (l, r). split; auto.
      eapply nth_error_In; eassumption. }
    assert (H2 : nth_error E2 i = Some (Z.of_nat i, renumber_keys kept r)).
    { unfold E2. apply (nth_error_reset_index_drop _ i l).
      rewrite nth_error_map, Hi. reflexivity. }
    destruct (nth_error_map_eq edge_keys _ _ i _ Hee H2) as [[l' r'] [H1 Ek]].
    unfold edge_keys, renumber_keys in Ek.
    cbn [fst snd srce trgt face cell dx dy] in Ek.
    injection Ek as K1 K2 K3 K4 K5 K6 K7. subst l'.
    exists r'. split; [exact H1|].
    split; [exact K6|]. split; [exact K7|].
    split.
    { rewrite K2. apply renumbered_key_lookup; [exact Nv| |].
      - apply Hs, in_map, Hin.
      - rewrite Hvv. apply index_reset_index_drop. }
    split.
    { rewrite K3. apply renumbered_key_lookup; [exact Nv| |].
      - apply Ht, in_map, Hin.
      - rewrite Hvv. apply index_reset_index_drop. }
    split.
    { rewrite K4. apply renumbered_key_lookup; [exact Nf| |].
      - apply Hf, in_map, Hin.
      - exact Ifa. }
    rewrite K5.
    destruct (cell_df kept) as [cells|], (cell_df final) as [cells'|];
      try contradiction; try reflexivity.
    destruct Hc as [Nc Hc].
    apply renumbered_key_lookup; [exact Nc| |exact Ice].
    apply Hc, in_map, Hin. }
  split.
  { intros l f Hin. rewrite Ffin, A6 in Hin. apply in_map_iff in Hin.
    destruct Hin as [rf [E Hrf]]. inversion E; subst; clear E.
    assert (Hm : In (fst rf) (map face (values E2))).
    { unfold faces_owned in Hownr. rewrite refs_ok_spec in Hownr.
      apply Hownr. apply in_map. exact Hrf. }
    rewrite Hefa. split; [apply count_pos; exact Hm|].
    cbn [num_sides set_num_sides]. unfold value_counts.
    rewrite (loc1_keyed (fun k => count k (map face (values E2)))).
    rewrite mem_unique.
    apply mem_In in Hm. rewrite Hm. reflexivity. }
  split.
  { rewrite Mfin, A8. symmetry. exact Hidx. }
  split.
  { intros cells' l c Hcd Hin. rewrite Cfin, A7 in Hcd.
    destruct (option_map reset_index_drop (cell_df kept)) as [cells|];
      [|discriminate].
    simpl in Hcd. inversion Hcd; subst; clear Hcd.
    apply in_map_iff in Hin. destruct Hin as [rc [E _]].
    inversion E; subst; clear E.
    cbn [num_faces set_num_faces].
    rewrite Hece, (filter_cell_congr _ _ (fst rc) Hee).
    unfold groupby. rewrite map_map. cbn [fst snd].
    rewrite (loc1_keyed
               (fun k => Z.of_nat (length (unique (map face (values
                  (filter (fun r0 => cell (snd r0) =? k) E2))))))).
    apply (f_equal (fun b : bool => if b then _ else _)).
    apply mem_ext. intros k. apply np_unique_In. }
  assert (Hopk : map (fun e => opposite (snd e)) E2
                 = map (fun e => opposite (snd e)) (edge_df kept)).
  { unfold E2. rewrite <- (map_map snd opposite).
    change (map snd (reset_index_drop ?x)) with (values (reset_index_drop x)).
    rewrite values_reset_index_drop. unfold values. rewrite !map_map.
    reflexivity. }
  destruct Hopp as [[Hw Ho]|[Hw Ho]].
  - left. split; [exact Hw|]. rewrite Ho.
    change (has_opposite renum) with (has_opposite kept).
    replace (has_cell renum) with (has_cell kept)
      by (rewrite !has_cell_spec; change (cell_df renum)
            with (option_map reset_index_drop (cell_df kept));
          destruct (cell_df kept); reflexivity).
    destruct (has_opposite kept && negb (has_cell kept)).
    + symmetry. apply get_opposite_keys. exact Hee.
    + exact Hopk.
  - right. split; [exact Hw|]. rewrite Ho. exact Hopk.
Qed.

(** C1 (as the code has it).  On an epithelium whose tables have unique
    labels and whose half-edges only name existing rows, where every face
    owns a half-edge when faces are the top level, and for a selector of
    labels of the edge table: an empty selector leaves the epithelium as it
    is; otherwise (when cells are modelled: for a selector that leaves a
    half-edge, since [update_num_faces] groups the half-edges that are
    left) [remove] returns.  With [kept] the rows that stay, under their
    old labels, which are still unique,
    - a half-edge stays exactly when its top-level element (its cell when
      cells are modelled, else its face) owns no selected half-edge,
    - a top-level element stays exactly when it owns no selected half-edge,
    - a vertex stays exactly when it is the source or target of a half-edge
      that stays,
    - when cells are modelled, a face stays exactly when a half-edge that
      stays names it;
    the tables of the result hold these rows labelled 0, 1, 2, ..., each
    foreign key of a half-edge is the position of the row it named, and the
    derived data are those of the result: [num_sides] counts the half-edges
    of each face, the composite index is that of the edge table,
    [num_faces] counts the faces of each cell, and the opposite column is
    recomputed, or left as it was with a warning. *)
Theorem remove_cascades (self : Epithelium) (edge_out : list Z) :
  well_formed self = true ->
  (has_cell self = false -> faces_owned self = true) ->
  (forall l, In l edge_out -> In l (index (edge_df self))) ->
  (edge_out = [] -> remove self edge_out = Ok (self, [])) /\
  (edge_out <> [] ->
   (has_cell self = true ->
    exists e, In e (edge_df self) /\
              ~ selected_owner self edge_out
                  (edge_col (top_level self) (snd e))) ->
   exists kept final warnings,
     remove self edge_out = Ok (final, warnings) /\
     (forall e, In e (edge_df kept) <->
                In e (edge_df self) /\
                ~ selected_owner self edge_out
                    (edge_col (top_level self) (snd e))) /\
     (forall v, In v (vert_df kept) <->
                In v (vert_df self) /\
                exists e, In e (edge_df kept) /\
                          (srce (snd e) = fst v \/ trgt (snd e) = fst v)) /\
     match cell_df self, cell_df kept with
     | None, None =>
         forall f, In f (face_df kept) <->
                   In f (face_df self) /\
                   ~ selected_owner self edge_out (fst f)
     | Some cells, Some cells' =>
         (forall c, In c cells' <->
                    In c cells /\ ~ selected_owner self edge_out (fst c)) /\
         (forall f, In f (face_df kept) <->
                    In f (face_df self) /\
                    exists e, In e (edge_df kept) /\ face (snd e) = fst f)
     | _, _ => False
     end /\
     well_formed kept = true /\
     (index (vert_df final) = arange (length (vert_df kept)) /\
      values (vert_df final) = values (vert_df kept)) /\
     (index (face_df final) = arange (length (face_df kept)) /\
      map is_alive (values (face_df final))
      = map is_alive (values (face_df kept))) /\
     match cell_df kept, cell_df final with
     | Some cells, Some cells' => index cells' = arange (length cells)
     | None, None => True
     | _, _ => False
     end /\
     index (edge_df final) = arange (length (edge_df kept)) /\
     (forall i l r,
         nth_error (edge_df kept) i = Some (l, r) ->
         exists r',
           nth_error (edge_df final) i = Some (Z.of_nat i, r') /\
           dx r' = dx r /\ dy r' = dy r /\
           renumbered_key (vert_df kept) (vert_df final) (srce r) (srce r') /\
           renumbered_key (vert_df kept) (vert_df final) (trgt r) (trgt r') /\
           renumbered_key (face_df kept) (face_df final) (face r) (face r') /\
           match cell_df kept, cell_df final with
           | Some cells, Some cells' =>
               renumbered_key cells cells' (cell r) (cell r')
           | _, _ => cell r' = cell r
           end) /\
     (forall l f,
         In (l, f) (face_df final) ->
         0 < count l (map face (values (edge_df final))) /\
         num_sides f = Some (count l (map face (values (edge_df final))))) /\
     edge_mindex final = edge_idx final /\
     (forall cells' l c,
         cell_df final = Some cells' -> In (l, c) cells' ->
         num_faces c
         = if mem l (map cell (values (edge_df final)))
           then Some (Z.of_nat (length (unique (map face (values
                  (filter (fun r => cell (snd r) =? l) (edge_df final)))))))
           else None) /\
     ((warnings = [] /\
       map (fun e => opposite (snd e)) (edge_df final)
       = if has_opposite self && negb (has_cell self)
         then get_opposite (edge_df final)
         else map (fun e => opposite (snd e)) (edge_df kept)) \/
      (warnings = [opposite_warning] /\
       map (fun e => opposite (snd e)) (edge_df final)
       = map (fun e => opposite (snd e)) (edge_df kept)))).
Proof.
  intros Hwf Hown Hsel. split.
  - intros ->. reflexivity.
  - intros Hne _.
    destruct (remove_steps self edge_out Hwf Hown Hsel Hne)
      as (kept & final & w & He & Hv & Hm & Hwfk & Ho & Hownk & Et & E).
    destruct (renumber_refresh kept final w Hwfk Hownk Et)
      as (R1 & R2 & R3 & R4 & R5 & R6 & R7 & R8 & R9).
    exists kept, final, w.
    split; [exact E|]. split; [exact He|]. split; [exact Hv|].
    split; [exact Hm|]. split; [exact Hwfk|].
    split; [exact R1|]. split; [exact R2|].
    split; [exact R3|]. split; [exact R4|]. split; [exact R5|].
    split; [exact R6|]. split; [exact R7|]. split; [exact R8|].
    assert (Hhc : has_cell kept = has_cell self).
    { rewrite !has_cell_spec.
      destruct (cell_df self), (cell_df kept); try contradiction;
        reflexivity. }
    rewrite <- Ho, <- Hhc. exact R9.
Qed.

Lemma remove_cascades_witness :
  exists final warnings,
    remove two_triangles_plain [0] = Ok (final, warnings) /\
    index (edge_df final) = [0; 1; 2] /\
    index (vert_df final) = [0; 1; 2] /\
    index (face_df final) = [0] /\
    edge_mindex final = edge_idx final /\
    forall l f, In (l, f) (face_df final) -> num_sides f = Some 3.
Proof.
  assert (Hsel : forall l, In l [0] ->
                           In l (index (edge_df two_triangles_plain))).
  { intros l [<-|[]]. simpl. auto. }
  destruct (proj2 (remove_cascades two_triangles_plain [0] eq_refl
                     (fun _ => eq_refl) Hsel)
                  ltac:(discriminate) ltac:(discriminate))
    as (kept & final & warnings & E & _ & _ & _ & _ & _ & _ & _ & _ & _
        & Hn & Hm & _).
  exists final, warnings. split; [exact E|].
  vm_compute in E. injection E as E1 E2.
  split; [rewrite <- E1; reflexivity|].
  split; [rewrite <- E1; reflexivity|].
  split; [rewrite <- E1; reflexivity|].
  split; [exact Hm|].
  intros l f H. rewrite (proj2 (Hn l f H)).
  rewrite <- E1 in H |- *. destruct H as [H|[]].
  inversion H; subst. reflexivity.
Defined.

(** C1 as stated fails on a face that owns no half-edge: once the other
    face is removed no half-edge is left to count, the selection of
    [update_num_sides] finds none of the face labels and [remove] ends in a
    [KeyError], before the refresh is done. *)
Lemma remove_unowned_face_raises :
  well_formed lonely_face = true /\
  (forall l, In l [0] -> In l (index (edge_df lonely_face))) /\
  remove lonely_face [0] = Raise KeyError.
Proof.
  split; [reflexivity|]. split; [|reflexivity].
  intros l [<-|[]]. simpl. auto.
Qed.

(** X15.  On tables that meet the invariants and for labels of rows of
    the edge table, whenever [remove] returns, the tables it returns meet
    the invariants again; when something was selected, the vertex, edge and
    face tables of the result are labelled 0, 1, 2, ... in order. *)
Theorem remove_keeps_invariants self edge_out final w :
  well_formed self = true ->
  (forall l, In l edge_out -> In l (index (edge_df self))) ->
  remove self edge_out = Ok (final, w) ->
  well_formed final = true /\
  (edge_out <> [] ->
   index (vert_df final) = arange (length (vert_df final)) /\
   index (edge_df final) = arange (length (edge_df final)) /\
   index (face_df final) = arange (length (face_df final))).
Proof.
  intros Hwf Hsel E. destruct edge_out as [|l0 rest].
  - change (Ok (self, []) = Ok (final, w)) in E. inversion E; subst.
    split; [exact Hwf|]. intros H. congruence.
  - destruct (remove_tables self (l0 :: rest) Hwf Hsel ltac:(discriminate))
      as (kept & _ & _ & _ & Hwfk & _ & Er).
    rewrite Er, (reset_index_eq kept Hwfk) in E. cbn [bind] in E.
    pose proof (renumbered_wf kept Hwfk) as Hwr.
    destruct (reset_topo_same_keys _ _ _ E)
      as [(_ & _ & Hvv & Hee & _ & Hf & Hce & _) _].
    cbn [vert_df edge_df face_df cell_df] in Hvv, Hee, Hf, Hce.
    assert (Hfi : index (face_df final)
                  = index (reset_index_drop (face_df kept))).
    { unfold index.
      exact (map_congr (fun r => (fst r, is_alive (snd r))) fst _ _ Hf). }
    destruct (edge_cols_congr _ _ Hee) as [Hi _].
    split.
    { rewrite <- Hwr. apply well_formed_congr; try assumption.
      rewrite Hvv. reflexivity. }
    intros _.
    split; [|split].
    + rewrite Hvv, index_reset_index_drop, length_reset_index_drop.
      reflexivity.
    + rewrite <- (length_index (edge_df final)), Hi,
              index_reset_index_drop, length_arange.
      reflexivity.
    + rewrite <- (length_index (face_df final)), Hfi,
              index_reset_index_drop, length_arange.
      reflexivity.
Qed.

Lemma remove_keeps_invariants_witness :
  exists final w,
    remove two_triangles_plain [4] = Ok (final, w) /\
    well_formed final = true /\ index (vert_df final) = [0; 1; 2].
Proof.
  assert (Hsel : forall l, In l [4] ->
                           In l (index (edge_df two_triangles_plain))).
  { intros l [<-|[]]. simpl. tauto. }
  destruct (remove two_triangles_plain [4]) as [[final w]|e] eqn:E;
    [|vm_compute in E; discriminate].
  destruct (remove_keeps_invariants two_triangles_plain [4] final w eq_refl
              Hsel E) as [Hw Hd].
  exists final, w. split; [reflexivity|]. split; [exact Hw|].
  destruct (Hd ltac:(discriminate)) as [Hv _].
  vm_compute in E. inversion E; subst. reflexivity.
Defined.

(** ** The order on floats *)

Lemma Qltb_lt a b : Qltb a b = true <-> (a < b)%Q.
Proof. unfold Qltb, Qlt. apply Z.ltb_lt. Qed.

Lemma Qleb_le a b : Qleb a b = true <-> (a <= b)%Q.
Proof. unfold Qleb, Qle. apply Z.leb_le. Qed.

Lemma flt_fle_trans a b c :
  flt a b = true -> fle b c = true -> flt a c = true.
Proof.
  destruct a, b, c; simpl; try congruence.
  rewrite !Qltb_lt, Qleb_le. apply Qlt_le_trans.
Qed.

Lemma fle_flt_trans a b c :
  fle a b = true -> flt b c = true -> flt a c = true.
Proof.
  destruct a, b, c; simpl; try congruence.
  rewrite !Qltb_lt, Qleb_le. apply Qle_lt_trans.
Qed.

Lemma fle_trans a b c : fle a b = true -> fle b c = true -> fle a c = true.
Proof.
  destruct a, b, c; simpl; try congruence.
  rewrite !Qleb_le. apply Qle_trans.
Qed.

Lemma fle_not_nan a b : fle a b = true -> a <> NaN /\ b <> NaN.
Proof. destruct a, b; simpl; split; congruence. Qed.

Lemma fmin_le_l a b : a <> NaN -> fle (fmin a b) a = true.
Proof.
  destruct a as [| |p|], b as [| |q|]; cbn [fmin fle flt]; intros H;
    try congruence; try reflexivity; try (apply Qleb_le; apply Qle_refl).
  destruct (Qltb q p) eqn:E; cbn [fle]; apply Qleb_le;
    [apply Qlt_le_weak; apply Qltb_lt; exact E|apply Qle_refl].
Qed.

Lemma fmin_le_r a b : b <> NaN -> fle (fmin a b) b = true.
Proof.
  destruct a as [| |p|], b as [| |q|]; cbn [fmin fle flt]; intros H;
    try congruence; try reflexivity; try (apply Qleb_le; apply Qle_refl).
  destruct (Qltb q p) eqn:E; cbn [fle]; apply Qleb_le;
    [apply Qle_refl|].
  apply Qnot_lt_le. intros Hlt. apply Qltb_lt in Hlt. congruence.
Qed.

Lemma fmax_ge_l a b : a <> NaN -> fle a (fmax a b) = true.
Proof.
  destruct a as [| |p|], b as [| |q|]; cbn [fmax fle flt]; intros H;
    try congruence; try reflexivity; try (apply Qleb_le; apply Qle_refl).
  destruct (Qltb p q) eqn:E; cbn [fle]; apply Qleb_le;
    [apply Qlt_le_weak; apply Qltb_lt; exact E|apply Qle_refl].
Qed.

Lemma fmax_ge_r a b : b <> NaN -> fle b (fmax a b) = true.
Proof.
  destruct a as [| |p|], b as [| |q|]; cbn [fmax fle flt]; intros H;
    try congruence; try reflexivity; try (apply Qleb_le; apply Qle_refl).
  destruct (Qltb p q) eqn:E; cbn [fle]; apply Qleb_le;
    [apply Qle_refl|].
  apply Qnot_lt_le. intros Hlt. apply Qltb_lt in Hlt. congruence.
Qed.

(** [Series.min()] is below, and [Series.max()] above, every entry that is
    not NaN. *)
Lemma column_min_le v col :
  In v col -> v <> NaN -> fle (column_min col) v = true.
Proof.
  intros Hin Hv. induction col as [|a col IH]; [destruct Hin|].
  change (column_min (a :: col)) with (fmin a (column_min col)).
  destruct Hin as [->|Hin].
  - apply fmin_le_l. exact Hv.
  - specialize (IH Hin). destruct (fle_not_nan _ _ IH) as [Hm _].
    apply (fle_trans _ (column_min col)); [|exact IH].
    apply fmin_le_r. exact Hm.
Qed.

Lemma column_max_ge v col :
  In v col -> v <> NaN -> fle v (column_max col) = true.
Proof.
  intros Hin Hv. induction col as [|a col IH]; [destruct Hin|].
  change (column_max (a :: col)) with (fmax a (column_max col)).
  destruct Hin as [->|Hin].
  - apply fmax_ge_l. exact Hv.
  - specialize (IH Hin). destruct (fle_not_nan _ _ IH) as [_ Hm].
    apply (fle_trans _ (column_max col)); [exact IH|].
    apply fmax_ge_r. exact Hm.
Qed.

(** ** More on [cut_out] and [set_bbox] *)

Lemma outside_monotone c inner outer v :
  box_within inner outer = true ->
  outside c outer v = true -> outside c inner v = true.
Proof.
  unfold box_within, outside, fgt. intros Hb Ho.
  apply andb_true_iff in Hb. destruct Hb as [Hlo Hhi].
  apply orb_true_iff in Ho. apply orb_true_iff. destruct Ho as [Ho|Ho].
  - left. eapply flt_fle_trans; eassumption.
  - right. eapply fle_flt_trans; eassumption.
Qed.

Lemma In_combine_Forall2 {A B} (R : B -> B -> Prop) (cs : list A) :
  forall inner outer c o,
    Forall2 R inner outer ->
    In (c, o) (combine cs outer) ->
    exists i, In (c, i) (combine cs inner) /\ R i o.
Proof.
  induction cs as [|c0 cs IH]; intros inner outer c o HF Hin;
    [destruct Hin|].
  destruct HF as [|i0 o0 inner outer HR HF]; [destruct Hin|].
  simpl in Hin. destruct Hin as [E|Hin].
  - inversion E; subst. exists i0. split; [left; reflexivity|exact HR].
  - destruct (IH _ _ _ _ HF Hin) as [i [Hi HRi]].
    exists i. split; [right; exact Hi|exact HRi].
Qed.

(** X17.  [cut_out] is monotone in the box: with each pair of bounds of
    [inner] within the pair of [outer] at the same position, every
    half-edge that [outer] cuts out is cut out by [inner] too. *)
Theorem cut_out_monotone self inner outer coords_arg out_i out_o :
  well_formed self = true ->
  NoDup (match coords_arg with None => coords self | Some c => c end) ->
  Forall2 (fun i o => box_within i o = true) inner outer ->
  cut_out self inner coords_arg = Ok out_i ->
  cut_out self outer coords_arg = Ok out_o ->
  forall l, In l out_o -> In l out_i.
Proof.
  intros Hwf ND HF Ei Eo l Hl.
  destruct (cut_out_spec self inner coords_arg Hwf ND) as [oi [Ei' Hi]].
  destruct (cut_out_spec self outer coords_arg Hwf ND) as [oo [Eo' Ho]].
  rewrite Ei in Ei'. rewrite Eo in Eo'.
  inversion Ei'; inversion Eo'; subst oi oo; clear Ei' Eo'.
  apply Ho in Hl. destruct Hl as [r [c [bo [v [Hr [Hc [Hv Hout]]]]]]].
  destruct (In_combine_Forall2 _ _ _ _ _ _ HF Hc) as [bi [Hci Hw]].
  apply Hi. exists r, c, bi, v. repeat split; try assumption.
  eapply outside_monotone; eassumption.
Qed.

Lemma cut_out_monotone_witness :
  exists out_i out_o,
    cut_out two_triangles [(Fin 0, Fin 0.5)] None = Ok out_i /\
    cut_out two_triangles [(Fin 0, Fin 1)] None = Ok out_o /\
    forall l, In l out_o -> In l out_i.
Proof.
  eexists _, _. split; [reflexivity|]. split; [reflexivity|].
  apply (cut_out_monotone two_triangles [(Fin 0, Fin 0.5)] [(Fin 0, Fin 1)]
           None _ _ eq_refl); try reflexivity.
  - apply NoDup_cons; [simpl; intuition discriminate|].
    apply NoDup_cons; [simpl; intuition discriminate|].
    apply NoDup_cons; [simpl; intuition|apply NoDup_nil].
  - repeat constructor.
Defined.

Section BoundingBox.
Variables fadd fsub : float -> float -> float.
Variable margin : float.

(** Subtracting the margin does not go above, and adding it does not go
    below: what rounded IEEE arithmetic gives for a margin that is not
    negative. *)
Hypothesis fsub_below :
  forall a b, fle a b = true -> flt b (fsub a margin) = false.
Hypothesis fadd_above :
  forall a b, fle b a = true -> flt (fadd a margin) b = false.

Lemma bbox_not_outside self c v :
  In v (values (vert_df self)) ->
  outside c
    (fsub (column_min (map (vert_col c) (values (vert_df self)))) margin,
     fadd (column_max (map (vert_col c) (values (vert_df self)))) margin)
    v = false.
Proof.
  intros Hin. unfold outside, fgt. cbn [fst snd].
  assert (Hc : In (vert_col c v) (map (vert_col c) (values (vert_df self))))
    by (apply in_map; exact Hin).
  destruct (vert_col c v) as [| |q|] eqn:E.
  - destruct (fsub _ margin), (fadd _ margin); reflexivity.
  - rewrite fsub_below
      by (apply column_min_le; [exact Hc|discriminate]).
    rewrite fadd_above
      by (apply column_max_ge; [exact Hc|discriminate]).
    reflexivity.
  - rewrite fsub_below
      by (apply column_min_le; [exact Hc|discriminate]).
    rewrite fadd_above
      by (apply column_max_ge; [exact Hc|discriminate]).
    reflexivity.
  - rewrite fsub_below
      by (apply column_min_le; [exact Hc|discriminate]).
    rewrite fadd_above
      by (apply column_max_ge; [exact Hc|discriminate]).
    reflexivity.
Qed.

(** X18.  The box that [set_bbox] stores contains every vertex: cutting
    out with it selects no half-edge. *)
Theorem bbox_cuts_nothing self :
  well_formed self = true ->
  NoDup (coords self) ->
  let self' := set_bbox fadd fsub margin self in
  exists b, bbox self' = Some b /\ cut_out self' b None = Ok [].
Proof.
  intros Hwf ND self'.
  set (b := map (fun c =>
                   (fsub (column_min (map (vert_col c) (values (vert_df self))))
                         margin,
                    fadd (column_max (map (vert_col c) (values (vert_df self))))
                         margin))
                (coords self)).
  exists b. split; [reflexivity|].
  assert (Hwf' : well_formed self' = true) by exact Hwf.
  destruct (cut_out_spec self' b None Hwf' ND) as [out [E H]].
  rewrite E. f_equal. destruct out as [|l out]; [reflexivity|]. exfalso.
  destruct (proj1 (H l) (or_introl eq_refl))
    as [r [c [bo [v [Hr [Hc [Hv Ho]]]]]]].
  change (coords self') with (coords self) in Hc.
  change (vert_df self') with (vert_df self) in Hv.
  subst b. rewrite <- (map_id (coords self)) in Hc at 1.
  rewrite combine_map_map in Hc. apply in_map_iff in Hc.
  destruct Hc as [c' [Ec _]]. inversion Ec; subst c' bo; clear Ec.
  rewrite bbox_not_outside in Ho; [discriminate|].
  destruct Hv as [Hv|Hv]; apply (in_map snd) in Hv; exact Hv.
Qed.
End BoundingBox.

Lemma fsub_exact_below a b :
  fle a b = true -> flt b (fsub_exact a (Fin 1)) = false.
Proof.
  destruct a as [| |p|], b as [| |q|]; simpl; try congruence.
  intros H. apply Qleb_le in H.
  enough (E : Qltb q (p + - 1) = false) by exact E.
  destruct (Qltb q (p + - 1)) eqn:E; [|reflexivity].
  apply Qltb_lt in E. exfalso.
  apply (Qlt_irrefl p). apply (Qle_lt_trans _ q); [exact H|].
  apply (Qlt_le_trans _ (p + - 1)); [exact E|].
  rewrite <- (Qplus_0_r p) at 2. apply Qplus_le_r. discriminate.
Qed.

Lemma fadd_exact_above a b :
  fle b a = true -> flt (fadd_exact a (Fin 1)) b = false.
Proof.
  destruct a as [| |p|], b as [| |q|]; simpl; try congruence.
  intros H. apply Qleb_le in H.
  enough (E : Qltb (p + 1) q = false) by exact E.
  destruct (Qltb (p + 1) q) eqn:E; [|reflexivity].
  apply Qltb_lt in E. exfalso.
  apply (Qlt_irrefl q). apply (Qle_lt_trans _ p); [exact H|].
  apply (Qle_lt_trans _ (p + 1)); [|exact E].
  rewrite <- (Qplus_0_r p) at 1. apply Qplus_le_r. discriminate.
Qed.

Lemma bbox_cuts_nothing_witness :
  exists b,
    bbox (set_bbox fadd_exact fsub_exact (Fin 1) two_triangles) = Some b /\
    cut_out (set_bbox fadd_exact fsub_exact (Fin 1) two_triangles) b None
    = Ok [].
Proof.
  apply (bbox_cuts_nothing fadd_exact fsub_exact (Fin 1)
           fsub_exact_below fadd_exact_above two_triangles eq_refl).
  apply NoDup_cons; [simpl; intuition discriminate|].
  apply NoDup_cons; [simpl; intuition discriminate|].
  apply NoDup_cons; [simpl; intuition|apply NoDup_nil].
Defined.

(** ** Polygons under the table invariants *)

Lemma chain_raises srces trgts faces : forall t e,
  chain srces trgts faces t = Raise e -> e = IndexError.
Proof.
  induction faces as [|f faces IH]; intros t e H; simpl in H;
    [discriminate|].
  unfold next_trgt in H.
  destruct (filter (fun st => fst st =? t) (combine srces trgts))
    as [|st l]; simpl in H.
  - inversion H. reflexivity.
  - destruct (chain srces trgts faces (snd st)) as [edges|e'] eqn:E;
      simpl in H; [discriminate|].
    inversion H; subst. eapply IH. eassumption.
Qed.

Lemma ordered_edges_raises face_edges e :
  _ordered_edges face_edges = Raise e -> e = IndexError.
Proof.
  unfold _ordered_edges. destruct (values face_edges) as [|e0 rest] eqn:Ev.
  - intros H. inversion H. reflexivity.
  - destruct (chain _ _ _ (trgt e0)) as [edges|e'] eqn:E; simpl;
      [discriminate|].
    intros H. inversion H; subst. eapply chain_raises. eassumption.
Qed.

Lemma ordered_edges_srces face_edges edges :
  _ordered_edges face_edges = Ok edges ->
  length edges = length face_edges /\
  forall idx, In idx edges ->
              In (fst (fst idx)) (map srce (values face_edges)).
Proof.
  unfold _ordered_edges. destruct (values face_edges) as [|e0 rest] eqn:Ev;
    [discriminate|].
  destruct (chain _ _ _ (trgt e0)) as [es|e'] eqn:E; simpl; [|discriminate].
  intros H. inversion H; subst; clear H.
  destruct (chain_shape _ _ _ _ _ E) as [Hf [_ [_ Hin]]].
  split.
  - simpl. rewrite <- (length_map snd es), Hf. simpl.
    rewrite length_map. rewrite <- (length_values face_edges), Ev.
    reflexivity.
  - intros idx [<-|Hidx]; simpl; [left; reflexivity|].
    apply Hin in Hidx. destruct (fst idx) as [s t] eqn:Ei.
    apply in_combine_l in Hidx. exact Hidx.
Qed.

(** X19.  [ordered_vert_idxs] never raises.  It returns NaN exactly when
    the walk of [_ordered_edges] finds no half-edge to go on with;
    otherwise it returns one vertex per half-edge of the face, each of
    them the source of a half-edge of the face. *)
Theorem ordered_vert_idxs_total (face_edges : table edge_row) :
  exists o,
    ordered_vert_idxs face_edges = Ok o /\
    (o = None <-> _ordered_edges face_edges = Raise IndexError) /\
    forall l, o = Some l ->
              length l = length face_edges /\
              forall v, In v l -> In v (map srce (values face_edges)).
Proof.
  unfold ordered_vert_idxs.
  destruct (_ordered_edges face_edges) as [edges|e] eqn:E.
  - eexists. split; [reflexivity|]. split; [split; discriminate|].
    intros l H. inversion H; subst; clear H.
    destruct (ordered_edges_srces _ _ E) as [Hl Hin].
    split; [rewrite length_map; exact Hl|].
    intros v Hv. apply in_map_iff in Hv. destruct Hv as [idx [<- Hidx]].
    apply Hin. exact Hidx.
  - rewrite (ordered_edges_raises _ _ E). exists None.
    split; [reflexivity|]. split; [split; reflexivity|]. discriminate.
Qed.

Lemma map_result_ok {A B} (f : A -> result B) (P : A -> B -> Prop) l :
  (forall a, In a l -> exists b, f a = Ok b /\ P a b) ->
  exists bs, map_result f l = Ok bs /\ Forall2 P l bs.
Proof.
  induction l as [|a l IH]; intros H; simpl.
  - exists []. split; [reflexivity|constructor].
  - destruct (H a (or_introl eq_refl)) as [b [Eb Pb]].
    destruct IH as [bs [Ebs Pbs]]; [intros a' Ha'; apply H; right; exact Ha'|].
    rewrite Eb, Ebs. simpl. exists (b :: bs).
    split; [reflexivity|constructor; assumption].
Qed.

Lemma Forall2_In_r {A B} (P : A -> B -> Prop) l bs b :
  Forall2 P l bs -> In b bs -> exists a, In a l /\ P a b.
Proof.
  induction 1 as [|a b' l bs Pab HF IH]; intros Hin; [destruct Hin|].
  destruct Hin as [->|Hin].
  - exists a. split; [left; reflexivity|exact Pab].
  - destruct (IH Hin) as [a' [Ha' Pa']]. exists a'.
    split; [right; exact Ha'|exact Pa'].
Qed.

Lemma dropna_In {K A} (l : list (K * option A)) k a :
  In (k, a) (dropna l) -> In (k, Some a) l.
Proof.
  induction l as [|[k' [a'|]] l IH]; simpl; [tauto| |].
  - intros [E|H]; [left; inversion E; reflexivity|right; apply IH; exact H].
  - intros H. right. apply IH. exact H.
Qed.

(** X20.  On tables that meet the invariants [face_polygons] never
    raises.  Every polygon it returns belongs to a face that owns
    half-edges, has one point per half-edge of the face, and each point
    has one entry per coordinate asked for. *)
Theorem face_polygons_total self (coords_arg : list coord) :
  well_formed self = true ->
  exists polys,
    face_polygons self coords_arg = Ok polys /\
    forall f p,
      In (f, p) polys ->
      In f (map face (values (edge_df self))) /\
      length p
      = length (filter (fun r => face (snd r) =? f) (edge_df self)) /\
      forall pt, In pt p -> length pt = length coords_arg.
Proof.
  intros Hwf. apply well_formed_spec in Hwf.
  destruct Hwf as (Nv & _ & _ & Hs & _).
  unfold face_polygons.
  destruct (map_result_ok
              (fun g => p <- _get_verts_pos self coords_arg (snd g) ;;
                        Ok (fst g, p))
              (fun g b =>
                 fst b = fst g /\
                 forall p, snd b = Some p ->
                           length p = length (snd g) /\
                           forall pt, In pt p -> length pt = length coords_arg)
              (groupby face (edge_df self)))
    as [polys [E HP]].
  { intros g Hg. unfold groupby in Hg. apply in_map_iff in Hg.
    destruct Hg as [k [<- Hk]]. cbn [fst snd].
    set (grp := filter (fun r => face (snd r) =? k) (edge_df self)).
    unfold _get_verts_pos.
    destruct (_ordered_edges grp) as [edges|e] eqn:Eo.
    - destruct (ordered_edges_srces _ _ Eo) as [Hl Hin].
      destruct (map_result_ok
                  (fun idx =>
                     v <- loc_scalar (vert_df self) (fst (fst idx)) ;;
                     Ok (map (fun c => vert_col c v) coords_arg))
                  (fun _ pt => length pt = length coords_arg) edges)
        as [pos [Ep Hpos]].
      { intros idx Hidx. unfold loc_scalar.
        destruct (loc1_present (vert_df self) (fst (fst idx))) as [v Ev].
        { apply Hs. apply Hin in Hidx. apply in_map_iff in Hidx.
          destruct Hidx as [r [Er Hr]]. rewrite <- Er. apply in_map.
          unfold values in *. apply in_map_iff in Hr.
          destruct Hr as [r' [Er' Hr']]. subst r. apply in_map.
          subst grp. apply filter_In in Hr'. tauto. }
        rewrite Ev. simpl. eexists. split; [reflexivity|].
        apply length_map. }
      rewrite Ep. simpl. eexists. split; [reflexivity|].
      split; [reflexivity|]. cbn [snd]. intros p Hp.
      inversion Hp; subst; clear Hp. split.
      + rewrite <- (Forall2_length Hpos). exact Hl.
      + intros pt Hpt. destruct (Forall2_In_r _ _ _ _ Hpos Hpt) as [_ [_ H]].
        exact H.
    - rewrite (ordered_edges_raises _ _ Eo). simpl. eexists.
      split; [reflexivity|]. split; [reflexivity|]. discriminate. }
  rewrite E. simpl. eexists. split; [reflexivity|].
  intros f p Hin. apply dropna_In in Hin.
  destruct (Forall2_In_r _ _ _ _ HP Hin) as [g [Hg [Hfst Hsnd]]].
  unfold groupby in Hg. apply in_map_iff in Hg. destruct Hg as [k [<- Hk]].
  cbn [fst snd] in *. subst k. split; [apply np_unique_In; exact Hk|].
  exact (Hsnd p eq_refl).
Qed.

Lemma face_polygons_total_witness :
  exists polys,
    face_polygons two_triangles [cx; cy] = Ok polys /\
    forall f p, In (f, p) polys -> length p = 3%nat.
Proof.
  destruct (face_polygons_total two_triangles [cx; cy] eq_refl)
    as [polys [E H]].
  exists polys. split; [exact E|]. intros f p Hin.
  destruct (H f p Hin) as [Hf [Hl _]]. rewrite Hl.
  simpl in Hf. clear - Hf.
  repeat (destruct Hf as [<-|Hf]; [reflexivity|]). destruct Hf.
Defined.

(** ** The extra indices *)

Lemma ensure_opposite_has self s1 :
  ensure_opposite self = Ok s1 -> has_opposite s1 = true.
Proof.
  unfold ensure_opposite. destruct (has_opposite self) eqn:E.
  - intros H. inversion H; subst. exact E.
  - destruct (assign _ _ _); simpl; [|discriminate].
    intros H. inversion H; subst. reflexivity.
Qed.

(** X22.  [get_extra_indices] is idempotent: called on the state it
    returned, it returns that same state. *)
Theorem get_extra_indices_idempotent
        (east_angle : float -> float -> bool) self self' :
  get_extra_indices east_angle self = Ok self' ->
  get_extra_indices east_angle self' = Ok self'.
Proof.
  unfold get_extra_indices at 1.
  destruct (ensure_opposite self) as [s1|] eqn:E1; [|discriminate].
  cbn [bind].
  destruct (partition_sets east_angle (edge_df s1))
    as [[[[dble east] west] free]|] eqn:E2; [|discriminate].
  cbn [bind].
  destruct (consistent _ _) eqn:E3; [|discriminate].
  destruct (forallb _ west) eqn:E4; [|discriminate].
  intros H. inversion H as [Hs]. clear H.
  pose proof (ensure_opposite_has _ _ E1) as Ho.
  unfold get_extra_indices, ensure_opposite.
  cbn [has_opposite with_extra]. rewrite Ho. cbn [bind edge_df with_extra].
  rewrite E2. cbn [bind]. rewrite E3, E4. reflexivity.
Qed.

Lemma get_extra_indices_idempotent_witness :
  exists self',
    get_extra_indices east_angle_exact two_triangles_geom = Ok self' /\
    get_extra_indices east_angle_exact self' = Ok self'.
Proof.
  eexists. split; [reflexivity|].
  exact (get_extra_indices_idempotent east_angle_exact two_triangles_geom _
           eq_refl).
Defined.

(** ** [_upcast] *)

(** X23.  [_upcast] along a key column of the edge table.  When every key
    names a row of a table with unique labels, the call returns one entry
    per half-edge, under the label of the half-edge: the value of the row
    that the key names.  When the edge table is not empty and no key names
    a row, the selection raises [KeyError].  When every key names a row and
    some key names two rows or more, the selection is longer than the edge
    table and setting its index raises [ValueError]. *)
Theorem upcast_along_key {A} (self : Epithelium) (df : table A)
        (key : edge_row -> Z) :
  (NoDup (index df) ->
   (forall r, In r (edge_df self) -> In (key (snd r)) (index df)) ->
   _upcast self (map key (values (edge_df self))) df
   = Ok (map (fun r => (fst r, loc1 Z.eqb df (key (snd r)))) (edge_df self)) /\
   forall r, In r (edge_df self) ->
             exists a, loc1 Z.eqb df (key (snd r)) = Some a /\
                       In (key (snd r), a) df) /\
  (edge_df self <> [] ->
   (forall r, In r (edge_df self) -> ~ In (key (snd r)) (index df)) ->
   _upcast self (map key (values (edge_df self))) df = Raise KeyError) /\
  ((forall r, In r (edge_df self) -> In (key (snd r)) (index df)) ->
   (exists r, In r (edge_df self) /\
              (2 <= length (rows_at Z.eqb df (key (snd r))))%nat) ->
   _upcast self (map key (values (edge_df self))) df = Raise ValueError).
Proof.
  assert (Hkeys : forall P : Z -> Prop,
             (forall r, In r (edge_df self) -> P (key (snd r))) ->
             forall k, In k (map key (values (edge_df self))) -> P k).
  { intros P H k Hk. unfold values in Hk. rewrite map_map in Hk.
    apply in_map_iff in Hk. destruct Hk as [r [<- Hr]]. apply H. exact Hr. }
  split; [|split].
  - intros ND Hin. split.
    + rewrite (upcast_series self df _ ND (Hkeys _ Hin))
        by (unfold values; rewrite !length_map; reflexivity).
      f_equal. unfold index, values. rewrite !map_map.
      apply combine_map_map.
    + intros r Hr. destruct (loc1_present df _ (Hin r Hr)) as [a Ea].
      exists a. split; [exact Ea|]. apply loc1_Some. exact Ea.
  - intros Hne Hnone. unfold _upcast, loc_list.
    destruct (edge_df self) as [|r0 rest] eqn:Ee; [congruence|].
    cbn [values map].
    replace (existsb (fun k => mem k (index df))
                     (key (snd r0) :: map key (map snd rest))) with false;
      [reflexivity|].
    symmetry. apply not_true_is_false. intros H.
    apply existsb_exists in H. destruct H as [k [Hk Hm]].
    apply mem_In in Hm. revert Hm.
    apply (Hkeys (fun k => ~ In k (index df))).
    + exact Hnone.
    + exact Hk.
  - intros Hin [r [Hr H2]]. unfold _upcast.
    rewrite (loc_list_present df _ (Hkeys _ Hin)). cbn [bind].
    assert (Hlt : (length (edge_df self)
                   < length (loc Z.eqb df (map key (values (edge_df self)))))%nat).
    { unfold loc.
      apply (Nat.le_lt_trans _ (length (map key (values (edge_df self))))).
      { unfold values. rewrite !length_map. lia. }
      apply (flat_map_longer _ _ (key (snd r))).
      - intros k _. destruct (rows_at Z.eqb df k); discriminate.
      - apply in_map. apply in_map. exact Hr.
      - destruct (rows_at Z.eqb df (key (snd r))) as [|a l]; simpl in *;
          [lia|]. rewrite length_map. exact H2. }
    destruct (Nat.eqb_spec
                (length (loc Z.eqb df (map key (values (edge_df self)))))
                (length (edge_df self))) as [E|_]; [lia|reflexivity].
Qed.

Lemma upcast_along_key_witness :
  _upcast two_triangles (map face (values (edge_df two_triangles)))
          [(0, true); (0, false); (1, true)]
  = Raise ValueError.
Proof.
  apply (proj2 (proj2 (upcast_along_key two_triangles
                         [(0, true); (0, false); (1, true)] face))).
  - intros r Hr. simpl in Hr.
    repeat (destruct Hr as [<-|Hr]; [simpl; tauto|]). destruct Hr.
  - exists (0, sample_edge 0 1 0). split; [left; reflexivity|].
    simpl. lia.
Defined.

(** ** [copy] *)

(** [reset_topo] reads the tables only and overwrites the composite
    index: two states with the same tables get the same tables back. *)
Lemma reset_topo_ext a b a' w :
  vert_df a = vert_df b -> edge_df a = edge_df b ->
  has_opposite a = has_opposite b -> face_df a = face_df b ->
  cell_df a = cell_df b ->
  reset_topo a = Ok (a', w) ->
  reset_topo b
  = Ok (mk_eptm (identifier b) (coords b) (vert_df a') (edge_df a')
                (has_opposite a') (face_df a') (cell_df a') (edge_mindex a')
                (bbox b) (extra b), w).
Proof.
  intros Hv He Ho Hf Hc Ha.
  pose proof (reset_topo_returns _ _ Ha) as Hsa.
  assert (Hsb : sides_found b = true).
  { unfold sides_found in *. rewrite <- Hf, <- He. exact Hsa. }
  revert Ha. rewrite (reset_topo_found a Hsa), (reset_topo_found b Hsb).
  destruct (refresh_counts_fields a)
    as (A1 & A2 & A3 & A4 & A5 & A6 & A7 & A8 & A9 & A10).
  destruct (refresh_counts_fields b)
    as (B1 & B2 & B3 & B4 & B5 & B6 & B7 & B8 & B9 & B10).
  assert (Hha : has_cell (refresh_counts a) = has_cell a).
  { rewrite !has_cell_spec, A7. destruct (cell_df a); reflexivity. }
  assert (Hhb : has_cell (refresh_counts b) = has_cell a).
  { rewrite !has_cell_spec, B7, Hc. destruct (cell_df b); reflexivity. }
  assert (Hm : edge_idx a = edge_idx b).
  { unfold edge_idx, element_names, data_names. rewrite He, Hc.
    reflexivity. }
  rewrite A5, A4, Hha, B5, B4, Hhb, <- Ho, <- He.
  destruct (has_opposite a && negb (has_cell a)).
  - destruct (assign set_opposite (edge_df a) (get_opposite (edge_df a)))
      as [e|[]] eqn:E; intros H; inversion H; subst; clear H;
      f_equal; f_equal;
      apply eptm_ext;
      cbn [identifier coords vert_df edge_df has_opposite face_df cell_df
           edge_mindex bbox extra with_edge_df];
      rewrite ?A3, ?A5, ?A6, ?A7, ?A8, ?B1, ?B2, ?B3, ?B5, ?B6, ?B7, ?B8,
              ?B9, ?B10, ?A4, ?B4;
      rewrite <- ?He, <- ?Hf, <- ?Hc, <- ?Hv, <- ?Ho, <- ?Hm;
      reflexivity.
  - intros H; inversion H; subst; clear H. f_equal. f_equal.
    apply eptm_ext;
      cbn [identifier coords vert_df edge_df has_opposite face_df cell_df
           edge_mindex bbox extra with_edge_df];
      rewrite ?A3, ?A5, ?A6, ?A7, ?A8, ?B1, ?B2, ?B3, ?B5, ?B6, ?B7, ?B8,
              ?B9, ?B10, ?A4, ?B4;
      rewrite <- ?He, <- ?Hf, <- ?Hc, <- ?Hv, <- ?Ho, <- ?Hm;
      reflexivity.
Qed.

Section CopyFacts.
Variable set_data_columns :
  list (string * DataFrame) -> result (list (string * DataFrame)).
Variables fadd fsub : float -> float -> float.

(** X24.  [copy], when [set_data_columns] finds every column of the specs
    in the copied tables and leaves them as they are: the copy holds the
    tables that [reset_topo] gives on the original (the tables of the
    original itself when they are up to date), under the identifier of the
    original followed by ["_copy"]; its coordinates are x, y and z
    whatever those of the original are, its box is computed on them, and
    it has no extra indices.  The warnings are those of [reset_topo]. *)
Theorem copy_holds_tables self s' w :
  set_data_columns (datasets_of self) = Ok (datasets_of self) ->
  reset_topo self = Ok (s', w) ->
  copy set_data_columns fadd fsub self
  = Ok (set_bbox fadd fsub (Fin 1)
          (mk_eptm (identifier self ++ "_copy") [cx; cy; cz]
                   (vert_df s') (edge_df s') (has_opposite s')
                   (face_df s') (cell_df s') (edge_mindex s') None None),
        w).
Proof.
  intros Hsdc Ht.
  assert (Hsub : issubset (map fst (datasets_of self)) frame_types = true).
  { unfold datasets_of. destruct (cell_df self); reflexivity. }
  assert (He : dict_get (datasets_of self) "edge"
               = Ok (EdgeDF (edge_df self) (has_opposite self)))
    by reflexivity.
  assert (Hf : dict_get (datasets_of self) "face" = Ok (FaceDF (face_df self)))
    by reflexivity.
  assert (Hv : dict_get (datasets_of self) "vert" = Ok (VertDF (vert_df self)))
    by reflexivity.
  assert (Hc : (if existsb (String.eqb "cell") (map fst (datasets_of self))
                then match dict_get (datasets_of self) "cell" with
                     | Ok (CellDF c) => Ok (Some c)
                     | Ok _ => Raise KeyError
                     | Raise e => Raise e
                     end
                else Ok None) = Ok (cell_df self)).
  { unfold datasets_of. destruct (cell_df self); reflexivity. }
  unfold copy, init. rewrite Hsub. cbn [negb]. rewrite Hsdc. cbn [bind].
  rewrite He, Hf, Hv. cbn [bind]. rewrite Hc. cbn [bind].
  rewrite (reset_topo_ext self _ s' w) by (try reflexivity; exact Ht).
  reflexivity.
Qed.
End CopyFacts.

Lemma copy_holds_tables_witness :
  exists new w,
    copy (fun ds => Ok ds) fadd_exact fsub_exact two_triangles = Ok (new, w) /\
    identifier new = "sample_copy"%string /\ coords new = [cx; cy; cz].
Proof.
  destruct (reset_topo two_triangles) as [[s' w]|e] eqn:E;
    [|vm_compute in E; discriminate].
  eexists _, w. split.
  - exact (copy_holds_tables (fun ds => Ok ds) fadd_exact fsub_exact
             two_triangles s' w eq_refl E).
  - split; reflexivity.
Defined.

(** ** The triangulation *)

(** In a table labelled 0, 1, 2, ... the row labelled [k] is at position
    [k]. *)
Lemma dense_row {A} (df : table A) k a :
  index df = arange (length df) ->
  In (k, a) df ->
  0 <= k /\ (Z.to_nat k < length df)%nat /\
  nth_error df (Z.to_nat k) = Some (k, a).
Proof.
  intros Hd Hin.
  assert (ND : NoDup (index df)) by (rewrite Hd; apply NoDup_arange).
  assert (Hk : In k (index df)) by (apply in_map_iff; exists (k, a); auto).
  rewrite Hd in Hk. apply In_arange in Hk.
  split; [lia|]. split; [lia|].
  destruct (nth_error df (Z.to_nat k)) as [[k' a']|] eqn:E.
  - assert (Ek : nth_error (index df) (Z.to_nat k) = Some k').
    { unfold index. rewrite nth_error_map, E. reflexivity. }
    rewrite Hd, nth_error_arange in Ek by lia.
    rewrite Z2Nat.id in Ek by lia. injection Ek as Ek. subst k'.
    assert (Ea : a' = a); [|rewrite Ea; reflexivity].
    apply nth_error_In in E.
    pose proof (loc1_In df k a ND Hin) as E1.
    pose proof (loc1_In df k a' ND E) as E2. congruence.
  - apply nth_error_None in E. lia.
Qed.

Section MeshFacts.
Variable face_col : coord -> face_row -> float.

(** X25.  [triangular_mesh] on tables that meet the invariants and are
    labelled 0, 1, 2, ... (as [reset_index] leaves them): there is one
    vertex per face and per junction vertex and one triangle per
    half-edge; the three entries of the triangle of a half-edge are
    positions in the array of vertices, where they hold the position of
    its source, the position of its target and the centre of its face; and
    the mask holds at the third entry only. *)
Theorem triangular_mesh_indexes self (coords_arg : list coord) :
  well_formed self = true ->
  index (vert_df self) = arange (length (vert_df self)) ->
  index (face_df self) = arange (length (face_df self)) ->
  let mesh := triangular_mesh face_col self coords_arg in
  let vertices := fst (fst mesh) in
  let triangles := snd (fst mesh) in
  let face_mask := snd mesh in
  length vertices = (length (face_df self) + length (vert_df self))%nat /\
  length face_mask = length vertices /\
  length triangles = length (edge_df self) /\
  forall i l r,
    nth_error (edge_df self) i = Some (l, r) ->
    exists a b c vs vt f,
      nth_error triangles i = Some [a; b; c] /\
      0 <= a /\ 0 <= b /\ 0 <= c /\
      In (srce r, vs) (vert_df self) /\
      In (trgt r, vt) (vert_df self) /\
      In (face r, f) (face_df self) /\
      nth_error vertices (Z.to_nat a)
      = Some (map (fun co => vert_col co vs) coords_arg) /\
      nth_error vertices (Z.to_nat b)
      = Some (map (fun co => vert_col co vt) coords_arg) /\
      nth_error vertices (Z.to_nat c)
      = Some (map (fun co => face_col co f) coords_arg) /\
      nth_error face_mask (Z.to_nat a) = Some false /\
      nth_error face_mask (Z.to_nat b) = Some false /\
      nth_error face_mask (Z.to_nat c) = Some true.
Proof.
  intros Hwf Hdv Hdf mesh vertices triangles face_mask.
  apply well_formed_spec in Hwf.
  destruct Hwf as (Nv & _ & Nf & Hs & Ht & Hf & _).
  subst mesh vertices triangles face_mask. unfold triangular_mesh.
  cbn [fst snd].
  set (nf := length (face_df self)). set (nv := length (vert_df self)).
  set (Fs := map (fun f => map (fun c => face_col c f) coords_arg)
                 (values (face_df self))).
  set (Vs := map (fun v => map (fun c => vert_col c v) coords_arg)
                 (values (vert_df self))).
  assert (LF : length Fs = nf).
  { subst Fs. unfold values. rewrite !length_map. reflexivity. }
  assert (LV : length Vs = nv).
  { subst Vs. unfold values. rewrite !length_map. reflexivity. }
  split; [rewrite length_app; lia|].
  split; [rewrite length_map, length_arange, length_app; lia|].
  split; [unfold values; rewrite !length_map; reflexivity|].
  intros i l r Hi.
  assert (Hr : In r (values (edge_df self))).
  { apply nth_error_In in Hi. apply (in_map snd) in Hi. exact Hi. }
  destruct (loc1_present (vert_df self) (srce r)) as [vs Evs].
  { apply Hs. apply in_map. exact Hr. }
  destruct (loc1_present (vert_df self) (trgt r)) as [vt Evt].
  { apply Ht. apply in_map. exact Hr. }
  destruct (loc1_present (face_df self) (face r)) as [f Ef].
  { apply Hf. apply in_map. exact Hr. }
  apply loc1_Some in Evs, Evt, Ef.
  destruct (dense_row _ _ _ Hdv Evs) as (Ps & Ls & Es).
  destruct (dense_row _ _ _ Hdv Evt) as (Pt & Lt & Et).
  destruct (dense_row _ _ _ Hdf Ef) as (Pf & Lf & Eff).
  fold nv in Ls, Lt. fold nf in Lf.
  exists (srce r + Z.of_nat nf), (trgt r + Z.of_nat nf), (face r), vs, vt, f.
  assert (Hmask : forall n, (n < nf + nv)%nat ->
            nth_error (map (fun i => i <? Z.of_nat nf) (arange (nf + nv))) n
            = Some (Z.of_nat n <? Z.of_nat nf)).
  { intros n Hn. rewrite nth_error_map, nth_error_arange by exact Hn.
    reflexivity. }
  assert (Hvert : forall k v,
            0 <= k -> nth_error (vert_df self) (Z.to_nat k) = Some (k, v) ->
            nth_error (Fs ++ Vs) (Z.to_nat (k + Z.of_nat nf))
            = Some (map (fun co => vert_col co v) coords_arg)).
  { intros k v Pk Ek. rewrite nth_error_app2 by lia.
    replace (Z.to_nat (k + Z.of_nat nf) - length Fs)%nat with (Z.to_nat k)
      by lia.
    subst Vs. unfold values. rewrite map_map, nth_error_map, Ek.
    reflexivity. }
  repeat split; try assumption; try lia.
  - unfold values. rewrite map_map, nth_error_map, Hi. reflexivity.
  - apply Hvert; assumption.
  - apply Hvert; assumption.
  - rewrite nth_error_app1 by lia.
    subst Fs. unfold values. rewrite map_map, nth_error_map, Eff.
    reflexivity.
  - rewrite Hmask by lia. f_equal. apply Z.ltb_ge. lia.
  - rewrite Hmask by lia. f_equal. apply Z.ltb_ge. lia.
  - rewrite Hmask by lia. f_equal. apply Z.ltb_lt. lia.
Qed.
End MeshFacts.

Lemma triangular_mesh_indexes_witness :
  length (snd (fst (triangular_mesh (fun _ _ => Fin 0) two_triangles [cx; cy])))
  = 6%nat.
Proof.
  destruct (triangular_mesh_indexes (fun _ _ => Fin 0) two_triangles [cx; cy]
              eq_refl eq_refl eq_refl) as [_ [_ [H _]]].
  exact H.
Defined.

(** ** [sort_edges_eastwest] *)

Lemma filter_segment {A} (p : A -> bool) (T : list A) : forall a b,
  (forall i x, nth_error T i = Some x ->
               p x = (a <=? i)%nat && (i <? a + b)%nat) ->
  filter p T = firstn b (skipn a T).
Proof.
  induction T as [|x T IH]; intros a b H.
  - rewrite skipn_nil, firstn_nil. reflexivity.
  - pose proof (H 0%nat x eq_refl) as H0.
    assert (HT : forall a' b',
               (forall i y, nth_error T i = Some y ->
                            p y = (a' <=? i)%nat && (i <? a' + b')%nat) ->
               filter p T = firstn b' (skipn a' T)) by exact IH.
    destruct a as [|a].
    + destruct b as [|b].
      * simpl in H0. simpl. rewrite H0.
        rewrite (HT 0%nat 0%nat); [reflexivity|].
        intros i y Hi. rewrite (H (S i) y Hi). simpl.
        destruct i; reflexivity.
      * simpl in H0. simpl. rewrite H0. f_equal.
        rewrite (HT 0%nat b); [reflexivity|].
        intros i y Hi. rewrite (H (S i) y Hi). reflexivity.
    + simpl in H0. simpl. rewrite H0.
      apply (HT a b). intros i y Hi. rewrite (H (S i) y Hi). reflexivity.
Qed.

Lemma arange_segment n a b :
  (a + b <= n)%nat ->
  firstn b (skipn a (arange n)) = map Z.of_nat (seq a b).
Proof.
  intros H. unfold arange. rewrite skipn_map, firstn_map. f_equal.
  replace n with (a + (b + (n - a - b)))%nat by lia.
  rewrite seq_app, skipn_app, length_seq, Nat.sub_diag, skipn_all2
    by (rewrite length_seq; lia).
  simpl. rewrite seq_app, firstn_app, length_seq, Nat.sub_diag, firstn_all2
    by (rewrite length_seq; lia).
  simpl. apply app_nil_r.
Qed.

Lemma index_segment {A} (T : table A) a b :
  index T = arange (length T) ->
  (a + b <= length T)%nat ->
  index (firstn b (skipn a T)) = map Z.of_nat (seq a b).
Proof.
  intros Hd H. unfold index in *.
  rewrite <- firstn_map, <- skipn_map, Hd. apply arange_segment. exact H.
Qed.

Lemma map_segment {A B} (f : A -> B) (T : list A) :
  forall (g : nat -> B) a b,
    (a + b <= length T)%nat ->
    (forall i x, (a <= i < a + b)%nat -> nth_error T i = Some x ->
                 f x = g i) ->
    map f (firstn b (skipn a T)) = map g (seq a b).
Proof.
  induction T as [|x T IH]; intros g a b Hl H.
  - simpl in Hl. assert (b = 0)%nat by lia. subst b.
    rewrite skipn_nil. reflexivity.
  - destruct a as [|a].
    + destruct b as [|b]; [reflexivity|]. simpl. f_equal.
      * apply (H 0%nat x); [lia|reflexivity].
      * rewrite <- seq_shift, map_map.
        apply (IH (fun i => g (S i)) 0%nat b); [simpl in Hl; lia|].
        intros i y Hi Hy. apply (H (S i) y); [lia|exact Hy].
    + simpl. rewrite <- seq_shift, map_map.
      apply (IH (fun i => g (S i)) a b); [simpl in Hl; lia|].
      intros i y Hi Hy. apply (H (S i) y); [lia|exact Hy].
Qed.

Lemma map_eq_In {A B} (f g : A -> B) (l : list A) :
  map f l = map g l -> forall x, In x l -> f x = g x.
Proof. intros H. apply map_ext_in_iff. exact H. Qed.

(** [df.loc[keys]] on a table with unique labels, for labels of rows. *)
Lemma loc_rows_map {A} (d : A) (df : table A) keys :
  NoDup (index df) ->
  (forall k, In k keys -> In k (index df)) ->
  loc_rows df keys = Ok (map (fun k => (k, lookup d df k)) keys).
Proof.
  intros ND Hk. unfold loc_rows.
  rewrite (loc_unique Z.eqb Z.eqb_eq df keys ND).
  rewrite <- (combine_map_map (fun k => k) (loc1 Z.eqb df) keys), map_id.
  rewrite (no_nan_present df d keys keys Hk).
  rewrite <- (map_id keys) at 1. rewrite combine_map_map. reflexivity.
Qed.

Lemma lookup_rows {A} (d : A) (df : table A) (rows : table A) :
  NoDup (index df) ->
  (forall r, In r rows -> In r df) ->
  map (fun k => (k, lookup d df k)) (index rows) = rows.
Proof.
  intros ND H. unfold index. rewrite map_map.
  rewrite <- (map_id rows) at 2. apply map_ext_in.
  intros [k a] Hr. simpl. f_equal. apply lookup_In; [exact ND|].
  apply H. exact Hr.
Qed.

Section SortFacts.
Variable east_angle : float -> float -> bool.
Variable self : Epithelium.
Hypothesis Hwf : well_formed self = true.
Hypothesis Hsheet : has_cell self = false.
Hypothesis Hopp : has_opposite self = true.
Hypothesis Hpos : forall l, In l (index (edge_df self)) -> 0 <= l.
Hypothesis Hst : NoDup (map fst (st_indexed (edge_df self))).
Hypothesis Hcol :
  map (fun r => opposite (snd r)) (edge_df self) = get_opposite (edge_df self).
Hypothesis Heast : one_is_east east_angle (edge_df self) = true.
Hypothesis Hown : faces_owned self = true.

Let E := edge_df self.
Let F := filter is_free E.
Let D := filter is_dble E.
Let Ea := filter (is_east east_angle) D.
Let Wn := filter (fun r => negb (is_east east_angle r)) D.
Let d0 := mk_edge 0 0 0 0 NaN NaN (-1).
Let Wr := map (fun k => (k, lookup d0 E k)) (map (fun r => opposite (snd r)) Ea).
Let rows := F ++ Ea ++ Wr.

Lemma sort_NDE : NoDup (index E).
Proof. apply well_formed_spec in Hwf. tauto. Qed.

(** The opposite column holds the label of the reversed half-edge, or
    -1. *)
Lemma sort_opposite_is r :
  In r E ->
  opposite (snd r)
  = match loc1 pair_eqb (st_indexed E) (trgt (snd r), srce (snd r)) with
    | Some l => l
    | None => -1
    end.
Proof.
  intros Hr. pose proof Hcol as H.
  rewrite (get_opposite_unique (edge_df self) Hst) in H.
  exact (map_eq_In _ _ _ H r Hr).
Qed.

Lemma sort_opposite_cases r :
  In r E ->
  (opposite (snd r) = -1 /\ forall r', In r' E -> ~ reversed r r') \/
  (0 <= opposite (snd r) /\
   exists r', In r' E /\ fst r' = opposite (snd r) /\ reversed r r' /\
              opposite (snd r') = fst r).
Proof.
  intros Hr. rewrite (sort_opposite_is r Hr).
  destruct (loc1 pair_eqb (st_indexed E) (trgt (snd r), srce (snd r)))
    as [l|] eqn:El.
  - right. destruct (loc1_st_inv E r l El) as [r' [Hr' [Hl Hrev]]].
    split; [subst l; apply Hpos; apply in_map; exact Hr'|].
    exists r'. split; [exact Hr'|]. split; [exact Hl|]. split; [exact Hrev|].
    rewrite (sort_opposite_is r' Hr').
    rewrite (loc1_st_found E r' r Hst Hr); [reflexivity|].
    destruct Hrev as [H1 H2]. split; congruence.
  - left. split; [reflexivity|].
    intros r' Hr' Hrev.
    rewrite (loc1_st_found E r r' Hst Hr' Hrev) in El. discriminate.
Qed.

Lemma sort_paired : opposite_paired E = true.
Proof.
  unfold opposite_paired. apply forallb_forall. intros r Hr.
  destruct (is_dble r) eqn:Hd; [|reflexivity].
  destruct (sort_opposite_cases r Hr) as [[H1 _]|[_ [r' [Hr' [Hl [_ Ho]]]]]].
  - unfold is_dble in Hd. rewrite H1 in Hd. discriminate.
  - rewrite <- Hl.
    rewrite (loc1_In E (fst r') (snd r') sort_NDE)
      by (destruct r'; exact Hr').
    rewrite Ho, Z.eqb_refl. simpl. apply Z.leb_le. apply Hpos.
    apply in_map. exact Hr.
Qed.

Variable s1 : Epithelium.
Hypothesis Hfirst : get_extra_indices east_angle self = Ok s1.

Lemma sort_first :
  exists ex,
    s1 = with_extra ex self /\
    srtd_edges ex
    = (index F ++ index Ea) ++ map (fun r => opposite (snd r)) Ea /\
    free_edges ex = index F /\ east_edges ex = index Ea /\
    (length D = 2 * length Ea)%nat /\
    (2 * length Ea + length F = length E)%nat.
Proof.
  pose proof Hfirst as H. unfold get_extra_indices, ensure_opposite in H.
  rewrite Hopp in H. cbn [bind] in H.
  rewrite (partition_sets_unique east_angle (edge_df self) sort_NDE) in H.
  cbn [bind] in H.
  destruct (consistent _ _) eqn:Ec; [|discriminate].
  destruct (forallb _ _) eqn:Em; [|discriminate].
  inversion H as [Hs]. clear H.
  eexists. split; [reflexivity|].
  cbn [srtd_edges free_edges east_edges].
  split; [reflexivity|]. split; [reflexivity|]. split; [reflexivity|].
  unfold consistent in Ec.
  apply andb_true_iff in Ec. destruct Ec as [Ec Hd].
  apply andb_true_iff in Ec. destruct Ec as [Hn Hw].
  apply Z.eqb_eq in Hn, Hd.
  unfold index in Hn, Hd. rewrite !length_map in Hn, Hd.
  fold E D Ea F in Hn, Hd. split; lia.
Qed.

Lemma sort_west_perm :
  Permutation (index Wn) (map (fun r => opposite (snd r)) Ea).
Proof.
  destruct sort_first as [ex [_ [_ [_ [_ [Hd _]]]]]].
  apply (west_is_perm east_angle E sort_NDE sort_paired Heast).
  pose proof (Permutation_length
                (filter_split_perm (is_east east_angle) (filter is_dble E)))
    as Hl.
  rewrite length_app in Hl. fold D Ea Wn in Hl. fold D Ea.
  fold Wn. lia.
Qed.

Lemma sort_Wr_rows r : In r Wr -> In r Wn.
Proof.
  unfold Wr. intros H. apply in_map_iff in H. destruct H as [k [<- Hk]].
  apply (Permutation_in _ (Permutation_sym sort_west_perm)) in Hk.
  unfold index in Hk. apply in_map_iff in Hk.
  destruct Hk as [[k' a] [Ek Hw]]. simpl in Ek. subst k'.
  assert (HE : In (k, a) E).
  { unfold Wn, D in Hw. apply filter_In in Hw. destruct Hw as [Hw _].
    apply filter_In in Hw. tauto. }
  rewrite (lookup_In d0 E k a sort_NDE HE). exact Hw.
Qed.

Lemma sort_index_Wr : index Wr = map (fun r => opposite (snd r)) Ea.
Proof.
  unfold Wr, index. rewrite map_map. cbn [fst]. apply map_id.
Qed.

Lemma sort_index_rows : Permutation (index rows) (index E).
Proof.
  destruct sort_first as [ex [_ [_ [_ [_ [Hd Hn]]]]]].
  unfold rows, index. rewrite !map_app.
  change (map fst Wr) with (index Wr). rewrite sort_index_Wr.
  apply (partition_cover_perm east_angle E sort_NDE sort_paired Heast).
  - fold D Ea. lia.
  - fold D Ea F. lia.
Qed.

Lemma sort_rows_In r : In r rows -> In r E.
Proof.
  unfold rows. rewrite !in_app_iff. intros [H|[H|H]].
  - apply filter_In in H. tauto.
  - apply filter_In in H. destruct H as [H _]. apply filter_In in H. tauto.
  - apply sort_Wr_rows in H. apply filter_In in H. destruct H as [H _].
    apply filter_In in H. tauto.
Qed.

Lemma sort_loc_rows :
  loc_rows E ((index F ++ index Ea) ++ map (fun r => opposite (snd r)) Ea)
  = Ok rows.
Proof.
  rewrite (loc_rows_map d0 E _ sort_NDE).
  - f_equal. rewrite !map_app. unfold rows. rewrite <- app_assoc.
    f_equal; [|f_equal].
    + apply lookup_rows; [exact sort_NDE|].
      intros r H. apply filter_In in H. tauto.
    + apply lookup_rows; [exact sort_NDE|].
      intros r H. apply filter_In in H. destruct H as [H _].
      apply filter_In in H. tauto.
  - intros k Hk. apply (Permutation_in _ sort_index_rows).
    unfold rows, index. rewrite !map_app.
    change (map fst Wr) with (index Wr). rewrite sort_index_Wr.
    rewrite <- app_assoc in Hk. exact Hk.
Qed.

Lemma sort_length_Wr : length Wr = length Ea.
Proof. unfold Wr. rewrite !length_map. reflexivity. Qed.

Lemma sort_length_rows : length rows = length E.
Proof.
  pose proof (Permutation_length sort_index_rows) as H.
  unfold index in H. rewrite !length_map in H. exact H.
Qed.

(** Where the rows are after the sort. *)
Lemma sort_rows_at i x :
  nth_error rows i = Some x ->
  In x E /\
  is_free x = (i <? length F)%nat /\
  is_dble x = negb (i <? length F)%nat /\
  is_east east_angle x && is_dble x
  = (length F <=? i)%nat && (i <? length F + length Ea)%nat.
Proof.
  intros Hi. split; [apply sort_rows_In; eapply nth_error_In; exact Hi|].
  unfold rows in Hi.
  destruct (Nat.ltb_spec i (length F)) as [H1|H1].
  - rewrite nth_error_app1 in Hi by exact H1.
    apply nth_error_In in Hi. apply filter_In in Hi. destruct Hi as [_ Hf].
    rewrite Hf. split; [reflexivity|].
    assert (Hd : is_dble x = false).
    { destruct (is_dble x) eqn:Hd; [|reflexivity].
      rewrite (dble_not_free x Hd) in Hf. discriminate. }
    rewrite Hd. split; [reflexivity|].
    rewrite andb_false_r. symmetry. apply andb_false_iff. left.
    apply Nat.leb_gt. exact H1.
  - rewrite nth_error_app2 in Hi by exact H1.
    assert (Hle : (length F <=? i)%nat = true) by (apply Nat.leb_le; exact H1).
    rewrite Hle. cbn [andb negb].
    destruct (Nat.ltb_spec (i - length F) (length Ea)) as [H2|H2].
    + rewrite nth_error_app1 in Hi by exact H2.
      apply nth_error_In in Hi. apply filter_In in Hi.
      destruct Hi as [Hi He]. apply filter_In in Hi. destruct Hi as [_ Hd].
      rewrite (dble_not_free x Hd), Hd, He.
      repeat split. symmetry. apply Nat.ltb_lt. lia.
    + rewrite nth_error_app2 in Hi by exact H2.
      apply nth_error_In in Hi. apply sort_Wr_rows in Hi.
      apply filter_In in Hi. destruct Hi as [Hi He].
      apply filter_In in Hi. destruct Hi as [_ Hd].
      apply negb_true_iff in He.
      rewrite (dble_not_free x Hd), Hd, He.
      repeat split. symmetry. apply Nat.ltb_ge. lia.
Qed.

(** The i-th east row is followed, [length Ea] rows later, by its
    opposite. *)
Lemma sort_rows_west i x :
  (length F <= i < length F + length Ea)%nat ->
  nth_error rows i = Some x ->
  nth_error (index rows) (i + length Ea) = Some (opposite (snd x)).
Proof.
  intros Hi Hx. unfold rows in *. unfold index. rewrite !map_app.
  rewrite nth_error_app2 in Hx by lia.
  rewrite nth_error_app1 in Hx by lia.
  rewrite nth_error_app2 by (rewrite length_map; lia).
  rewrite nth_error_app2 by (rewrite !length_map; lia).
  rewrite !length_map.
  change (map fst Wr) with (index Wr). rewrite sort_index_Wr.
  replace (i + length Ea - length F - length Ea)%nat with (i - length F)%nat
    by lia.
  rewrite nth_error_map, Hx. reflexivity.
Qed.

Let ren := renumber_keys self.
Let E3 := reset_index_drop (map (fun r => (fst r, ren (snd r))) rows).
Let opp3 (e : Z * edge_row) : Z :=
  match loc1 pair_eqb (st_indexed E3) (trgt (snd e), srce (snd e)) with
  | Some l => l
  | None => -1
  end.
Let E4 := map (fun e => (fst e, set_opposite (opp3 e) (snd e))) E3.

Lemma sort_ND_rows : NoDup (index rows).
Proof.
  apply (Permutation_NoDup (Permutation_sym sort_index_rows)).
  exact sort_NDE.
Qed.

Lemma sort_rows_perm : Permutation rows E.
Proof.
  pose proof (lookup_rows d0 E rows sort_NDE sort_rows_In) as H1.
  pose proof (lookup_rows d0 E E sort_NDE (fun r H => H)) as H2.
  apply (Permutation_trans
           (l' := map (fun k => (k, lookup d0 E k)) (index rows)));
    [rewrite H1; apply Permutation_refl|].
  apply (Permutation_trans
           (l' := map (fun k => (k, lookup d0 E k)) (index E)));
    [|rewrite H2; apply Permutation_refl].
  apply Permutation_map. exact sort_index_rows.
Qed.

Lemma sort_E3_at i x :
  nth_error rows i = Some x ->
  nth_error E3 i = Some (Z.of_nat i, ren (snd x)).
Proof.
  intros H. unfold E3.
  apply (nth_error_reset_index_drop _ i (fst x)).
  rewrite nth_error_map, H. reflexivity.
Qed.

Lemma sort_E3_inv e :
  In e E3 ->
  exists i x, nth_error rows i = Some x /\ e = (Z.of_nat i, ren (snd x)).
Proof.
  intros H. apply In_nth_error in H. destruct H as [i Hi].
  assert (Hlt : (i < length rows)%nat).
  { assert (i < length E3)%nat by (apply nth_error_Some; congruence).
    unfold E3 in H. rewrite length_reset_index_drop, length_map in H.
    exact H. }
  destruct (nth_error rows i) as [x|] eqn:Ex;
    [|apply nth_error_None in Ex; lia].
  exists i, x. split; [exact Ex|].
  rewrite (sort_E3_at i x Ex) in Hi. congruence.
Qed.

Lemma sort_vert_inj k1 k2 :
  In k1 (index (vert_df self)) -> In k2 (index (vert_df self)) ->
  lookup 0 (new_idx (vert_df self)) k1 = lookup 0 (new_idx (vert_df self)) k2 ->
  k1 = k2.
Proof.
  intros H1 H2 He.
  assert (ND : NoDup (index (vert_df self)))
    by (apply well_formed_spec in Hwf; tauto).
  destruct (index_nth_error _ _ H1) as [n1 [a1 E1]].
  destruct (index_nth_error _ _ H2) as [n2 [a2 E2]].
  rewrite (lookup_new_idx _ n1 k1 a1 ND E1) in He.
  rewrite (lookup_new_idx _ n2 k2 a2 ND E2) in He.
  assert (n1 = n2) by lia. subst n2. congruence.
Qed.

Lemma sort_refs x :
  In x E ->
  In (srce (snd x)) (index (vert_df self)) /\
  In (trgt (snd x)) (index (vert_df self)).
Proof.
  intros Hx. apply well_formed_spec in Hwf.
  destruct Hwf as (_ & _ & _ & Hs & Ht & _).
  split; [apply Hs|apply Ht]; apply in_map; apply in_map; exact Hx.
Qed.

(** Renumbering the vertices keeps the reversal of half-edges. *)
Lemma sort_reversed_ren x y l l' :
  In x E -> In y E ->
  (reversed (l, ren (snd x)) (l', ren (snd y)) <-> reversed x y).
Proof.
  intros Hx Hy. destruct (sort_refs x Hx) as [Xs Xt].
  destruct (sort_refs y Hy) as [Ys Yt].
  unfold reversed, ren, renumber_keys. cbn [snd srce trgt]. split.
  - intros [H1 H2]. split; apply sort_vert_inj; assumption.
  - intros [H1 H2]. rewrite H1, H2. split; reflexivity.
Qed.

Lemma NoDup_map_In_inj {A B} (f : A -> B) (l : list A) :
  (forall x y, In x l -> In y l -> f x = f y -> x = y) ->
  NoDup l -> NoDup (map f l).
Proof.
  intros Hinj ND. induction ND as [|a l Hn ND IH]; simpl; constructor.
  - intros Hin. apply in_map_iff in Hin. destruct Hin as [b [Eb Hb]].
    assert (b = a) by (apply Hinj; [right; exact Hb|left; reflexivity|exact Eb]).
    subst b. exact (Hn Hb).
  - apply IH. intros x y Hx Hy. apply Hinj; right; assumption.
Qed.

Lemma sort_ND_pairs3 : NoDup (map fst (st_indexed E3)).
Proof.
  assert (H3 : map fst (st_indexed E3)
               = map (fun p => (lookup 0 (new_idx (vert_df self)) (fst p),
                                lookup 0 (new_idx (vert_df self)) (snd p)))
                     (map fst (st_indexed rows))).
  { transitivity (map (fun v => (srce v, trgt v)) (values E3)).
    { unfold st_indexed, values. rewrite !map_map. reflexivity. }
    unfold E3. rewrite values_reset_index_drop.
    unfold st_indexed, values. rewrite !map_map. reflexivity. }
  rewrite H3. apply NoDup_map_In_inj.
  - intros [a b] [a' b'] H1 H2 He. cbn [fst snd] in He.
    unfold st_indexed in H1, H2. rewrite map_map in H1, H2.
    apply in_map_iff in H1, H2.
    destruct H1 as [x [Ex Hx]]. destruct H2 as [y [Ey Hy]].
    cbn [fst] in Ex, Ey. inversion Ex; inversion Ey; subst; clear Ex Ey.
    apply sort_rows_In in Hx, Hy.
    destruct (sort_refs x Hx) as [Xs Xt].
    destruct (sort_refs y Hy) as [Ys Yt].
    inversion He as [[H1 H2]].
    f_equal; apply sort_vert_inj; assumption.
  - apply (Permutation_NoDup (l := map fst (st_indexed E))); [|exact Hst].
    apply Permutation_map. unfold st_indexed. apply Permutation_map.
    apply Permutation_sym. exact sort_rows_perm.
Qed.

(** The opposite that [get_opposite] computes on the sorted and
    renumbered table, for the row at position [i]. *)
Lemma sort_newopp i x :
  nth_error rows i = Some x ->
  (opposite (snd x) = -1 /\ opp3 (Z.of_nat i, ren (snd x)) = -1) \/
  (0 <= opposite (snd x) /\
   exists j, nth_error (index rows) j = Some (opposite (snd x)) /\
             opp3 (Z.of_nat i, ren (snd x)) = Z.of_nat j).
Proof.
  intros Hi.
  assert (Hx : In x E) by (apply sort_rows_In; eapply nth_error_In; exact Hi).
  destruct (sort_opposite_cases x Hx)
    as [[Ho Hnone]|[Ho [x' [Hx' [Hl [Hrev _]]]]]].
  - left. split; [exact Ho|]. unfold opp3.
    destruct (loc1 pair_eqb (st_indexed E3) _) as [l|] eqn:El; [|reflexivity].
    exfalso. destruct (loc1_st_inv E3 _ l El) as [e' [He' [_ Hr]]].
    destruct (sort_E3_inv e' He') as [j [y [Hj ->]]].
    assert (Hy : In y E)
      by (apply sort_rows_In; eapply nth_error_In; exact Hj).
    apply (sort_reversed_ren x y _ _ Hx Hy) in Hr.
    exact (Hnone y Hy Hr).
  - right. split; [exact Ho|].
    assert (Hin : In x' rows)
      by (apply (Permutation_in _ (Permutation_sym sort_rows_perm)); exact Hx').
    apply In_nth_error in Hin. destruct Hin as [j Hj].
    exists j. split.
    + unfold index. rewrite nth_error_map, Hj. simpl. congruence.
    + unfold opp3.
      rewrite (loc1_st_found E3 (Z.of_nat i, ren (snd x))
                 (Z.of_nat j, ren (snd x')) sort_ND_pairs3).
      * reflexivity.
      * eapply nth_error_In. apply sort_E3_at. exact Hj.
      * apply (sort_reversed_ren x x' _ _ Hx Hx'). exact Hrev.
Qed.

Lemma sort_E4_at i x :
  nth_error rows i = Some x ->
  nth_error E4 i
  = Some (Z.of_nat i,
          set_opposite (opp3 (Z.of_nat i, ren (snd x))) (ren (snd x))).
Proof.
  intros H. unfold E4. rewrite nth_error_map, (sort_E3_at i x H).
  reflexivity.
Qed.

Lemma sort_E4_inv i e :
  nth_error E4 i = Some e ->
  exists x, nth_error rows i = Some x /\
            e = (Z.of_nat i,
                 set_opposite (opp3 (Z.of_nat i, ren (snd x))) (ren (snd x))).
Proof.
  intros H.
  assert (Hlt : (i < length rows)%nat).
  { assert (i < length E4)%nat by (apply nth_error_Some; congruence).
    unfold E4, E3 in H0.
    rewrite length_map, length_reset_index_drop, length_map in H0.
    exact H0. }
  destruct (nth_error rows i) as [x|] eqn:Ex;
    [|apply nth_error_None in Ex; lia].
  exists x. split; [reflexivity|].
  rewrite (sort_E4_at i x Ex) in H. congruence.
Qed.

(** Free, double and east half-edges keep their kind through the sort. *)
Lemma sort_kinds i x e :
  nth_error rows i = Some x ->
  e = (Z.of_nat i, set_opposite (opp3 (Z.of_nat i, ren (snd x))) (ren (snd x))) ->
  is_free e = is_free x /\ is_dble e = is_dble x /\
  is_east east_angle e = is_east east_angle x.
Proof.
  intros Hi ->. unfold is_free, is_dble, is_east.
  cbn [snd opposite set_opposite dx dy ren renumber_keys].
  split; [|split; [|reflexivity]].
  - destruct (sort_newopp i x Hi) as [[H1 H2]|[H1 [j [_ H2]]]];
      rewrite H2.
    + rewrite H1. reflexivity.
    + transitivity false; [apply Z.eqb_neq; lia|symmetry; apply Z.eqb_neq; lia].
  - destruct (sort_newopp i x Hi) as [[H1 H2]|[H1 [j [_ H2]]]];
      rewrite H2.
    + rewrite H1. reflexivity.
    + transitivity true; [apply Z.leb_le; lia|symmetry; apply Z.leb_le; lia].
Qed.

Lemma sort_index_E4 : index E4 = arange (length E).
Proof.
  transitivity (index E3).
  { unfold E4, index. rewrite map_map. reflexivity. }
  unfold E3.
  rewrite index_reset_index_drop, length_map, sort_length_rows.
  reflexivity.
Qed.

Lemma sort_length_E4 : length E4 = length E.
Proof.
  rewrite <- (length_index E4), sort_index_E4. apply length_arange.
Qed.

Lemma seq_add_map a b n :
  map (fun i => Z.of_nat (i + n)) (seq a b) = map Z.of_nat (seq (a + n) b).
Proof.
  revert a. induction b as [|b IH]; intros a; simpl; [reflexivity|].
  f_equal. apply (IH (S a)).
Qed.

Lemma sort_counts :
  (length E4 = length F + 2 * length Ea)%nat.
Proof.
  destruct sort_first as [ex1 [_ [_ [_ [_ [_ Hn]]]]]].
  rewrite sort_length_E4. lia.
Qed.

(** The index sets of the sorted table are ranges of positions. *)
Lemma sort_free4 :
  index (filter is_free E4) = map Z.of_nat (seq 0 (length F)).
Proof.
  rewrite (filter_segment is_free E4 0 (length F)).
  - apply index_segment.
    + rewrite sort_index_E4, sort_length_E4. reflexivity.
    + rewrite sort_counts. lia.
  - intros i e He. destruct (sort_E4_inv i e He) as [x [Hx Ee]].
    destruct (sort_kinds i x e Hx Ee) as [Hf _].
    destruct (sort_rows_at i x Hx) as [_ [Hf' _]].
    rewrite Hf, Hf'. reflexivity.
Qed.

Lemma sort_dble4 :
  index (filter is_dble E4)
  = map Z.of_nat (seq (length F) (2 * length Ea)).
Proof.
  rewrite (filter_segment is_dble E4 (length F) (2 * length Ea)).
  - apply index_segment.
    + rewrite sort_index_E4, sort_length_E4. reflexivity.
    + rewrite sort_counts. lia.
  - intros i e He. destruct (sort_E4_inv i e He) as [x [Hx Ee]].
    destruct (sort_kinds i x e Hx Ee) as [_ [Hd _]].
    destruct (sort_rows_at i x Hx) as [_ [_ [Hd' _]]].
    rewrite Hd, Hd'.
    assert (Hlt : (i < length E4)%nat) by (apply nth_error_Some; congruence).
    rewrite sort_counts in Hlt.
    destruct (Nat.ltb_spec i (length F)) as [H1|H1]; simpl.
    + symmetry. apply andb_false_iff. left. apply Nat.leb_gt. exact H1.
    + symmetry. apply andb_true_iff. split;
        [apply Nat.leb_le; exact H1|apply Nat.ltb_lt; lia].
Qed.

Lemma sort_east4_rows :
  filter (is_east east_angle) (filter is_dble E4)
  = firstn (length Ea) (skipn (length F) E4).
Proof.
  rewrite filter_filter.
  apply (filter_segment _ E4 (length F) (length Ea)).
  intros i e He. destruct (sort_E4_inv i e He) as [x [Hx Ee]].
  destruct (sort_kinds i x e Hx Ee) as [_ [Hd Hea]].
  destruct (sort_rows_at i x Hx) as [_ [_ [_ H]]].
  rewrite Hd, Hea, andb_comm. exact H.
Qed.

Lemma sort_east4 :
  index (filter (is_east east_angle) (filter is_dble E4))
  = map Z.of_nat (seq (length F) (length Ea)).
Proof.
  rewrite sort_east4_rows. apply index_segment.
  - rewrite sort_index_E4, sort_length_E4. reflexivity.
  - rewrite sort_counts. lia.
Qed.

Lemma sort_west4 :
  map (fun r => opposite (snd r))
      (filter (is_east east_angle) (filter is_dble E4))
  = map Z.of_nat (seq (length F + length Ea) (length Ea)).
Proof.
  rewrite sort_east4_rows, <- seq_add_map.
  apply map_segment; [rewrite sort_counts; lia|].
  intros i e Hi He. destruct (sort_E4_inv i e He) as [x [Hx ->]].
  cbn [snd opposite set_opposite].
  destruct (sort_rows_at i x Hx) as [_ [_ [Hd _]]].
  destruct (sort_newopp i x Hx) as [[H1 _]|[_ [j [Hj H2]]]].
  - exfalso. unfold is_dble in Hd. rewrite H1 in Hd.
    assert (Hn : (i <? length F)%nat = false) by (apply Nat.ltb_ge; lia).
    rewrite Hn in Hd. discriminate.
  - rewrite H2. f_equal.
    pose proof (sort_rows_west i x Hi Hx) as Hw.
    apply (proj1 (NoDup_nth_error (index rows)) sort_ND_rows).
    + apply nth_error_Some. congruence.
    + congruence.
Qed.

Let s2 := with_edge_df rows s1.

Lemma sort_s1_fields :
  vert_df s1 = vert_df self /\ face_df s1 = face_df self /\
  cell_df s1 = cell_df self /\ has_opposite s1 = true /\
  edge_df s1 = E.
Proof.
  destruct sort_first as [ex1 [Hs1 _]]. rewrite Hs1.
  repeat split; try reflexivity. exact Hopp.
Qed.

Lemma sort_cells : cell_df self = None.
Proof.
  pose proof Hsheet as H. rewrite has_cell_spec in H.
  destruct (cell_df self); [discriminate|reflexivity].
Qed.

Lemma sort_wf2 : well_formed s2 = true.
Proof.
  destruct sort_s1_fields as (Hv & Hf & Hc & _ & _).
  pose proof Hwf as H. apply well_formed_spec in H.
  destruct H as (Nv & Ne & Nf & Hs & Ht & Hfa & Hce).
  apply well_formed_spec. unfold s2.
  cbn [vert_df edge_df face_df cell_df with_edge_df].
  rewrite Hv, Hf, Hc, sort_cells.
  assert (P : forall (g : edge_row -> Z) k,
             In k (map g (values rows)) -> In k (map g (values E))).
  { intros g k Hk. apply in_map_iff in Hk. destruct Hk as [r [<- Hr]].
    apply in_map. unfold values in *. apply in_map_iff in Hr.
    destruct Hr as [x [<- Hx]]. apply in_map. apply sort_rows_In.
    exact Hx. }
  split; [exact Nv|]. split; [exact sort_ND_rows|]. split; [exact Nf|].
  split; [intros k Hk; apply Hs, P, Hk|].
  split; [intros k Hk; apply Ht, P, Hk|].
  split; [intros k Hk; apply Hfa, P, Hk|exact I].
Qed.

Let s3 :=
  mk_eptm (identifier s2) (coords s2)
          (reset_index_drop (vert_df s2))
          (reset_index_drop
             (map (fun r => (fst r, renumber_keys s2 (snd r))) (edge_df s2)))
          (has_opposite s2)
          (reset_index_drop (face_df s2))
          (option_map reset_index_drop (cell_df s2))
          (edge_mindex s2) (bbox s2) (extra s2).

Lemma sort_reset_index : reset_index s2 = Ok s3.
Proof. exact (reset_index_eq s2 sort_wf2). Qed.

Lemma sort_s3_fields :
  edge_df s3 = E3 /\ has_opposite s3 = true /\ cell_df s3 = None.
Proof.
  destruct sort_s1_fields as (Hv & Hf & Hc & Ho & _).
  unfold s3, s2.
  cbn [vert_df edge_df has_opposite face_df cell_df with_edge_df].
  split; [|split].
  - unfold E3. f_equal. apply map_ext. intros r. f_equal.
    unfold ren, renumber_keys.
    cbn [vert_df face_df cell_df with_edge_df]. rewrite Hv, Hf, Hc.
    reflexivity.
  - exact Ho.
  - rewrite Hc, sort_cells. reflexivity.
Qed.

Let s4 := with_edge_df E4 (refresh_counts s3).

Lemma sort_owned2 : faces_owned s2 = true.
Proof.
  destruct sort_s1_fields as (_ & Hf & _).
  pose proof Hown as H. unfold faces_owned in *.
  rewrite refs_ok_spec in *. unfold s2.
  cbn [face_df edge_df with_edge_df]. rewrite Hf.
  intros k Hk. apply H in Hk. unfold values in *. rewrite map_map in *.
  apply in_map_iff in Hk. destruct Hk as [e [Ee He]].
  apply in_map_iff. exists e. split; [exact Ee|].
  apply (Permutation_in _ (Permutation_sym sort_rows_perm)). exact He.
Qed.

Lemma sort_reset_topo : reset_topo s3 = Ok (s4, []).
Proof.
  destruct sort_s3_fields as (He & Ho & Hc).
  rewrite (reset_topo_found s3
             (faces_owned_found _
                (renumbered_faces_owned s2 sort_wf2 sort_owned2))).
  destruct (refresh_counts_fields s3)
    as (_ & _ & _ & A4 & A5 & _ & A7 & _).
  assert (Hh : has_cell (refresh_counts s3) = false).
  { rewrite has_cell_spec, A7, Hc. reflexivity. }
  rewrite A5, Ho, Hh, A4, He. cbn [andb negb].
  rewrite (get_opposite_unique E3 sort_ND_pairs3).
  rewrite (assign_map set_opposite E3
             (fun e => match loc1 pair_eqb (st_indexed E3)
                                  (trgt (snd e), srce (snd e)) with
                       | Some l => l
                       | None => -1
                       end)).
  reflexivity.
Qed.

Lemma sort_s4_fields : edge_df s4 = E4 /\ has_opposite s4 = true.
Proof.
  destruct sort_s3_fields as (_ & Ho & _).
  destruct (refresh_counts_fields s3) as (_ & _ & _ & _ & A5 & _).
  unfold s4. cbn [edge_df has_opposite with_edge_df].
  split; [reflexivity|]. rewrite A5. exact Ho.
Qed.

Let ex4 :=
  let free := map Z.of_nat (seq 0 (length F)) in
  let east := map Z.of_nat (seq (length F) (length Ea)) in
  let west := map Z.of_nat (seq (length F + length Ea) (length Ea)) in
  let dble := map Z.of_nat (seq (length F) (2 * length Ea)) in
  mk_extra dble east west free (free ++ east) ((free ++ east) ++ west)
           ((free ++ east) ++ east)
           (Z.of_nat (length east)) (Z.of_nat (length dble))
           (Z.of_nat (length free))
           (map (fun r => (fst r, if mem (fst r) west then -1 else 1)) E4).

Lemma sort_second : get_extra_indices east_angle s4 = Ok (with_extra ex4 s4).
Proof.
  destruct sort_s4_fields as (He & Ho).
  assert (ND : NoDup (index E4)).
  { rewrite sort_index_E4. apply NoDup_arange. }
  unfold get_extra_indices, ensure_opposite. rewrite Ho. cbn [bind].
  rewrite He, (partition_sets_unique east_angle E4 ND). cbn [bind].
  rewrite sort_free4, sort_dble4, sort_east4, sort_west4.
  assert (Hc : consistent (Z.of_nat (length E4))
                 (map Z.of_nat (seq (length F) (2 * length Ea)),
                  map Z.of_nat (seq (length F) (length Ea)),
                  map Z.of_nat (seq (length F + length Ea) (length Ea)),
                  map Z.of_nat (seq 0 (length F))) = true).
  { unfold consistent. rewrite !length_map, !length_seq, sort_counts.
    apply andb_true_iff. split; [apply andb_true_iff; split|];
      apply Z.eqb_eq; lia. }
  rewrite Hc.
  assert (Hm : forallb (fun l => mem l (index E4))
                 (map Z.of_nat (seq (length F + length Ea) (length Ea)))
               = true).
  { apply forallb_forall. intros l Hl. apply mem_In.
    rewrite sort_index_E4. apply In_arange.
    apply in_map_iff in Hl. destruct Hl as [i [<- Hi]].
    apply in_seq in Hi. rewrite <- sort_length_E4, sort_counts. lia. }
  rewrite Hm. reflexivity.
Qed.

Variable ex : extra_indices.
Hypothesis Hex : extra s1 = Some ex.

Lemma sort_ex :
  srtd_edges ex = index rows /\
  length (free_edges ex) = length F /\ length (east_edges ex) = length Ea.
Proof.
  destruct sort_first as [ex1 [Hs1 [Hsr [Hfr [Hea _]]]]].
  pose proof Hex as H. rewrite Hs1 in H. cbn [extra with_extra] in H.
  inversion H; subst ex1; clear H.
  rewrite Hsr, Hfr, Hea. unfold index. rewrite !length_map.
  split; [|split; reflexivity].
  unfold rows. rewrite !map_app, <- app_assoc.
  change (map fst Wr) with (index Wr). rewrite sort_index_Wr. reflexivity.
Qed.

(** X26.  [sort_edges_eastwest] on a sheet in good order: the tables meet
    the invariants, there is no cell table, every face owns a half-edge,
    labels of half-edges are not negative, no two half-edges share their
    (source, target) pair, the opposite column is the one [get_opposite]
    computes, of a half-edge and its opposite one at least passes the east
    test, and the first call of [get_extra_indices] passes its
    assertions.  Then the function returns
    without a warning; the half-edge at position [i] of the new table is
    the half-edge that [srtd_edges] named at position [i], renumbered; and
    in the new table the free, east and west half-edges are three
    contiguous ranges of labels in this order, the i-th west half-edge
    facing the i-th east one, so that [srtd_edges] simply counts the
    half-edges. *)
Theorem sort_edges_eastwest_contiguous :
  exists final ex',
    sort_edges_eastwest east_angle self = Ok (final, []) /\
    extra final = Some ex' /\
    free_edges ex' = map Z.of_nat (seq 0 (length (free_edges ex))) /\
    east_edges ex'
    = map Z.of_nat (seq (length (free_edges ex)) (length (east_edges ex))) /\
    west_edges ex'
    = map Z.of_nat (seq (length (free_edges ex) + length (east_edges ex))
                        (length (east_edges ex))) /\
    srtd_edges ex' = arange (length (edge_df self)) /\
    index (edge_df final) = arange (length (edge_df self)) /\
    forall i k,
      nth_error (srtd_edges ex) i = Some k ->
      exists r o,
        In (k, r) (edge_df self) /\
        nth_error (edge_df final) i
        = Some (Z.of_nat i, set_opposite o (renumber_keys self r)).
Proof.
  destruct sort_ex as (Hsr & Hfr & Hea).
  destruct sort_first as [ex1 [Hs1 [Hsr1 _]]].
  assert (Eex : ex1 = ex).
  { pose proof Hex as H. rewrite Hs1 in H. cbn [extra with_extra] in H.
    congruence. }
  exists (with_extra ex4 s4), ex4.
  split.
  { unfold sort_edges_eastwest. rewrite Hfirst. cbn [bind].
    rewrite Hex. cbn [bind].
    destruct sort_s1_fields as (_ & _ & _ & _ & He1). rewrite He1.
    rewrite <- Eex, Hsr1, sort_loc_rows. cbn [bind].
    fold s2. rewrite sort_reset_index. cbn [bind].
    rewrite sort_reset_topo. cbn [bind fst snd].
    rewrite sort_second. reflexivity. }
  split; [reflexivity|].
  rewrite Hfr, Hea. unfold ex4.
  cbn [free_edges east_edges west_edges srtd_edges extra edge_df with_extra].
  split; [reflexivity|]. split; [reflexivity|]. split; [reflexivity|].
  destruct sort_s4_fields as (He4 & _).
  split.
  { change (edge_df self) with E.
    unfold arange. rewrite <- !map_app. f_equal.
    rewrite <- sort_length_E4, sort_counts.
    replace (length F + 2 * length Ea)%nat
      with (length F + (length Ea + length Ea))%nat by lia.
    rewrite !seq_app. simpl. rewrite <- app_assoc. reflexivity. }
  split; [rewrite He4; exact sort_index_E4|].
  intros i k Hk. rewrite Hsr in Hk. unfold index in Hk.
  rewrite nth_error_map in Hk.
  destruct (nth_error rows i) as [[k' r]|] eqn:Hx; [|discriminate].
  simpl in Hk. inversion Hk; subst k'; clear Hk.
  exists r, (opp3 (Z.of_nat i, ren r)). split.
  - apply (sort_rows_In (k, r)). eapply nth_error_In. exact Hx.
  - rewrite He4. exact (sort_E4_at i (k, r) Hx).
Qed.

End SortFacts.

Lemma sort_edges_eastwest_contiguous_witness :
  exists final ex',
    sort_edges_eastwest east_angle_exact pillow_geom = Ok (final, []) /\
    extra final = Some ex' /\
    free_edges ex' = [] /\
    east_edges ex' = [0; 1; 2] /\ west_edges ex' = [3; 4; 5].
Proof.
  assert (Hpos : forall l, In l (index (edge_df pillow_geom)) -> 0 <= l).
  { intros l Hl. simpl in Hl.
    repeat (destruct Hl as [<-|Hl]; [lia|]). destruct Hl. }
  assert (Hst : NoDup (map fst (st_indexed (edge_df pillow_geom)))).
  { simpl. repeat constructor; simpl; intuition discriminate. }
  destruct (get_extra_indices east_angle_exact pillow_geom)
    as [s1|e] eqn:E1; [|vm_compute in E1; discriminate].
  destruct (extra s1) as [ex|] eqn:E2;
    [|vm_compute in E1; inversion E1; subst s1; discriminate].
  destruct (sort_edges_eastwest_contiguous east_angle_exact
              pillow_geom eq_refl eq_refl eq_refl Hpos Hst eq_refl
              eq_refl eq_refl s1 E1 ex E2)
    as [final [ex' [H1 [H2 [H3 [H4 [H5 _]]]]]]].
  exists final, ex'. split; [exact H1|]. split; [exact H2|].
  vm_compute in E1. inversion E1; subst s1; clear E1.
  vm_compute in E2. inversion E2; subst ex; clear E2.
  split; [exact H3|]. split; [exact H4|exact H5].
Defined.
